(** * lullaby DeformSystem: a shallow embedding of
      [src/lullaby/systems/deform/deform_system.cc]

    The component pools of the system are finite maps keyed by entity, the
    transform and render systems are the small part of their state the deform
    system reads and writes, and every member function is a state-passing
    function over that world.  The mathfu / lullaby-util primitives the file
    calls but does not define are the fields of two interfaces, [MathLib]
    and [SqtLib]. *)

From Stdlib Require Import ZArith NArith List Bool Lia Ascii String.
From Stdlib Require Import Floats.SpecFloat.
From stdpp Require Import base option list gmap fin_maps fin_sets.

Set Implicit Arguments.
Set Default Proof Using "Type".

Open Scope string_scope.
Open Scope list_scope.
Open Scope nat_scope.

(** ** Identifiers *)

(** [lull::Entity] is an unsigned integer handle and [kNullEntity] is zero;
    [HashValue] is the unsigned result of [Hash]. *)
Abbreviation Entity := N (only parsing).
Abbreviation HashValue := N (only parsing).
Definition kNullEntity : Entity := 0%N.

Inductive DeformMode : Type :=
| DeformMode_None
| DeformMode_GlobalCylinder
| DeformMode_CylinderBend
| DeformMode_Waypoint.

#[global] Instance DeformMode_eq_dec : EqDecision DeformMode.
Proof. solve_decision. Defined.

(** ** The math primitives used by the system

    Everything below is declared in mathfu or in lullaby/util and is only
    called from deform_system.cc.  The single law is the one the code relies
    on implicitly: a float is never strictly less than itself. *)
Class MathLib : Type := {
  float : Type;
  fzero : float;
  fone : float;
  fadd : float -> float -> float;
  fsub : float -> float -> float;
  fmul : float -> float -> float;
  fdiv : float -> float -> float;
  fneg : float -> float;
  fsqrt : float -> float;
  flt : float -> float -> bool;
  flt_irrefl : forall x, flt x x = false;
  kDegreesToRadians : float;
  (* mathfu::vec3 *)
  vec3 : Type;
  kAxisZ3f : vec3;
  vec_add : vec3 -> vec3 -> vec3;
  vec_sub : vec3 -> vec3 -> vec3;
  vec_scale : float -> vec3 -> vec3;
  Normalized : vec3 -> vec3;
  DotProduct : vec3 -> vec3 -> float;
  Lerp : vec3 -> vec3 -> float -> vec3;
  (* mathfu::quat *)
  quat : Type;
  FromEulerAngles : vec3 -> quat;
  quat_mul : quat -> quat -> quat;
  (* mathfu::mat4 *)
  mat4 : Type;
  mat_get : mat4 -> nat -> nat -> float;
  mat_identity : mat4;
  mat_mul : mat4 -> mat4 -> mat4;
  mat_inverse : mat4 -> mat4;
  FromTranslationVector : vec3 -> mat4;
  mat_mul_vec : mat4 -> vec3 -> vec3;
  (* lullaby/util *)
  Aabb : Type;
  Hash : string -> HashValue;
  DeformPoint : vec3 -> float -> vec3;
  GetBoundingBox : list float -> nat -> nat -> Aabb;
  ApplyDeformation : list float -> nat -> nat -> (vec3 -> vec3) -> list float;
}.

Section DeformSystem.
Context {ML : MathLib}.

(** [lull::Sqt]: scale, rotation, translation. *)
Record Sqt : Type := MkSqt {
  translation : vec3;
  rotation : quat;
  scale : vec3;
}.

(** The remaining lullaby/util functions, over [Sqt]. *)
Class SqtLib : Type := {
  CalculateTransformMatrix : Sqt -> mat4;
  CalculateSqtFromMatrix : mat4 -> Sqt;
  (* the two overloads of CalculateCylinderDeformedTransformMatrix *)
  CalculateCylinderDeformedTransformMatrix : Sqt -> float -> float -> mat4;
  CalculateCylinderDeformedTransformMatrix_mat : mat4 -> float -> float -> mat4;
}.
Context {SL : SqtLib}.

(** ** Authored definitions (the flatbuffer tables read by [Create]) *)

Record WaypointDef : Type := MkWaypointDef {
  original_position : vec3;
  def_remapped_position : vec3;
  def_remapped_rotation : vec3;
}.

(** [lull::WaypointPath]: both fields are nullable table fields. *)
Record WaypointPathDef : Type := MkWaypointPathDef {
  def_path_id : option string;
  def_waypoints : option (list WaypointDef);
}.

(** ** Components *)

Record Waypoint : Type := MkWaypoint {
  remapped_position : vec3;
  remapped_rotation : vec3;
}.

Record WaypointPath : Type := MkWaypointPath {
  wp_path_id : HashValue;
  parameterization_axis : vec3;
  waypoints : list Waypoint;
  parameterization_values : list float;
}.

(** [DeformSystem::Deformer]; [entity] is [Component::GetEntity()]. *)
Record Deformer : Type := MkDeformer {
  entity : Entity;
  radius : float;
  mode : DeformMode;
  clamp_angle : float;
  paths : gmap N WaypointPath;
}.

(** [DeformSystem::Deformed].  A [Deformed*] is represented by the entity
    that keys the record in the pool, so [GetEntity()] is that key. *)
Record Deformed : Type := MkDeformed {
  Deformed_deformer : Entity; (* the field [deformer] *)
  path_id : HashValue;
  deformer_from_entity_undeformed_space : mat4;
  undeformed_aabb : Aabb;
}.

Definition set_deformer (d : Deformed) (x : Entity) : Deformed :=
  MkDeformed x (path_id d) (deformer_from_entity_undeformed_space d)
             (undeformed_aabb d).

Definition set_deformer_from_entity_undeformed_space
           (d : Deformed) (m : mat4) : Deformed :=
  MkDeformed (Deformed_deformer d) (path_id d) m (undeformed_aabb d).

Definition set_undeformed_aabb (d : Deformed) (b : Aabb) : Deformed :=
  MkDeformed (Deformed_deformer d) (path_id d)
             (deformer_from_entity_undeformed_space d) b.

(** ** Installed callbacks

    The lambdas handed to the transform and render systems, as data: each
    constructor records the lambda's captures. *)
Inductive CalculateWorldFromEntityMatrixFunc : Type :=
| GlobalCylinderFn (e : Entity) (radius : float)
| CylinderBendFn (e : Entity)
| WaypointFn (e : Entity).

Inductive DeformationFn : Type :=
| DeformMeshFn (e : Entity).

(** ** Logging *)

Inductive Severity : Type := ERROR | WARNING | DFATAL.

Definition LogEntry : Type := Severity * string.

(** ** The world the system runs in *)

(** The part of TransformSystem the deform system uses.  Calls to
    [SetWorldFromEntityMatrixFunction] are kept as a trace, newest first;
    [None] in a trace entry is a null function. *)
Record TransformSystem : Type := MkTransformSystem {
  ts_parent : gmap N N;
  ts_children : gmap N (list N);
  ts_world_from_entity : gmap N mat4;
  ts_matrix_fn_calls : list (N * option CalculateWorldFromEntityMatrixFunc);
}.

(** The part of RenderSystem the deform system uses: the trace of
    [SetDeformationFunction] calls, newest first. *)
Record RenderSystem : Type := MkRenderSystem {
  rs_deformation_fn_calls : list (N * option DeformationFn);
}.

Record World : Type := MkWorld {
  deformers_ : gmap N Deformer;
  deformed_ : gmap N Deformed;
  transform_system : TransformSystem;
  render_system : RenderSystem;
  log : list LogEntry;
}.

Definition with_deformed (w : World) (m : gmap N Deformed) : World :=
  MkWorld (deformers_ w) m (transform_system w) (render_system w) (log w).

Definition with_deformers (w : World) (m : gmap N Deformer) : World :=
  MkWorld m (deformed_ w) (transform_system w) (render_system w) (log w).

Definition with_transform_system (w : World) (t : TransformSystem) : World :=
  MkWorld (deformers_ w) (deformed_ w) t (render_system w) (log w).

Definition with_render_system (w : World) (r : RenderSystem) : World :=
  MkWorld (deformers_ w) (deformed_ w) (transform_system w) r (log w).

Definition with_log (w : World) (l : list LogEntry) : World :=
  MkWorld (deformers_ w) (deformed_ w) (transform_system w) (render_system w) l.

(** ** A state monad with faults

    [NullDereference] is the undefined behaviour of reading through a null
    pointer, [DanglingPointer] that of reading a component that is no longer
    in its pool, [IndexOutOfRange] that of [operator[]] past the end of a
    vector, [OutOfFuel] the recursion bound of the model. *)
Inductive Fault : Type :=
| NullDereference
| DanglingPointer
| IndexOutOfRange
| OutOfFuel.

Inductive Outcome (A : Type) : Type :=
| Ok (a : A) (w : World)
| Failed (f : Fault).
Arguments Failed {A} f.

Definition M (A : Type) : Type := World -> Outcome A.

Definition ret {A} (a : A) : M A := fun w => Ok a w.

Definition bind {A B} (m : M A) (k : A -> M B) : M B :=
  fun w => match m w with
           | Ok a w' => k a w'
           | Failed f => Failed f
           end.

Definition fail {A} (f : Fault) : M A := fun _ => Failed f.

Definition get_world : M World := fun w => Ok w w.

Definition modify (f : World -> World) : M unit := fun w => Ok tt (f w).

Notation "x <- m ;; k" := (bind m (fun x => k))
  (at level 100, m at next level, right associativity).
Notation "m ;;; k" := (bind m (fun _ => k))
  (at level 100, right associativity).

(** [LOG(severity) << msg]. *)
Definition LOG (sev : Severity) (msg : string) : M unit :=
  modify (fun w => with_log w (log w ++ [(sev, msg)])).

(** Reading through a pointer that may be null. *)
Definition deref {A} (p : option A) : M A :=
  match p with
  | Some a => ret a
  | None => fail NullDereference
  end.

(** [for (x : xs) body(x)]. *)
Fixpoint for_each {A} (xs : list A) (body : A -> M unit) : M unit :=
  match xs with
  | [] => ret tt
  | x :: xs' => body x ;;; for_each xs' body
  end.

(** ** Collaborators *)

(** [TransformSystem::GetParent]: [kNullEntity] when there is none. *)
Definition GetParent (w : World) (e : Entity) : Entity :=
  default kNullEntity (ts_parent (transform_system w) !! e).

(** [TransformSystem::GetChildren]: a nullable pointer to the child list. *)
Definition GetChildren (w : World) (e : Entity) : option (list Entity) :=
  ts_children (transform_system w) !! e.

(** [TransformSystem::GetWorldFromEntityMatrix]: a nullable pointer. *)
Definition GetWorldFromEntityMatrix (w : World) (e : Entity) : option mat4 :=
  ts_world_from_entity (transform_system w) !! e.

Definition SetWorldFromEntityMatrixFunction
           (e : Entity) (fn : option CalculateWorldFromEntityMatrixFunc)
  : M unit :=
  modify (fun w =>
    let t := transform_system w in
    with_transform_system w
      (MkTransformSystem (ts_parent t) (ts_children t)
         (ts_world_from_entity t) ((e, fn) :: ts_matrix_fn_calls t))).

Definition RenderSystem_SetDeformationFunction
           (e : Entity) (fn : option DeformationFn) : M unit :=
  modify (fun w =>
    with_render_system w
      (MkRenderSystem ((e, fn) :: rs_deformation_fn_calls (render_system w)))).

(** The function the transform system currently holds for [e]: the newest
    trace entry for [e]; [None] when no call was ever made for [e],
    [Some None] when the last call installed a null function. *)
Fixpoint newest_call {F} (calls : list (N * option F)) (e : Entity)
  : option (option F) :=
  match calls with
  | [] => None
  | (e', fn) :: rest => if N.eqb e' e then Some fn else newest_call rest e
  end.

Definition world_from_entity_fn (w : World) (e : Entity)
  : option (option CalculateWorldFromEntityMatrixFunc) :=
  newest_call (ts_matrix_fn_calls (transform_system w)) e.

Definition deformation_fn (w : World) (e : Entity)
  : option (option DeformationFn) :=
  newest_call (rs_deformation_fn_calls (render_system w)) e.

(** ** File-local helpers (the anonymous namespace) *)

(** Distance of the coordinate transform from the Y-axis. *)
Definition GetRadius (mat : mat4) : float :=
  fsqrt (fadd (fmul (mat_get mat 0 3) (mat_get mat 0 3))
              (fmul (mat_get mat 2 3) (mat_get mat 2 3))).

Definition CalculateTransformMatrixFromParent
           (sqt : Sqt) (world_from_parent_mat : option mat4) : mat4 :=
  let parent_from_local_mat := CalculateTransformMatrix sqt in
  match world_from_parent_mat with
  | Some m => mat_mul m parent_from_local_mat
  | None => parent_from_local_mat
  end.

Definition CalculateParameterizationAxis (path : WaypointPathDef)
  : option vec3 :=
  match def_waypoints path with
  | None => None
  | Some ws =>
      if length ws <? 1 then None
      else
        match last ws, head ws with
        | Some end_fbb, Some begin_fbb =>
            Some (Normalized (vec_sub (original_position end_fbb)
                                      (original_position begin_fbb)))
        | _, _ => None (* not reached: [ws] is not empty here *)
        end
  end.

(** ** Pointers into the [Deformed] pool *)

(** [deformed_.Get(e)]: null when [e] has no record. *)
Definition Get_deformed (w : World) (e : Entity) : option Entity :=
  match deformed_ w !! e with
  | Some _ => Some e
  | None => None
  end.

(** Reading [*p] for a non-null [Deformed* p]. *)
Definition read_deformed (p : Entity) : M Deformed :=
  fun w => match deformed_ w !! p with
           | Some d => Ok d w
           | None => Failed DanglingPointer
           end.

(** Writing [*p = d]. *)
Definition write_deformed (p : Entity) (d : Deformed) : M unit :=
  modify (fun w => with_deformed w (<[p := d]> (deformed_ w))).

(** Short-circuit [a || b] and [a && b] whose right operand may fault. *)
Definition or_else (a : bool) (b : M bool) : M bool :=
  if a then ret true else b.

Definition and_then (a : bool) (b : M bool) : M bool :=
  if a then b else ret false.

Definition is_null {A} (p : option A) : bool :=
  match p with
  | Some _ => false
  | None => true
  end.

(** [v[i]] on a vector. *)
Definition index {A} (v : list A) (i : nat) : M A :=
  match v !! i with
  | Some a => ret a
  | None => fail IndexOutOfRange
  end.

(** A range-for loop that updates a local. *)
Fixpoint fold_each {A B} (xs : list A) (body : B -> A -> M B) (b : B) : M B :=
  match xs with
  | [] => ret b
  | x :: xs' => b' <- body b x ;; fold_each xs' body b'
  end.

(** ** DeformSystem::BuildWaypointPath *)

Definition BuildWaypointPath_step (acc : WaypointPath)
           (waypoint_def : WaypointDef) : M WaypointPath :=
  let waypoint :=
    MkWaypoint (def_remapped_position waypoint_def)
               (def_remapped_rotation waypoint_def) in
  let waypoints' := waypoints acc ++ [waypoint] in
  let parameterized_value :=
    DotProduct (original_position waypoint_def) (parameterization_axis acc) in
  let values' := parameterization_values acc ++ [parameterized_value] in
  (* the comparison reads back() after the push_back above *)
  unsorted <- and_then (negb (length values' =? 0))
                       (back <- deref (last values') ;;
                        ret (flt parameterized_value back)) ;;
  (if unsorted : bool then LOG WARNING "Waypoint nodes aren't sorted"
   else ret tt) ;;;
  ret (MkWaypointPath (wp_path_id acc) (parameterization_axis acc)
                      waypoints' values').

Definition BuildWaypointPath (waypoint_path_def : WaypointPathDef)
  : M (option WaypointPath) :=
  if match def_waypoints waypoint_path_def with
     | None => true
     | Some ws => length ws =? 0
     end
  then
    LOG DFATAL "Path missing required field waypoints" ;;; ret None
  else
    match CalculateParameterizationAxis waypoint_path_def with
    | None =>
        LOG DFATAL "Failed to calculate the parameterization axis" ;;;
        ret None
    | Some parameterization_axis =>
        let path_id :=
          match def_path_id waypoint_path_def with
          | Some s => s
          | None => ""
          end in
        let waypoint_path :=
          MkWaypointPath (Hash path_id) parameterization_axis [] [] in
        waypoints <- deref (def_waypoints waypoint_path_def) ;;
        waypoint_path' <-
          fold_each waypoints BuildWaypointPath_step waypoint_path ;;
        ret (Some waypoint_path')
    end.

(** ** DeformSystem::ApplyDeform *)

Definition ApplyDeform (e : Entity) (deformer : option Deformer) : M unit :=
  skip <- or_else (is_null deformer)
                  (d <- deref deformer ;;
                   ret (bool_decide (mode d = DeformMode_None))) ;;
  if skip : bool then SetWorldFromEntityMatrixFunction e None
  else
    d <- deref deformer ;;
    let world_from_entity_fn :=
      match mode d with
      | DeformMode_None => None
      | DeformMode_GlobalCylinder => Some (GlobalCylinderFn e (radius d))
      | DeformMode_CylinderBend => Some (CylinderBendFn e)
      | DeformMode_Waypoint => Some (WaypointFn e)
      end in
    SetWorldFromEntityMatrixFunction e world_from_entity_fn.

(** ** DeformSystem::PrepDeformerFromEntityUndeformedSpace *)

Definition PrepDeformerFromEntityUndeformedSpace
           (e : Entity) (local_sqt : Sqt)
           (deformer : option Deformer) (deformed : option Entity) : M bool :=
  if is_null deformed then
    LOG ERROR "Missing deformed, skipping deformation for entity" ;;;
    ret false
  else if is_null deformer then
    LOG ERROR "Missing deformer, skipping deformation for entity" ;;;
    ret false
  else
    p <- deref deformed ;;
    d <- read_deformed p ;;
    if (e =? Deformed_deformer d)%N then
      (* When the entity is its own deformer then there is nothing to do. *)
      write_deformed p
        (set_deformer_from_entity_undeformed_space d mat_identity) ;;;
      ret false
    else
      w <- get_world ;;
      let parent_entity := GetParent w e in
      let parent_deformed := Get_deformed w parent_entity in
      invalid <- or_else (is_null parent_deformed)
                   (pp <- deref parent_deformed ;;
                    pd <- read_deformed pp ;;
                    ret (Deformed_deformer pd =? kNullEntity)%N) ;;
      if invalid : bool then
        LOG ERROR "A deformed entity has non deformed parent. It will not deform." ;;;
        ret false
      else
        pp <- deref parent_deformed ;;
        pd <- read_deformed pp ;;
        d <- read_deformed p ;;
        write_deformed p
          (set_deformer_from_entity_undeformed_space d
             (mat_mul (deformer_from_entity_undeformed_space pd)
                      (CalculateTransformMatrix local_sqt))) ;;;
        ret true.

(** The two lines that open both matrix callbacks:
    [deformed = deformed_.Get(e)] and
    [deformer = deformed ? deformers_.Get(deformed->deformer) : nullptr]. *)
Definition lookup_deformer_of (w : World) (e : Entity) : option Deformer :=
  match deformed_ w !! e with
  | Some d => deformers_ w !! Deformed_deformer d
  | None => None
  end.

(** ** DeformSystem::CalculateMatrixCylinderBend *)

Definition CalculateMatrixCylinderBend
           (e : Entity) (local_sqt : Sqt) (world_from_parent_mat : option mat4)
  : M mat4 :=
  w <- get_world ;;
  let deformed := Get_deformed w e in
  let deformer := lookup_deformer_of w e in
  ok <- PrepDeformerFromEntityUndeformedSpace e local_sqt deformer deformed ;;
  if negb ok then
    ret (CalculateTransformMatrixFromParent local_sqt world_from_parent_mat)
  else
    p <- deref deformed ;;
    d <- read_deformed p ;;
    dr <- deref deformer ;;
    w' <- get_world ;;
    world_from_deformer <- deref (GetWorldFromEntityMatrix w' (Deformed_deformer d)) ;;
    ret (mat_mul world_from_deformer
           (CalculateCylinderDeformedTransformMatrix_mat
              (deformer_from_entity_undeformed_space d)
              (radius dr) (clamp_angle dr))).

(** ** FindPositionBetweenPoints *)

(** Modelled from the spec: [FindPositionBetweenPoints] is declared in
    lullaby/util/math.h, which is not among the sources.  The spec (section 6,
    [FindBracket]) fixes its contract: it returns the indices of the pair of
    neighbouring values that brackets the query and the fraction of the way
    from the first to the second, in [0,1], clamped at the ends for queries
    outside the range of the values.  [find_segment] picks the first pair
    whose upper value exceeds the query, or the last pair. *)
Fixpoint find_segment (query : float) (i : nat) (points : list float) : nat :=
  match points with
  | _ :: ((hi :: rest) as tl) =>
      if flt query hi then i
      else
        match rest with
        | [] => i
        | _ :: _ => find_segment query (S i) tl
        end
  | _ => i
  end.

Definition clamp01 (x : float) : float :=
  if flt x fzero then fzero else if flt fone x then fone else x.

(** Modelled from the spec: see [find_segment]. *)
Definition FindPositionBetweenPoints (query : float) (points : list float)
  : nat * nat * float :=
  let i := find_segment query 0 points in
  match points !! i, points !! (S i) with
  | Some lo, Some hi =>
      (i, S i, clamp01 (fdiv (fsub query lo) (fsub hi lo)))
  | _, _ => (0, 0, fzero)
  end.

(** ** DeformSystem::CalculateWaypointTransformMatrix *)

(** The locals computed between the path lookup and the two [Lerp]s. *)
Record WaypointSample : Type := MkWaypointSample {
  min_index : nat;
  max_index : nat;
  entity_match_percentage : float;
  deformed_translation : vec3;
  deformed_euler_rotation : vec3;
}.

Definition SampleWaypointPath (path : WaypointPath)
           (deformer_from_entity : mat4) : M WaypointSample :=
  let entity_from_root_sqt := CalculateSqtFromMatrix deformer_from_entity in
  let current_point :=
    DotProduct (translation entity_from_root_sqt)
               (parameterization_axis path) in
  let '(min_index, max_index, entity_match_percentage) :=
    FindPositionBetweenPoints current_point (parameterization_values path) in
  wmin <- index (waypoints path) min_index ;;
  wmax <- index (waypoints path) max_index ;;
  ret (MkWaypointSample min_index max_index entity_match_percentage
         (Lerp (remapped_position wmin) (remapped_position wmax)
               entity_match_percentage)
         (Lerp (remapped_rotation wmin) (remapped_rotation wmax)
               entity_match_percentage)).

Definition CalculateWaypointTransformMatrix
           (e : Entity) (local_sqt : Sqt) (world_from_parent_mat : option mat4)
  : M mat4 :=
  w <- get_world ;;
  let deformed := Get_deformed w e in
  let deformer := lookup_deformer_of w e in
  ok <- PrepDeformerFromEntityUndeformedSpace e local_sqt deformer deformed ;;
  if negb ok then
    ret (CalculateTransformMatrixFromParent local_sqt world_from_parent_mat)
  else
    p <- deref deformed ;;
    d <- read_deformed p ;;
    dr <- deref deformer ;;
    match paths dr !! path_id d with
    | None =>
        LOG ERROR "Missing deformation path" ;;;
        ret (CalculateTransformMatrixFromParent local_sqt
               world_from_parent_mat)
    | Some path =>
        s <- SampleWaypointPath path
               (deformer_from_entity_undeformed_space d) ;;
        let deformed_rotation :=
          FromEulerAngles
            (vec_scale kDegreesToRadians (deformed_euler_rotation s)) in
        let deformed_sqt :=
          MkSqt (deformed_translation s)
                (quat_mul deformed_rotation (rotation local_sqt))
                (scale local_sqt) in
        w' <- get_world ;;
        deformed_world_from_deformer <-
          deref (GetWorldFromEntityMatrix w' (entity dr)) ;;
        ret (CalculateTransformMatrixFromParent deformed_sqt
               (Some deformed_world_from_deformer))
    end.

(** Running an installed matrix callback: the three lambda bodies of
    [ApplyDeform]. *)
Definition call_world_from_entity_fn
           (fn : CalculateWorldFromEntityMatrixFunc)
           (local_sqt : Sqt) (world_from_parent_mat : option mat4) : M mat4 :=
  match fn with
  | GlobalCylinderFn _ radius =>
      let parent_radius :=
        match world_from_parent_mat with
        | Some m => GetRadius m
        | None => fzero
        end in
      let tmp :=
        CalculateCylinderDeformedTransformMatrix local_sqt parent_radius
                                                 radius in
      ret (match world_from_parent_mat with
           | Some m => mat_mul m tmp
           | None => tmp
           end)
  | CylinderBendFn e =>
      CalculateMatrixCylinderBend e local_sqt world_from_parent_mat
  | WaypointFn e =>
      CalculateWaypointTransformMatrix e local_sqt world_from_parent_mat
  end.

(** ** DeformSystem::CylinderBendDeformMesh *)

Definition CylinderBendDeformMesh
           (deformed_entity : Entity) (deformed : Deformed)
           (deformer : Deformer) (data : list float) (len stride : nat)
  : M (list float) :=
  w <- get_world ;;
  let world_from_entity_deformed_space :=
    GetWorldFromEntityMatrix w deformed_entity in
  let world_from_deformer_deformed_space :=
    GetWorldFromEntityMatrix w (entity deformer) in
  if is_null world_from_entity_deformed_space
     || is_null world_from_deformer_deformed_space
  then ret data
  else
    world_from_entity <- deref world_from_entity_deformed_space ;;
    world_from_deformer <- deref world_from_deformer_deformed_space ;;
    let radius := radius deformer in
    let root_from_entity_undeformed_space :=
      mat_mul (FromTranslationVector (vec_scale (fneg radius) kAxisZ3f))
              (deformer_from_entity_undeformed_space deformed) in
    let entity_from_root_deformed_space :=
      mat_mul (mat_mul (mat_inverse world_from_entity) world_from_deformer)
              (FromTranslationVector (vec_scale radius kAxisZ3f)) in
    ret (ApplyDeformation data len stride
           (fun pos =>
              mat_mul_vec entity_from_root_deformed_space
                (DeformPoint (mat_mul_vec root_from_entity_undeformed_space pos)
                             radius))).

(** ** DeformSystem::DeformMesh

    The vertex buffer is passed in and the buffer after the call is the
    result. *)
Definition DeformMesh (e : Entity) (data : list float) (len stride : nat)
  : M (list float) :=
  w <- get_world ;;
  let deformed := Get_deformed w e in
  if negb (is_null deformed) then
    p <- deref deformed ;;
    d <- read_deformed p ;;
    let deformer := deformers_ w !! Deformed_deformer d in
    bend <- and_then (negb (is_null deformer))
              (dr <- deref deformer ;;
               ret (bool_decide (mode dr = DeformMode_CylinderBend))) ;;
    if bend : bool then
      let d' := set_undeformed_aabb d (GetBoundingBox data len stride) in
      write_deformed p d' ;;;
      dr <- deref deformer ;;
      CylinderBendDeformMesh p d' dr data len stride
    else
      waypoint <- and_then (negb (is_null deformer))
                    (dr <- deref deformer ;;
                     ret (bool_decide (mode dr = DeformMode_Waypoint))) ;;
      if waypoint : bool then
        (* Waypoint deformation deliberately does not deform mesh *)
        ret data
      else
        LOG ERROR "Invalid deformer, skipping deformation for entity" ;;;
        ret data
  else
    let deformer := deformers_ w !! e in
    invalid <- or_else (negb (is_null deformer))
                 (dr <- deref deformer ;;
                  ret (negb (bool_decide
                               (mode dr = DeformMode_GlobalCylinder)))) ;;
    if invalid : bool then
      LOG ERROR "Invalid deformer, skipping deformation for entity" ;;;
      ret data
    else
      world_from_entity <- deref (GetWorldFromEntityMatrix w e) ;;
      let current_radius := GetRadius world_from_entity in
      let translation := vec_scale current_radius kAxisZ3f in
      dr <- deref deformer ;;
      ret (ApplyDeformation data len stride
             (fun pos =>
                vec_add (DeformPoint (vec_sub pos translation) (radius dr))
                        translation)).

(** ** DeformSystem::SetDeformerRecursive *)

Fixpoint SetDeformerRecursive_fuel (fuel : nat) (deformed : Entity)
         (deformer : option Deformer) : M unit :=
  match fuel with
  | 0 => fail OutOfFuel
  | S fuel' =>
      let deformer_entity :=
        match deformer with
        | Some dr => entity dr
        | None => kNullEntity
        end in
      d <- read_deformed deformed ;;
      if negb (deformer_entity =? Deformed_deformer d)%N then
        write_deformed deformed (set_deformer d deformer_entity) ;;;
        ApplyDeform deformed deformer ;;;
        w <- get_world ;;
        match GetChildren w deformed with
        | Some children =>
            for_each children (fun child =>
              w' <- get_world ;;
              match Get_deformed w' child with
              | Some child_deformed =>
                  SetDeformerRecursive_fuel fuel' child_deformed deformer
              | None => ret tt
              end)
        | None => ret tt
        end
      else ret tt
  end.

(** Every call that does work stores the new deformer in a record that did
    not hold it, so the recursion is at most one deeper than the number of
    records ([SetDeformerRecursive_fuel_enough] below). *)
Definition SetDeformerRecursive (deformed : Entity)
           (deformer : option Deformer) : M unit :=
  fun w =>
    SetDeformerRecursive_fuel (S (size (deformed_ w))) deformed deformer w.

(** ** DeformSystem::Destroy *)

Definition Destroy (e : Entity) : M unit :=
  w <- get_world ;;
  match Get_deformed w e with
  | Some deformed => SetDeformerRecursive deformed None
  | None => ret tt
  end ;;;
  RenderSystem_SetDeformationFunction e None ;;;
  modify (fun w => with_deformers w (delete e (deformers_ w))) ;;;
  modify (fun w => with_deformed w (delete e (deformed_ w))).

(** ** Queries *)

Definition IsSetAsDeformed (w : World) (e : Entity) : bool :=
  negb (is_null (deformed_ w !! e)).

Definition IsDeformed (w : World) (e : Entity) : bool :=
  negb (is_null (lookup_deformer_of w e)).

Definition GetDeformRadius (w : World) (e : Entity) : float :=
  match deformed_ w !! e with
  | None => fzero
  | Some deformed =>
      match deformers_ w !! Deformed_deformer deformed with
      | Some deformer => radius deformer
      | None => fzero
      end
  end.

Definition GetDeformMode (w : World) (e : Entity) : DeformMode :=
  match deformed_ w !! e with
  | None => DeformMode_None
  | Some deformed =>
      match deformers_ w !! Deformed_deformer deformed with
      | Some deformer => mode deformer
      | None => DeformMode_None
      end
  end.

(** A nullable pointer to the cached box. *)
Definition UndeformedBoundingBox (w : World) (entity : Entity)
  : option Aabb :=
  match deformed_ w !! entity with
  | None => None
  | Some deformed => Some (undeformed_aabb deformed)
  end.

(** ** Creation *)

(** The definitions [Create] receives.  [ConvertDef<T>] reads the table it
    is given as a [T], so a [Def] is modelled by its two readings. *)
Record DeformerDef : Type := MkDeformerDef {
  deform_mode : DeformMode;
  horizontal_radius : float;
  def_clamp_angle : float;
  waypoint_paths : option (list WaypointPathDef);
}.

Record DeformedDef : Type := MkDeformedDef {
  waypoint_path_id : option string;
}.

Record Def : Type := MkDef {
  as_DeformerDef : DeformerDef;
  as_DeformedDef : DeformedDef;
}.

Definition kDeformerHash : HashValue := Hash "DeformerDef".
Definition kDeformedHash : HashValue := Hash "DeformedDef".

(** The components their constructors build: the header that declares
    [Deformed] and [Deformer] is not among the sources, so the initial field
    values are parameters.  The entity of a new [Deformer] is the one it is
    emplaced for. *)
Class ComponentInit : Type := {
  Deformed_init : Deformed;
  Deformer_init : Deformer;
}.
Context {CI : ComponentInit}.

Definition set_path_id (d : Deformed) (h : HashValue) : Deformed :=
  MkDeformed (Deformed_deformer d) h
             (deformer_from_entity_undeformed_space d) (undeformed_aabb d).

Definition set_paths (d : Deformer) (ps : gmap N WaypointPath) : Deformer :=
  MkDeformer (entity d) (radius d) (mode d) (clamp_angle d) ps.

(** [ComponentPool::Emplace]: a pointer to the new component, or null when
    the entity already has one, which is the case [SetAsDeformed] tests
    for. *)
Definition Emplace_deformed (e : Entity) : M (option Entity) :=
  fun w =>
    match deformed_ w !! e with
    | Some _ => Ok None w
    | None =>
        Ok (Some e) (with_deformed w (<[e := Deformed_init]> (deformed_ w)))
    end.

Definition Emplace_deformer (e : Entity) : M (option Entity) :=
  fun w =>
    match deformers_ w !! e with
    | Some _ => Ok None w
    | None =>
        Ok (Some e)
           (with_deformers w
              (<[e := MkDeformer e (radius Deformer_init)
                                 (mode Deformer_init)
                                 (clamp_angle Deformer_init)
                                 (paths Deformer_init)]> (deformers_ w)))
    end.

(** Reading and writing [*p] for a non-null [Deformer* p] into the pool. *)
Definition read_deformer (p : Entity) : M Deformer :=
  fun w => match deformers_ w !! p with
           | Some d => Ok d w
           | None => Failed DanglingPointer
           end.

Definition write_deformer (p : Entity) (d : Deformer) : M unit :=
  modify (fun w => with_deformers w (<[p := d]> (deformers_ w))).

(** [deformer->paths.emplace(key, value).second]: an existing key keeps its
    value. *)
Definition paths_emplace (p : Entity) (key : HashValue) (value : WaypointPath)
  : M bool :=
  d <- read_deformer p ;;
  match paths d !! key with
  | Some _ => ret false
  | None =>
      write_deformer p (set_paths d (<[key := value]> (paths d))) ;;;
      ret true
  end.

(** ** DeformSystem::SetDeformationFunction *)

Definition SetDeformationFunction (entity : Entity) : M unit :=
  RenderSystem_SetDeformationFunction entity (Some (DeformMeshFn entity)).

(** ** DeformSystem::SetAsDeformed *)

Definition SetAsDeformed (entity : Entity) (path_id : string) : M unit :=
  deformed <- Emplace_deformed entity ;;
  if is_null deformed then
    (* If this entity is already deformed then just update its path_id. *)
    w <- get_world ;;
    p <- deref (Get_deformed w entity) ;;
    d <- read_deformed p ;;
    write_deformed p (set_path_id d (Hash path_id))
  else
    p <- deref deformed ;;
    d <- read_deformed p ;;
    write_deformed p (set_path_id d (Hash path_id)) ;;;
    w <- get_world ;;
    let parent := GetParent w entity in
    let parent_deformed := Get_deformed w parent in
    (if negb (is_null parent_deformed) then
       pp <- deref parent_deformed ;;
       pd <- read_deformed pp ;;
       SetDeformerRecursive p (deformers_ w !! Deformed_deformer pd)
     else ret tt) ;;;
    SetDeformationFunction entity.

(** ** DeformSystem::Create *)

(** One round of the loop over the authored paths. *)
Definition Create_path (deformer : Entity) (waypoint_path : WaypointPathDef)
  : M unit :=
  path <- BuildWaypointPath waypoint_path ;;
  match path with
  | None => ret tt
  | Some built =>
      inserted <- paths_emplace deformer (wp_path_id built) built ;;
      if negb inserted then LOG DFATAL "Path already exists" else ret tt
  end.

Definition Create (e : Entity) (type : HashValue) (def : Def) : M unit :=
  if (type =? kDeformerHash)%N then
    let deformer_def := as_DeformerDef def in
    if bool_decide (deform_mode deformer_def = DeformMode_Waypoint)
       && match waypoint_paths deformer_def with
          | None => true
          | Some ps => length ps <? 1
          end
    then LOG DFATAL "Waypoint deformations must have at least one path"
    else
      deformed <- Emplace_deformed e ;;
      deformer <- Emplace_deformer e ;;
      dp <- deref deformer ;;
      d <- read_deformer dp ;;
      write_deformer dp
        (MkDeformer (entity d) (horizontal_radius deformer_def)
                    (deform_mode deformer_def) (def_clamp_angle deformer_def)
                    (paths d)) ;;;
      (if bool_decide (deform_mode deformer_def = DeformMode_Waypoint) then
         ps <- deref (waypoint_paths deformer_def) ;;
         for_each ps (Create_path dp)
       else ret tt) ;;;
      (* SetDeformerRecursive reads through both pointers *)
      p <- deref deformed ;;
      w <- get_world ;;
      SetDeformerRecursive p (deformers_ w !! dp) ;;;
      SetDeformationFunction e
  else if (type =? kDeformedHash)%N then
    let deformed_def := as_DeformedDef def in
    let path_id :=
      match waypoint_path_id deformed_def with
      | Some s => s
      | None => ""
      end in
    SetAsDeformed e path_id
  else LOG DFATAL "Invalid type passed to DeformSystem::Create".

(** ** DeformSystem::OnParentChanged *)

Definition OnParentChanged (target new_parent : Entity) : M unit :=
  w <- get_world ;;
  let deformed := Get_deformed w target in
  if negb (is_null deformed) then
    p <- deref deformed ;;
    (* First check if the changed Entity is itself a Deformer. *)
    let deformer := deformers_ w !! target in
    let deformer :=
      if is_null deformer then
        (* otherwise use its new parent's deformer *)
        match deformed_ w !! new_parent with
        | Some parent_deformed =>
            deformers_ w !! Deformed_deformer parent_deformed
        | None => None
        end
      else deformer in
    SetDeformerRecursive p deformer
  else ret tt.

End DeformSystem.

Arguments Ok {ML A} a w.
Arguments Failed {ML A} f.

(** * An instance to run the embedding on

    Scalars are IEEE 754 binary32 numbers (round to nearest even), vectors
    are triples with the scalar code paths of mathfu.  Matrices and
    quaternions are kept as the expression that built them, so a computed
    matrix shows which primitives produced it.  Reading an entry of a matrix
    is exact for literal, identity and translation matrices, for the matrix
    of a transform whose rotation is the identity, and for their products;
    for a matrix built by a primitive that needs a rotation proper, and for
    the cylinder wrap, which needs sine and cosine, the instance yields
    NaN. *)
Module F32.

Definition prec : Z := 24.
Definition emax : Z := 128.

Definition of_Z (z : Z) : spec_float := binary_normalize prec emax z 0 false.

Definition zero : spec_float := S754_zero false.
Definition one : spec_float := of_Z 1.
Definition nan : spec_float := S754_nan.
Definition add : spec_float -> spec_float -> spec_float := SFadd prec emax.
Definition sub : spec_float -> spec_float -> spec_float := SFsub prec emax.
Definition mul : spec_float -> spec_float -> spec_float := SFmul prec emax.
Definition div : spec_float -> spec_float -> spec_float := SFdiv prec emax.
Definition sqrt : spec_float -> spec_float := SFsqrt prec emax.


Lemma ltb_irrefl (x : spec_float) : SFltb x x = false.
Proof.
  unfold SFltb, SFcompare.
  destruct x as [s|s| |s m e]; try destruct s; try reflexivity;
    rewrite Z.compare_refl, Pos.compare_cont_refl; reflexivity.
Qed.

Definition vec : Type := spec_float * spec_float * spec_float.

Definition vadd (a b : vec) : vec :=
  let '(ax, ay, az) := a in
  let '(bx, by_, bz) := b in
  (add ax bx, add ay by_, add az bz).

Definition vsub (a b : vec) : vec :=
  let '(ax, ay, az) := a in
  let '(bx, by_, bz) := b in
  (sub ax bx, sub ay by_, sub az bz).

Definition vscale (s : spec_float) (a : vec) : vec :=
  let '(ax, ay, az) := a in (mul ax s, mul ay s, mul az s).

Definition dot (a b : vec) : spec_float :=
  let '(ax, ay, az) := a in
  let '(bx, by_, bz) := b in
  add (add (mul ax bx) (mul ay by_)) (mul az bz).

(** [v * (1 / Length(v))]. *)
Definition normalized (a : vec) : vec :=
  vscale (div one (sqrt (dot a a))) a.

(** [v1 * (1 - percent) + v2 * percent]. *)
Definition lerp (a b : vec) (t : spec_float) : vec :=
  vadd (vscale (sub one t) a) (vscale t b).

Inductive mat_term : Type :=
| MLit (entries : list spec_float) (* sixteen entries, column by column *)
| MIdentity
| MTranslation (v : vec)
| MMul (a b : mat_term)
| MInverse (a : mat_term)
| MOfSqt (t : vec) (r : quat_term) (s : vec)
| MCylinderOfSqt (t : vec) (r : quat_term) (s : vec)
                 (parent_radius radius : spec_float)
| MCylinderOfMat (m : mat_term) (radius clamp_angle : spec_float)
with quat_term : Type :=
| QIdentity
| QFromEulerAngles (v : vec)
| QMul (a b : quat_term)
| QOfMat (m : mat_term).

Definition vnth (v : vec) (i : nat) : spec_float :=
  let '(x, y, z) := v in nth i [x; y; z] zero.

Fixpoint get (m : mat_term) (i j : nat) {struct m} : spec_float :=
  match m with
  | MLit entries => nth (j * 4 + i) entries nan
  | MIdentity => if i =? j then one else zero
  | MTranslation v =>
      if i =? j then one else if j =? 3 then vnth v i else zero
  | MMul a b =>
      add (add (add (mul (get a i 0) (get b 0 j)) (mul (get a i 1) (get b 1 j)))
               (mul (get a i 2) (get b 2 j)))
          (mul (get a i 3) (get b 3 j))
  | MOfSqt t QIdentity s =>
      (* translation * identity rotation * scale *)
      if i =? j then (if i =? 3 then one else vnth s i)
      else if j =? 3 then vnth t i else zero
  | _ => nan
  end.

(** [mat4 * vec3]: the point is extended with 1 and divided by the last
    coordinate of the product. *)
Definition mul_vec (m : mat_term) (v : vec) : vec :=
  let '(x, y, z) := v in
  let row i :=
    add (add (add (mul (get m i 0) x) (mul (get m i 1) y))
             (mul (get m i 2) z))
        (get m i 3) in
  (div (row 0) (row 3), div (row 1) (row 3), div (row 2) (row 3)).

Fixpoint apply_deformation (fuel : nat) (data : list spec_float)
         (stride : nat) (f : vec -> vec) : list spec_float :=
  match fuel, data with
  | S fuel', x :: y :: z :: _ =>
      let '(x', y', z') := f (x, y, z) in
      [x'; y'; z'] ++ firstn (stride - 3) (skipn 3 data)
        ++ apply_deformation fuel' (skipn stride data) stride f
  | _, _ => data
  end.

Definition fmin (a b : spec_float) : spec_float := if SFltb b a then b else a.
Definition fmax (a b : spec_float) : spec_float := if SFltb a b then b else a.

Fixpoint bounding_box (fuel : nat) (data : list spec_float) (stride : nat)
         (box : option (vec * vec)) : option (vec * vec) :=
  match fuel, data with
  | S fuel', x :: y :: z :: _ =>
      let box' :=
        match box with
        | None => ((x, y, z), (x, y, z))
        | Some ((ax, ay, az), (bx, by_, bz)) =>
            ((fmin ax x, fmin ay y, fmin az z),
             (fmax bx x, fmax by_ y, fmax bz z))
        end in
      bounding_box fuel' (skipn stride data) stride (Some box')
  | _, _ => box
  end.

(** A 32-bit string hash standing for lullaby's [Hash]. *)
Definition hash (s : string) : N :=
  fold_left (fun h c => ((h * 33 + N_of_ascii c) mod 4294967296)%N)
            (list_ascii_of_string s) 5381%N.

#[global] Instance math : MathLib := {
  float := spec_float;
  fzero := zero;
  fone := one;
  fadd := add;
  fsub := sub;
  fmul := mul;
  fdiv := div;
  fneg := SFopp;
  fsqrt := sqrt;
  flt := SFltb;
  flt_irrefl := ltb_irrefl;
  kDegreesToRadians := S754_finite false 9370165 (-29);
  vec3 := vec;
  kAxisZ3f := (zero, zero, one);
  vec_add := vadd;
  vec_sub := vsub;
  vec_scale := vscale;
  Normalized := normalized;
  DotProduct := dot;
  Lerp := lerp;
  quat := quat_term;
  FromEulerAngles := QFromEulerAngles;
  quat_mul := QMul;
  mat4 := mat_term;
  mat_get := get;
  mat_identity := MIdentity;
  mat_mul := MMul;
  mat_inverse := MInverse;
  FromTranslationVector := MTranslation;
  mat_mul_vec := mul_vec;
  Aabb := option (vec * vec);
  Hash := hash;
  DeformPoint := fun _ _ => (nan, nan, nan);
  GetBoundingBox := fun data len stride => bounding_box len data stride None;
  ApplyDeformation :=
    fun data len stride f => apply_deformation len data stride f;
}.

#[global] Instance sqt : SqtLib := {
  CalculateTransformMatrix :=
    fun s => MOfSqt (translation s) (rotation s) (scale s);
  CalculateSqtFromMatrix :=
    fun m =>
      match m with
      | MOfSqt t r s => MkSqt t r s
      | _ =>
          let column j := (get m 0 j, get m 1 j, get m 2 j) in
          let length v := sqrt (dot v v) in
          MkSqt (column 3) (QOfMat m)
                (length (column 0), length (column 1), length (column 2))
      end;
  CalculateCylinderDeformedTransformMatrix :=
    fun s parent_radius radius =>
      MCylinderOfSqt (translation s) (rotation s) (scale s)
                     parent_radius radius;
  CalculateCylinderDeformedTransformMatrix_mat := MCylinderOfMat;
}.

(** New components: no deformer, no paths. *)
#[global] Instance init : ComponentInit := {
  Deformed_init := MkDeformed kNullEntity 0%N MIdentity None;
  Deformer_init := MkDeformer kNullEntity zero DeformMode_None zero ∅;
}.

End F32.

Section Properties.
Context {ML : MathLib} {SL : SqtLib}.

(** * Properties *)

(** The world an outcome ends in, if it ends. *)
Definition final_world {A} (o : Outcome A) : option World :=
  match o with
  | Ok _ w => Some w
  | Failed _ => None
  end.

Ltac run_step :=
  unfold bind, ret, get_world, modify, fail, deref, LOG, or_else, and_then,
    read_deformed, write_deformed, index; simpl.

(** ** The undeformed chain *)

Lemma Get_deformed_Some (w : World) (e : Entity) (d : Deformed) :
  deformed_ w !! e = Some d -> Get_deformed w e = Some e.
Proof. intros H. unfold Get_deformed. by rewrite H. Qed.

Lemma Get_deformed_None (w : World) (e : Entity) :
  deformed_ w !! e = None -> Get_deformed w e = None.
Proof. intros H. unfold Get_deformed. by rewrite H. Qed.

Lemma lookup_deformer_of_Some (w : World) (e : Entity) (d : Deformed) :
  deformed_ w !! e = Some d ->
  lookup_deformer_of w e = deformers_ w !! Deformed_deformer d.
Proof. intros H. unfold lookup_deformer_of. by rewrite H. Qed.

(** The chain of a child of a deformed parent. *)
Lemma Prep_from_parent (w : World) (e : Entity) (local_sqt : Sqt)
      (d pd : Deformed) (dr : Deformer) :
  deformed_ w !! e = Some d ->
  e <> Deformed_deformer d ->
  deformed_ w !! GetParent w e = Some pd ->
  Deformed_deformer pd <> kNullEntity ->
  PrepDeformerFromEntityUndeformedSpace e local_sqt (Some dr) (Some e) w
  = Ok true
       (with_deformed w
          (<[e := set_deformer_from_entity_undeformed_space d
                    (mat_mul (deformer_from_entity_undeformed_space pd)
                             (CalculateTransformMatrix local_sqt))]>
             (deformed_ w))).
Proof.
  intros Hd Hne Hpd Hnull.
  unfold PrepDeformerFromEntityUndeformedSpace. run_step.
  rewrite Hd.
  apply N.eqb_neq in Hne. rewrite Hne.
  rewrite (Get_deformed_Some _ _ Hpd). simpl.
  rewrite Hpd.
  apply N.eqb_neq in Hnull. rewrite Hnull.
  rewrite Hpd, Hd. reflexivity.
Qed.

(** The chain of an entity that is its own deformer. *)
Lemma Prep_own_deformer (w : World) (e : Entity) (local_sqt : Sqt)
      (d : Deformed) (dr : Deformer) :
  deformed_ w !! e = Some d ->
  Deformed_deformer d = e ->
  PrepDeformerFromEntityUndeformedSpace e local_sqt (Some dr) (Some e) w
  = Ok false
       (with_deformed w
          (<[e := set_deformer_from_entity_undeformed_space d mat_identity]>
             (deformed_ w))).
Proof.
  intros Hd Hself.
  unfold PrepDeformerFromEntityUndeformedSpace. run_step.
  rewrite Hd, Hself, N.eqb_refl. reflexivity.
Qed.

(** C1: for a deformed object that is not its own deformer and whose parent
    carries a Deformed record with a resolved (non-null) deformer, the chain
    preparation, called as both matrix callbacks call it, stores
    parent.chain x CalculateTransformMatrix(local_sqt) as the object's chain
    and returns true, logging nothing; the parent world matrix handed to the
    callbacks has no influence on the CylinderBend result nor on the world
    either callback leaves behind. *)
Theorem C1_chain_from_parent_chain
        (w : World) (e : Entity) (local_sqt : Sqt)
        (d pd : Deformed) (dr : Deformer) :
  deformed_ w !! e = Some d ->
  deformers_ w !! Deformed_deformer d = Some dr ->
  e <> Deformed_deformer d ->
  deformed_ w !! GetParent w e = Some pd ->
  Deformed_deformer pd <> kNullEntity ->
  PrepDeformerFromEntityUndeformedSpace e local_sqt
    (lookup_deformer_of w e) (Get_deformed w e) w
  = Ok true
       (with_deformed w
          (<[e := set_deformer_from_entity_undeformed_space d
                    (mat_mul (deformer_from_entity_undeformed_space pd)
                             (CalculateTransformMatrix local_sqt))]>
             (deformed_ w)))
  /\ (forall m1 m2 : option mat4,
        CalculateMatrixCylinderBend e local_sqt m1 w
        = CalculateMatrixCylinderBend e local_sqt m2 w)
  /\ (forall m1 m2 : option mat4,
        final_world (CalculateWaypointTransformMatrix e local_sqt m1 w)
        = final_world (CalculateWaypointTransformMatrix e local_sqt m2 w)).
Proof.
  intros Hd Hdr Hne Hpd Hnull.
  pose proof (@Prep_from_parent w e local_sqt d pd dr Hd Hne Hpd Hnull)
    as Hprep.
  rewrite (lookup_deformer_of_Some _ _ Hd), Hdr, (Get_deformed_Some _ _ Hd).
  split; [exact Hprep|]. split; intros m1 m2.
  - unfold CalculateMatrixCylinderBend. run_step.
    rewrite (lookup_deformer_of_Some _ _ Hd), Hdr, (Get_deformed_Some _ _ Hd).
    rewrite Hprep. reflexivity.
  - unfold CalculateWaypointTransformMatrix. run_step.
    rewrite (lookup_deformer_of_Some _ _ Hd), Hdr, (Get_deformed_Some _ _ Hd).
    rewrite Hprep. simpl. rewrite lookup_insert_eq. simpl.
    destruct (paths dr !! path_id d) as [path|]; [|reflexivity].
    unfold SampleWaypointPath.
    destruct (FindPositionBetweenPoints _ _) as [[i j] pct]. run_step.
    destruct (waypoints path !! i); [|reflexivity].
    destruct (waypoints path !! j); [|reflexivity].
    simpl. unfold GetWorldFromEntityMatrix. simpl.
    destruct (ts_world_from_entity (transform_system w) !! entity dr);
      reflexivity.
Qed.

(** C3 (as amended): for a deformed object whose resolved deformer is the
    object itself, the chain preparation stores the identity matrix as the
    object's chain and returns false, so both the CylinderBend and the
    Waypoint callback return the ordinary parent composition of the local
    SQT. *)
Theorem C3_own_deformer_falls_back
        (w : World) (e : Entity) (local_sqt : Sqt)
        (d : Deformed) (dr : Deformer) :
  deformed_ w !! e = Some d ->
  deformers_ w !! Deformed_deformer d = Some dr ->
  Deformed_deformer d = e ->
  let w' :=
    with_deformed w
      (<[e := set_deformer_from_entity_undeformed_space d mat_identity]>
         (deformed_ w)) in
  PrepDeformerFromEntityUndeformedSpace e local_sqt
    (lookup_deformer_of w e) (Get_deformed w e) w = Ok false w'
  /\ (forall m : option mat4,
        CalculateMatrixCylinderBend e local_sqt m w
        = Ok (CalculateTransformMatrixFromParent local_sqt m) w')
  /\ (forall m : option mat4,
        CalculateWaypointTransformMatrix e local_sqt m w
        = Ok (CalculateTransformMatrixFromParent local_sqt m) w').
Proof.
  intros Hd Hdr Hself w'.
  pose proof (@Prep_own_deformer w e local_sqt d dr Hd Hself) as Hprep.
  fold w' in Hprep.
  rewrite (lookup_deformer_of_Some _ _ Hd), Hdr, (Get_deformed_Some _ _ Hd).
  split; [exact Hprep|]. split; intros m.
  - unfold CalculateMatrixCylinderBend. run_step.
    rewrite (lookup_deformer_of_Some _ _ Hd), Hdr, (Get_deformed_Some _ _ Hd).
    rewrite Hprep. reflexivity.
  - unfold CalculateWaypointTransformMatrix. run_step.
    rewrite (lookup_deformer_of_Some _ _ Hd), Hdr, (Get_deformed_Some _ _ Hd).
    rewrite Hprep. reflexivity.
Qed.

(** ** Deformer assignment *)

Definition deformer_entity_of (deformer : option Deformer) : Entity :=
  match deformer with
  | Some dr => entity dr
  | None => kNullEntity
  end.

(** The guard of [SetDeformerRecursive], at any positive fuel. *)
Lemma SetDeformerRecursive_fuel_unchanged
      (fuel : nat) (w : World) (deformed : Entity)
      (deformer : option Deformer) (d : Deformed) :
  deformed_ w !! deformed = Some d ->
  deformer_entity_of deformer = Deformed_deformer d ->
  SetDeformerRecursive_fuel (S fuel) deformed deformer w = Ok tt w.
Proof.
  intros Hd Heq. simpl. run_step. rewrite Hd.
  fold (deformer_entity_of deformer). rewrite Heq, N.eqb_refl. reflexivity.
Qed.

(** C4: assigning to a Deformed record the deformer it already refers to
    (same entity, or null for a record whose deformer is [kNullEntity])
    leaves the whole world as it was: no call reaches the transform system,
    no record changes, no child is visited. *)
Theorem C4_assignment_idempotent
        (w : World) (deformed : Entity) (deformer : option Deformer)
        (d : Deformed) :
  deformed_ w !! deformed = Some d ->
  deformer_entity_of deformer = Deformed_deformer d ->
  SetDeformerRecursive deformed deformer w = Ok tt w.
Proof.
  intros Hd Heq. unfold SetDeformerRecursive.
  by apply SetDeformerRecursive_fuel_unchanged with (d := d).
Qed.

(** ** The mesh mutator *)

(** C9: when the entity's Deformed record resolves to a deformer in Waypoint
    mode, [DeformMesh] returns the vertex buffer it was given and leaves the
    world, its log included, unchanged. *)
Theorem C9_waypoint_mesh_untouched
        (w : World) (e : Entity) (d : Deformed) (dr : Deformer)
        (data : list float) (len stride : nat) :
  deformed_ w !! e = Some d ->
  deformers_ w !! Deformed_deformer d = Some dr ->
  mode dr = DeformMode_Waypoint ->
  DeformMesh e data len stride w = Ok data w.
Proof.
  intros Hd Hdr Hmode. unfold DeformMesh. run_step.
  rewrite (Get_deformed_Some _ _ Hd). simpl.
  rewrite Hd, Hdr. simpl. rewrite Hmode. reflexivity.
Qed.

(** ** Waypoint paths *)

Definition waypoint_of_def (wd : WaypointDef) : Waypoint :=
  MkWaypoint (def_remapped_position wd) (def_remapped_rotation wd).

Definition path_id_of_def (waypoint_path_def : WaypointPathDef) : HashValue :=
  Hash (match def_path_id waypoint_path_def with
        | Some s => s
        | None => ""
        end).

Lemma last_snoc_Some {A} (l : list A) (x : A) : last (l ++ [x]) = Some x.
Proof.
  induction l as [|y l IH]; [done|]. simpl.
  destruct (l ++ [x]) eqn:E; [by destruct l|done].
Qed.

(** One round of the loop: the waypoint and its value are appended and the
    log is left alone, because the value is compared with itself. *)
Lemma BuildWaypointPath_step_ok (acc : WaypointPath) (wd : WaypointDef)
      (w : World) :
  BuildWaypointPath_step acc wd w
  = Ok (MkWaypointPath (wp_path_id acc) (parameterization_axis acc)
          (waypoints acc ++ [waypoint_of_def wd])
          (parameterization_values acc
             ++ [DotProduct (original_position wd)
                            (parameterization_axis acc)]))
       w.
Proof.
  unfold BuildWaypointPath_step. run_step.
  rewrite last_snoc_Some, length_app. simpl.
  replace (length (parameterization_values acc) + 1 =? 0) with false
    by (symmetry; apply Nat.eqb_neq; lia).
  simpl. rewrite flt_irrefl. reflexivity.
Qed.

Lemma BuildWaypointPath_loop_ok (ws : list WaypointDef) (acc : WaypointPath)
      (w : World) :
  fold_each ws BuildWaypointPath_step acc w
  = Ok (MkWaypointPath (wp_path_id acc) (parameterization_axis acc)
          (waypoints acc ++ map waypoint_of_def ws)
          (parameterization_values acc
             ++ map (fun wd => DotProduct (original_position wd)
                                          (parameterization_axis acc)) ws))
       w.
Proof.
  revert acc. induction ws as [|wd ws IH]; intros acc; simpl.
  - unfold ret. rewrite !app_nil_r. by destruct acc.
  - unfold bind. rewrite BuildWaypointPath_step_ok, IH. simpl.
    by rewrite <- !app_assoc.
Qed.

(** The axis of a path with at least one waypoint. *)
Definition axis_of (first last_ : WaypointDef) : vec3 :=
  Normalized (vec_sub (original_position last_) (original_position first)).

(** What [BuildWaypointPath] returns for a non-empty waypoint list: every
    waypoint in authoring order, each with the dot product of its authored
    position and the axis, and an unchanged log. *)
Lemma BuildWaypointPath_nonempty (pid : option string) (wd : WaypointDef)
      (ws : list WaypointDef) (w : World) :
  let def := MkWaypointPathDef pid (Some (wd :: ws)) in
  let axis := axis_of wd (List.last ws wd) in
  BuildWaypointPath def w
  = Ok (Some (MkWaypointPath (path_id_of_def def) axis
                (map waypoint_of_def (wd :: ws))
                (map (fun x => DotProduct (original_position x) axis)
                     (wd :: ws))))
       w.
Proof.
  intros def axis. unfold BuildWaypointPath, CalculateParameterizationAxis.
  unfold path_id_of_def. subst def axis.
  cbn [def_waypoints def_path_id length Nat.eqb Nat.ltb Nat.leb].
  assert (Hlast : last (wd :: ws) = Some (List.last ws wd)).
  { clear. revert wd. induction ws as [|x ws IH]; intros wd; [done|].
    change (last (wd :: x :: ws)) with (last (x :: ws)). rewrite IH.
    f_equal. clear. revert x wd.
    induction ws as [|y ws IH]; intros x wd; [done|].
    change (List.last (x :: y :: ws) wd) with (List.last (y :: ws) wd).
    by rewrite <- (IH y x), <- (IH y wd). }
  rewrite Hlast. cbn [head]. unfold bind, deref, ret.
  rewrite BuildWaypointPath_loop_ok. reflexivity.
Qed.

(** Empty or missing waypoints: no path, one DFATAL. *)
Lemma BuildWaypointPath_empty (def : WaypointPathDef) (w : World) :
  def_waypoints def = None \/ def_waypoints def = Some [] ->
  BuildWaypointPath def w
  = Ok None
       (with_log w
          (log w ++ [(DFATAL, "Path missing required field waypoints")])).
Proof.
  intros [H|H]; unfold BuildWaypointPath; rewrite H; reflexivity.
Qed.

(** C5 (what the code does): a path with exactly one waypoint is not
    rejected.  [CalculateParameterizationAxis] only refuses fewer than one
    waypoint, so the path is built, its axis being the normalized zero-length
    difference of the waypoint's position with itself, and nothing is
    logged. *)
Theorem C5_single_waypoint_path_is_built
        (pid : option string) (wd : WaypointDef) (w : World) :
  let def := MkWaypointPathDef pid (Some [wd]) in
  let axis :=
    Normalized (vec_sub (original_position wd) (original_position wd)) in
  CalculateParameterizationAxis def = Some axis
  /\ BuildWaypointPath def w
     = Ok (Some (MkWaypointPath (path_id_of_def def) axis
                   [waypoint_of_def wd]
                   [DotProduct (original_position wd) axis]))
          w.
Proof.
  intros def axis. split; [reflexivity|].
  exact (BuildWaypointPath_nonempty pid wd [] w).
Qed.

(** ** Propagation of a deformer through the hierarchy *)

(** The function [ApplyDeform] hands to the transform system. *)
Definition matrix_fn_for (deformer : option Deformer) (e : Entity)
  : option CalculateWorldFromEntityMatrixFunc :=
  match deformer with
  | None => None
  | Some dr =>
      match mode dr with
      | DeformMode_None => None
      | DeformMode_GlobalCylinder => Some (GlobalCylinderFn e (radius dr))
      | DeformMode_CylinderBend => Some (CylinderBendFn e)
      | DeformMode_Waypoint => Some (WaypointFn e)
      end
  end.

Lemma ApplyDeform_eq (e : Entity) (deformer : option Deformer) (w : World) :
  ApplyDeform e deformer w
  = SetWorldFromEntityMatrixFunction e (matrix_fn_for deformer e) w.
Proof.
  unfold ApplyDeform, matrix_fn_for. run_step.
  destruct deformer as [dr|]; simpl; [|reflexivity].
  destruct (mode dr); reflexivity.
Qed.

(** The world after the two writes that open the body of
    [SetDeformerRecursive]. *)
Definition assign_one (deformer : option Deformer) (e : Entity) (d : Deformed)
           (w : World) : World :=
  let t := transform_system w in
  MkWorld (deformers_ w)
          (<[e := set_deformer d (deformer_entity_of deformer)]> (deformed_ w))
          (MkTransformSystem (ts_parent t) (ts_children t)
             (ts_world_from_entity t)
             ((e, matrix_fn_for deformer e) :: ts_matrix_fn_calls t))
          (render_system w) (log w).

(** The loop body of [SetDeformerRecursive]. *)
Definition visit_child (fuel : nat) (deformer : option Deformer)
           (child : Entity) : M unit :=
  bind get_world (fun w' =>
    match Get_deformed w' child with
    | Some child_deformed =>
        SetDeformerRecursive_fuel fuel child_deformed deformer
    | None => ret tt
    end).

Lemma SetDeformerRecursive_fuel_unfold
      (fuel : nat) (deformer : option Deformer) (e : Entity) (d : Deformed)
      (w : World) :
  deformed_ w !! e = Some d ->
  Deformed_deformer d <> deformer_entity_of deformer ->
  SetDeformerRecursive_fuel (S fuel) e deformer w
  = match GetChildren w e with
    | Some children =>
        for_each children (visit_child fuel deformer)
                 (assign_one deformer e d w)
    | None => Ok tt (assign_one deformer e d w)
    end.
Proof.
  intros Hd Hne. simpl. unfold bind at 1. unfold read_deformed at 1.
  rewrite Hd. fold (deformer_entity_of deformer).
  replace (deformer_entity_of deformer =? Deformed_deformer d)%N with false
    by (symmetry; apply N.eqb_neq; congruence).
  simpl. unfold bind at 1. unfold write_deformed, modify.
  unfold bind at 1. rewrite ApplyDeform_eq.
  unfold SetWorldFromEntityMatrixFunction, modify.
  unfold bind at 1. unfold get_world.
  change (GetChildren _ e) with (GetChildren w e).
  destruct (GetChildren w e); reflexivity.
Qed.

Lemma for_each_mono {A} (body body' : A -> M unit) (xs : list A) :
  (forall x w w', body x w = Ok tt w' -> body' x w = Ok tt w') ->
  forall w w', for_each xs body w = Ok tt w' -> for_each xs body' w = Ok tt w'.
Proof.
  intros Hbody. induction xs as [|x xs IH]; intros w w'; simpl; [done|].
  unfold bind. destruct (body x w) as [[] w1|] eqn:E; [|done].
  rewrite (Hbody _ _ _ E). apply IH.
Qed.

(** More fuel never changes a completed run, so the bound chosen by
    [SetDeformerRecursive] does not shape its result. *)
Lemma SetDeformerRecursive_fuel_mono (deformer : option Deformer) :
  forall (n m : nat) (e : Entity) (w w' : World),
    n <= m ->
    SetDeformerRecursive_fuel n e deformer w = Ok tt w' ->
    SetDeformerRecursive_fuel m e deformer w = Ok tt w'.
Proof.
  induction n as [|n IH]; intros m e w w' Hle Hrun; [done|].
  destruct m as [|m]; [lia|].
  destruct (deformed_ w !! e) as [d|] eqn:Hd.
  - destruct (decide (deformer_entity_of deformer = Deformed_deformer d))
      as [Heq|Hne].
    + rewrite (@SetDeformerRecursive_fuel_unchanged n w e deformer d Hd Heq)
        in Hrun.
      by rewrite (@SetDeformerRecursive_fuel_unchanged m w e deformer d Hd Heq).
    + assert (Hne' : Deformed_deformer d <> deformer_entity_of deformer)
        by congruence.
      rewrite (@SetDeformerRecursive_fuel_unfold n deformer e d w Hd Hne')
        in Hrun.
      rewrite (@SetDeformerRecursive_fuel_unfold m deformer e d w Hd Hne').
      destruct (GetChildren w e) as [cs|]; [|done].
      revert Hrun. apply for_each_mono. intros c w1 w2.
      unfold visit_child, bind, get_world.
      destruct (Get_deformed w1 c); [|done]. apply IH. lia.
  - simpl in Hrun. unfold bind, read_deformed in Hrun.
    by rewrite Hd in Hrun.
Qed.

(** Records that do not yet hold the deformer being assigned. *)
Definition pending (deformer : option Deformer) (w : World) : gset N :=
  dom (filter (fun kd : N * Deformed =>
                 Deformed_deformer kd.2 <> deformer_entity_of deformer)
              (deformed_ w)).

Lemma elem_of_pending (deformer : option Deformer) (w : World) (x : Entity) :
  x ∈ pending deformer w <->
  exists d, deformed_ w !! x = Some d
            /\ Deformed_deformer d <> deformer_entity_of deformer.
Proof.
  unfold pending. rewrite elem_of_dom. split.
  - intros [d Hd]. apply map_lookup_filter_Some in Hd as [Hd Hne]. eauto.
  - intros (d & Hd & Hne). exists d. apply map_lookup_filter_Some. done.
Qed.

Lemma pending_size_le (deformer : option Deformer) (w : World) :
  size (pending deformer w) <= size (deformed_ w).
Proof.
  rewrite <- (size_dom (D := gset N) (deformed_ w)).
  apply subseteq_size. unfold pending. apply dom_filter_subseteq.
Qed.

(** [x] held another deformer in [w] and holds the assigned one in [w']. *)
Definition changed (deformer : option Deformer) (w w' : World) (x : Entity)
  : Prop :=
  exists d, deformed_ w !! x = Some d
            /\ Deformed_deformer d <> deformer_entity_of deformer
            /\ deformed_ w' !! x
               = Some (set_deformer d (deformer_entity_of deformer)).

(** What a propagation may change: deformer fields, set to the assigned
    deformer, each with a matching call to the transform system. *)
Record Ext (deformer : option Deformer) (w w' : World) : Prop := MkExt {
  ext_deformers : deformers_ w' = deformers_ w;
  ext_render : render_system w' = render_system w;
  ext_log : log w' = log w;
  ext_parent :
    ts_parent (transform_system w') = ts_parent (transform_system w);
  ext_children :
    ts_children (transform_system w') = ts_children (transform_system w);
  ext_world :
    ts_world_from_entity (transform_system w')
    = ts_world_from_entity (transform_system w);
  ext_calls :
    exists new,
      ts_matrix_fn_calls (transform_system w')
      = new ++ ts_matrix_fn_calls (transform_system w)
      /\ Forall (fun c => c.2 = matrix_fn_for deformer c.1) new;
  ext_deformed :
    forall x,
      deformed_ w' !! x = deformed_ w !! x
      \/ (changed deformer w w' x
          /\ world_from_entity_fn w' x = Some (matrix_fn_for deformer x));
}.

(** All deformed children of [x] hold the assigned deformer. *)
Definition kids_ok (deformer : option Deformer) (w : World) (x : Entity)
  : Prop :=
  forall cs c dc,
    GetChildren w x = Some cs -> c ∈ cs ->
    deformed_ w !! c = Some dc ->
    Deformed_deformer dc = deformer_entity_of deformer.

Lemma set_deformer_deformer (d : Deformed) (x : Entity) :
  Deformed_deformer (set_deformer d x) = x.
Proof. reflexivity. Qed.

Lemma newest_call_app {F} (new old : list (N * option F))
      (f : N -> option F) (x : Entity) :
  Forall (fun c => c.2 = f c.1) new ->
  newest_call old x = Some (f x) ->
  newest_call (new ++ old) x = Some (f x).
Proof.
  intros Hnew Hold. induction Hnew as [|[y fn] new Hy _ IH]; [done|].
  simpl in *. destruct (N.eqb_spec y x) as [->|]; [by rewrite Hy|done].
Qed.

Lemma Ext_refl (deformer : option Deformer) (w : World) : Ext deformer w w.
Proof.
  split; try reflexivity.
  - exists []. split; [reflexivity|constructor].
  - intros x. by left.
Qed.

Lemma Ext_target_stable (deformer : option Deformer) (w w' : World)
      (x : Entity) (d : Deformed) :
  Ext deformer w w' ->
  deformed_ w !! x = Some d ->
  Deformed_deformer d = deformer_entity_of deformer ->
  deformed_ w' !! x = Some d.
Proof.
  intros HE Hd Ht. destruct (ext_deformed HE x) as [Heq|[(d0 & H0 & Hne & _) _]].
  - by rewrite Heq.
  - congruence.
Qed.

Lemma Ext_lookup_None (deformer : option Deformer) (w w' : World)
      (x : Entity) :
  Ext deformer w w' ->
  deformed_ w !! x = None <-> deformed_ w' !! x = None.
Proof.
  intros HE. destruct (ext_deformed HE x) as [Heq|[(d0 & H0 & _ & H1) _]].
  - by rewrite Heq.
  - rewrite H0, H1. split; discriminate.
Qed.

Lemma Ext_trans (deformer : option Deformer) (w0 w1 w2 : World) :
  Ext deformer w0 w1 -> Ext deformer w1 w2 -> Ext deformer w0 w2.
Proof.
  intros H1 H2. split.
  - by rewrite (ext_deformers H2), (ext_deformers H1).
  - by rewrite (ext_render H2), (ext_render H1).
  - by rewrite (ext_log H2), (ext_log H1).
  - by rewrite (ext_parent H2), (ext_parent H1).
  - by rewrite (ext_children H2), (ext_children H1).
  - by rewrite (ext_world H2), (ext_world H1).
  - destruct (ext_calls H1) as (n1 & E1 & F1).
    destruct (ext_calls H2) as (n2 & E2 & F2).
    exists (n2 ++ n1). split.
    + by rewrite E2, E1, app_assoc.
    + by apply Forall_app.
  - intros x.
    destruct (ext_deformed H1 x) as [Heq1|[(d & Hd & Hne & Hd1) Hfn1]];
      destruct (ext_deformed H2 x) as [Heq2|[(d' & Hd' & Hne' & Hd2) Hfn2]].
    + left. congruence.
    + right. split; [|done]. exists d'. rewrite <- Heq1. done.
    + right. split.
      * exists d. by rewrite Heq2.
      * destruct (ext_calls H2) as (n2 & E2 & F2).
        unfold world_from_entity_fn in *. rewrite E2.
        by apply newest_call_app.
    + exfalso. rewrite Hd1 in Hd'. injection Hd' as <-. by apply Hne'.
Qed.

Lemma Ext_pending (deformer : option Deformer) (w w' : World) :
  Ext deformer w w' -> pending deformer w' ⊆ pending deformer w.
Proof.
  intros HE x. rewrite !elem_of_pending. intros (d' & Hd' & Hne).
  destruct (ext_deformed HE x) as [Heq|[(d & Hd & _ & Hd1) _]].
  - exists d'. by rewrite <- Heq.
  - exfalso. rewrite Hd1 in Hd'. injection Hd' as <-. by apply Hne.
Qed.

Lemma kids_ok_Ext (deformer : option Deformer) (w w' : World) (x : Entity) :
  Ext deformer w w' -> kids_ok deformer w x -> kids_ok deformer w' x.
Proof.
  intros HE Hk cs c dc' Hcs Hc Hdc'.
  unfold GetChildren in *. rewrite (ext_children HE) in Hcs.
  destruct (ext_deformed HE c) as [Heq|[(d & Hd & _ & Hd1) _]].
  - rewrite Heq in Hdc'. by eapply Hk.
  - rewrite Hd1 in Hdc'. by injection Hdc' as <-.
Qed.

(** [x] has a record and it holds the assigned deformer. *)
Definition holds (deformer : option Deformer) (w : World) (x : Entity)
  : Prop :=
  exists d, deformed_ w !! x = Some d
            /\ Deformed_deformer d = deformer_entity_of deformer.

Lemma changed_not_fixed (deformer : option Deformer) (w : World)
      (x : Entity) :
  ~ changed deformer w w x.
Proof.
  intros (d & Hd & Hne & Hd'). rewrite Hd in Hd'.
  injection Hd' as Hd'. apply Hne. by rewrite Hd' at 1.
Qed.

Lemma assign_one_Ext (deformer : option Deformer) (e : Entity)
      (d : Deformed) (w : World) :
  deformed_ w !! e = Some d ->
  Deformed_deformer d <> deformer_entity_of deformer ->
  Ext deformer w (assign_one deformer e d w).
Proof.
  intros Hd Hne. split; simpl; try reflexivity.
  - exists [(e, matrix_fn_for deformer e)]. split; [reflexivity|].
    by repeat constructor.
  - intros x. destruct (decide (x = e)) as [->|Hx].
    + right. split.
      * exists d. simpl. by rewrite lookup_insert_eq.
      * unfold world_from_entity_fn. simpl. by rewrite N.eqb_refl.
    + left. by rewrite lookup_insert_ne.
Qed.

Lemma assign_one_changed (deformer : option Deformer) (e x : Entity)
      (d : Deformed) (w : World) :
  changed deformer w (assign_one deformer e d w) x -> x = e.
Proof.
  intros (d0 & Hd0 & Hne & Hd1). destruct (decide (x = e)) as [|Hx]; [done|].
  exfalso. simpl in Hd1. rewrite lookup_insert_ne in Hd1 by done.
  rewrite Hd0 in Hd1. injection Hd1 as Hd1. apply Hne. by rewrite Hd1 at 1.
Qed.

Lemma assign_one_pending (deformer : option Deformer) (e : Entity)
      (d : Deformed) (w : World) :
  deformed_ w !! e = Some d ->
  Deformed_deformer d <> deformer_entity_of deformer ->
  size (pending deformer (assign_one deformer e d w))
  < size (pending deformer w).
Proof.
  intros Hd Hne. apply subset_size. split.
  - by apply Ext_pending, assign_one_Ext.
  - intros Hsub.
    assert (He : e ∈ pending deformer w) by (apply elem_of_pending; eauto).
    apply Hsub, elem_of_pending in He as (d' & Hd' & Hne').
    simpl in Hd'. rewrite lookup_insert_eq in Hd'. injection Hd' as <-.
    by apply Hne'.
Qed.

Lemma closure_compose (deformer : option Deformer) (P : Entity -> Prop)
      (w w1 w2 : World) :
  Ext deformer w w1 -> Ext deformer w1 w2 ->
  (forall x, P x -> changed deformer w w1 x -> kids_ok deformer w1 x) ->
  (forall x, changed deformer w1 w2 x -> kids_ok deformer w2 x) ->
  forall x, P x -> changed deformer w w2 x -> kids_ok deformer w2 x.
Proof.
  intros H1 H2 Hc1 Hc2 x HP (d & Hd & Hne & Hd2).
  destruct (ext_deformed H1 x) as [Heq|[Hch _]].
  - apply Hc2. exists d. by rewrite Heq.
  - eapply kids_ok_Ext; [exact H2|]. by apply Hc1.
Qed.

Section Propagation.
Variable deformer : option Deformer.
Variable fuel : nat.

(** The statement proved by induction on the fuel. *)
Definition propagates (n : nat) : Prop :=
  forall (w : World) (e : Entity),
    size (pending deformer w) < n ->
    is_Some (deformed_ w !! e) ->
    exists w',
      SetDeformerRecursive_fuel n e deformer w = Ok tt w'
      /\ Ext deformer w w'
      /\ (forall x, changed deformer w w' x -> kids_ok deformer w' x)
      /\ holds deformer w' e.

Hypothesis IHfuel : propagates fuel.

Lemma for_each_visit_child (w : World) (e : Entity) (cs : list Entity) :
  forall w1 : World,
    size (pending deformer w1) < fuel ->
    Ext deformer w w1 ->
    (forall x, x <> e -> changed deformer w w1 x -> kids_ok deformer w1 x) ->
    exists w2,
      for_each cs (visit_child fuel deformer) w1 = Ok tt w2
      /\ Ext deformer w1 w2
      /\ Ext deformer w w2
      /\ (forall x, x <> e -> changed deformer w w2 x ->
                    kids_ok deformer w2 x)
      /\ (forall c dc, c ∈ cs -> deformed_ w2 !! c = Some dc ->
                       Deformed_deformer dc = deformer_entity_of deformer).
Proof using IHfuel.
  induction cs as [|c cs IHcs]; intros w1 Hsz HE Hcl.
  - exists w1. simpl. unfold ret. split; [reflexivity|].
    split; [apply Ext_refl|]. split; [done|]. split; [done|].
    intros c dc Hc. by apply elem_of_nil in Hc.
  - simpl. unfold bind at 1. unfold visit_child at 1.
    unfold bind at 1. unfold get_world at 1. unfold Get_deformed.
    destruct (deformed_ w1 !! c) as [dcur|] eqn:Hc1.
    + destruct (IHfuel w1 c Hsz) as (w1' & Hrun & HE1 & Hcl1 & Hholds);
        [by eexists|].
      rewrite Hrun.
      assert (Hsz' : size (pending deformer w1') < fuel).
      { eapply Nat.le_lt_trans; [|exact Hsz].
        by apply subseteq_size, Ext_pending. }
      destruct (IHcs w1' Hsz' (Ext_trans HE HE1)) as
          (w2 & Hloop & HE2 & HE02 & Hcl2 & Hkids).
      { exact (@closure_compose deformer (fun x => x <> e) w w1 w1'
                 HE HE1 Hcl Hcl1). }
      exists w2. split; [exact Hloop|]. split; [by eapply Ext_trans|].
      split; [done|]. split; [done|].
      intros c' dc' Hc' Hdc'. apply elem_of_cons in Hc' as [->|Hc'].
      * destruct Hholds as (dh & Hdh & Hth).
        rewrite (@Ext_target_stable deformer w1' w2 c dh HE2 Hdh Hth) in Hdc'.
        congruence.
      * by eapply Hkids.
    + unfold ret at 1.
      destruct (IHcs w1 Hsz HE Hcl) as (w2 & Hloop & HE2 & HE02 & Hcl2 & Hkids).
      exists w2. split; [exact Hloop|]. split; [done|]. split; [done|].
      split; [done|].
      intros c' dc' Hc' Hdc'. apply elem_of_cons in Hc' as [->|Hc'].
      * apply (@Ext_lookup_None deformer w1 w2 c HE2) in Hc1. congruence.
      * by eapply Hkids.
Qed.

Lemma propagates_S : propagates (S fuel).
Proof using IHfuel.
  intros w e Hsz [d Hd].
  destruct (decide (Deformed_deformer d = deformer_entity_of deformer))
    as [Heq|Hne].
  - exists w.
    rewrite (@SetDeformerRecursive_fuel_unchanged fuel w e deformer d Hd
               (eq_sym Heq)).
    split; [reflexivity|]. split; [apply Ext_refl|]. split.
    + intros x Hx. by apply changed_not_fixed in Hx.
    + by exists d.
  - rewrite (@SetDeformerRecursive_fuel_unfold fuel deformer e d w Hd Hne).
    pose proof (@assign_one_Ext deformer e d w Hd Hne) as HE0.
    pose proof (@assign_one_pending deformer e d w Hd Hne) as Hlt.
    set (w0 := assign_one deformer e d w) in *.
    assert (Hholds0 : deformed_ w0 !! e
                      = Some (set_deformer d (deformer_entity_of deformer))).
    { subst w0. simpl. by rewrite lookup_insert_eq. }
    destruct (GetChildren w e) as [cs|] eqn:Hcs.
    + destruct (@for_each_visit_child w e cs w0) as
          (w2 & Hloop & HE2 & HE02 & Hcl2 & Hkids); [lia|done| |].
      { intros x Hx Hch. by apply assign_one_changed in Hch. }
      exists w2. split; [exact Hloop|]. split; [done|]. split.
      * intros x Hch. destruct (decide (x = e)) as [->|Hx]; [|by apply Hcl2].
        intros cs' c dc Hcs' Hc Hdc. unfold GetChildren in *.
        rewrite (ext_children HE02), Hcs in Hcs'. injection Hcs' as <-.
        by eapply Hkids.
      * eexists. split; [|apply set_deformer_deformer].
        by apply (@Ext_target_stable deformer w0 w2 e _ HE2 Hholds0).
    + exists w0. split; [reflexivity|]. split; [done|]. split.
      * intros x Hch. apply assign_one_changed in Hch as ->.
        intros cs' c dc Hcs'. unfold GetChildren in *.
        rewrite (ext_children HE0), Hcs in Hcs'. discriminate.
      * eexists. split; [exact Hholds0|apply set_deformer_deformer].
Qed.

End Propagation.

Lemma SetDeformerRecursive_fuel_spec (deformer : option Deformer)
      (fuel : nat) : propagates deformer fuel.
Proof.
  induction fuel as [|fuel IH].
  - intros w e Hsz. lia.
  - by apply propagates_S.
Qed.

(** With the fuel [SetDeformerRecursive] runs on, the recursion completes. *)
Lemma SetDeformerRecursive_fuel_enough
      (deformer : option Deformer) (w : World) (e : Entity) :
  is_Some (deformed_ w !! e) ->
  exists w',
    SetDeformerRecursive e deformer w = Ok tt w'
    /\ Ext deformer w w'
    /\ (forall x, changed deformer w w' x -> kids_ok deformer w' x)
    /\ holds deformer w' e.
Proof.
  intros He. unfold SetDeformerRecursive.
  apply SetDeformerRecursive_fuel_spec; [|done].
  pose proof (pending_size_le deformer w). lia.
Qed.

(** ** Destruction *)

(** The entities a null deformer propagates to from [e]: [e] itself when its
    record holds a deformer, and from there every child that has a record
    holding a deformer. *)
Inductive reaches (w : World) (e : Entity) : Entity -> Prop :=
| reaches_self (d : Deformed) :
    deformed_ w !! e = Some d ->
    Deformed_deformer d <> kNullEntity ->
    reaches w e e
| reaches_child (x c : Entity) (cs : list Entity) (dc : Deformed) :
    reaches w e x ->
    GetChildren w x = Some cs ->
    c ∈ cs ->
    deformed_ w !! c = Some dc ->
    Deformed_deformer dc <> kNullEntity ->
    reaches w e c.

Lemma reaches_changed (w w1 : World) (e : Entity) :
  Ext None w w1 ->
  (forall x, changed None w w1 x -> kids_ok None w1 x) ->
  forall x, reaches w e x -> holds None w1 e -> changed None w w1 x.
Proof.
  intros HE Hcl x Hreach Hholds.
  induction Hreach as [d Hd Hne|x c cs dc _ IH Hcs Hc Hdc Hne].
  - destruct (ext_deformed HE e) as [Heq|[Hch _]]; [|done].
    destruct Hholds as (d' & Hd' & Ht). rewrite Heq, Hd in Hd'.
    injection Hd' as <-. done.
  - specialize (Hcl x IH).
    destruct (ext_deformed HE c) as [Heq|[Hch _]]; [|done].
    exfalso. apply Hne. rewrite <- Heq in Hdc.
    apply (Hcl cs c dc); [|done|done].
    unfold GetChildren in *. by rewrite (ext_children HE).
Qed.

(** C7 (as amended): destroying an entity that carries a Deformed record
    sets its mesh-deformation function on the render system to null and
    removes its Deformer and Deformed records.  When the record held a
    deformer, a null deformer is propagated from the entity through every
    child, transitively, that carries a Deformed record holding a deformer:
    each of these entities gets a null world-from-entity matrix function and,
    the destroyed one apart, keeps its record with the deformer cleared.
    When the record held no deformer, nothing is propagated: the transform
    system sees no call and no other record changes. *)
Theorem C7_destroy_propagates_null
        (w : World) (e : Entity) (d : Deformed) :
  deformed_ w !! e = Some d ->
  exists w',
    Destroy e w = Ok tt w'
    /\ deformation_fn w' e = Some None
    /\ deformers_ w' !! e = None
    /\ deformed_ w' !! e = None
    /\ (forall x, reaches w e x ->
                  world_from_entity_fn w' x = Some None
                  /\ (x <> e -> holds None w' x))
    /\ (Deformed_deformer d = kNullEntity ->
        transform_system w' = transform_system w
        /\ deformed_ w' = delete e (deformed_ w)).
Proof.
  intros Hd.
  destruct (@SetDeformerRecursive_fuel_enough None w e) as
      (w1 & Hrun & HE & Hcl & Hholds); [by eexists|].
  unfold Destroy. unfold bind at 1. unfold get_world at 1.
  rewrite (Get_deformed_Some _ _ Hd). unfold bind at 1. rewrite Hrun.
  eexists. split; [reflexivity|]. simpl.
  split; [unfold deformation_fn; simpl; by rewrite N.eqb_refl|].
  split; [apply lookup_delete_eq|]. split; [apply lookup_delete_eq|]. split.
  - intros x Hreach.
    pose proof (reaches_changed HE Hcl Hreach Hholds) as Hch.
    destruct (ext_deformed HE x) as [Heq|[_ Hfn]].
    { destruct Hch as (d0 & Hd0 & Hne0 & Hd1). rewrite Heq, Hd0 in Hd1.
      injection Hd1 as Hd1. exfalso. apply Hne0. by rewrite Hd1 at 1. }
    split; [exact Hfn|]. intros Hx.
    destruct Hch as (d0 & Hd0 & Hne0 & Hd1).
    eexists. simpl. rewrite lookup_delete_ne by done. split; [exact Hd1|done].
  - intros Hnull.
    assert (Hw1 : w1 = w).
    { unfold SetDeformerRecursive in Hrun.
      rewrite (@SetDeformerRecursive_fuel_unchanged _ w e None d Hd) in Hrun
        by (simpl; congruence).
      congruence. }
    by rewrite Hw1.
Qed.

(** * Further properties of the code *)

Context {CI : ComponentInit}.

(** ** Assignment, for any deformer *)

(** The entities an assignment of [deformer] spreads to from [e]: [e] when
    its record holds another deformer, and from there every child whose
    record holds another deformer. *)
Inductive spreads (deformer : option Deformer) (w : World) (e : Entity)
  : Entity -> Prop :=
| spreads_self (d : Deformed) :
    deformed_ w !! e = Some d ->
    Deformed_deformer d <> deformer_entity_of deformer ->
    spreads deformer w e e
| spreads_child (x c : Entity) (cs : list Entity) (dc : Deformed) :
    spreads deformer w e x ->
    GetChildren w x = Some cs ->
    c ∈ cs ->
    deformed_ w !! c = Some dc ->
    Deformed_deformer dc <> deformer_entity_of deformer ->
    spreads deformer w e c.

Lemma spreads_changed (deformer : option Deformer) (w w1 : World)
      (e : Entity) :
  Ext deformer w w1 ->
  (forall x, changed deformer w w1 x -> kids_ok deformer w1 x) ->
  holds deformer w1 e ->
  forall x, spreads deformer w e x -> changed deformer w w1 x.
Proof.
  intros HE Hcl Hholds x Hreach.
  induction Hreach as [d Hd Hne|x c cs dc _ IH Hcs Hc Hdc Hne].
  - destruct (ext_deformed HE e) as [Heq|[Hch _]]; [|done].
    destruct Hholds as (d' & Hd' & Ht). rewrite Heq, Hd in Hd'.
    injection Hd' as <-. done.
  - specialize (Hcl x IH).
    destruct (ext_deformed HE c) as [Heq|[Hch _]]; [|done].
    exfalso. apply Hne. rewrite <- Heq in Hdc.
    apply (Hcl cs c dc); [|done|done].
    unfold GetChildren in *. by rewrite (ext_children HE).
Qed.

(** A completed run, at any fuel, is the run [SetDeformerRecursive]
    makes. *)
Lemma SetDeformerRecursive_fuel_run (deformer : option Deformer)
      (n : nat) (e : Entity) (w w' : World) :
  SetDeformerRecursive_fuel n e deformer w = Ok tt w' ->
  is_Some (deformed_ w !! e)
  /\ Ext deformer w w'
  /\ (forall x, changed deformer w w' x -> kids_ok deformer w' x)
  /\ holds deformer w' e.
Proof.
  intros Hrun.
  assert (He : is_Some (deformed_ w !! e)).
  { destruct n as [|n]; [done|]. simpl in Hrun.
    unfold bind, read_deformed in Hrun.
    destruct (deformed_ w !! e); [by eexists|done]. }
  split; [exact He|].
  set (m := Nat.max n (S (size (deformed_ w)))).
  destruct (@SetDeformerRecursive_fuel_spec deformer m w e) as
      (w2 & Hrun2 & HE & Hcl & Hh); [|exact He|].
  { pose proof (pending_size_le deformer w). lia. }
  rewrite (@SetDeformerRecursive_fuel_mono deformer n m e w w') in Hrun2;
    [|lia|exact Hrun].
  injection Hrun2 as <-. done.
Qed.

(** What a run may touch: only records and matrix functions of entities in
    [S]. *)
Definition within (S : Entity -> Prop) (w w' : World) : Prop :=
  (forall x, deformed_ w' !! x = deformed_ w !! x \/ S x)
  /\ exists new,
       ts_matrix_fn_calls (transform_system w')
       = new ++ ts_matrix_fn_calls (transform_system w)
       /\ Forall (fun c => S c.1) new.

Lemma within_refl (S : Entity -> Prop) (w : World) : within S w w.
Proof. split; [by left|]. exists []. by split. Qed.

Lemma within_trans (S : Entity -> Prop) (w0 w1 w2 : World) :
  within S w0 w1 -> within S w1 w2 -> within S w0 w2.
Proof.
  intros [H1 (n1 & E1 & F1)] [H2 (n2 & E2 & F2)]. split.
  - intros x. destruct (H2 x) as [Heq2|]; [|by right].
    destruct (H1 x) as [Heq1|]; [|by right]. left. congruence.
  - exists (n2 ++ n1). split; [by rewrite E2, E1, app_assoc|].
    by apply Forall_app.
Qed.

Lemma within_weaken (S S' : Entity -> Prop) (w w' : World) :
  (forall x, S x -> S' x) -> within S w w' -> within S' w w'.
Proof.
  intros Hsub [H1 (n1 & E1 & F1)]. split.
  - intros x. destruct (H1 x); [by left|right; auto].
  - exists n1. split; [done|]. eapply Forall_impl; [exact F1|].
    intros c. apply Hsub.
Qed.

Lemma newest_call_outside {F} (S : Entity -> Prop)
      (new old : list (N * option F)) (x : Entity) :
  Forall (fun c => S c.1) new -> ~ S x ->
  newest_call (new ++ old) x = newest_call old x.
Proof.
  intros Hnew Hx. induction Hnew as [|[y fn] new Hy _ IH]; [done|].
  simpl in *. destruct (N.eqb_spec y x) as [->|]; [done|exact IH].
Qed.

Lemma Ext_other_deformer (deformer : option Deformer) (w w1 : World)
      (x : Entity) (d : Deformed) :
  Ext deformer w w1 ->
  deformed_ w1 !! x = Some d ->
  Deformed_deformer d <> deformer_entity_of deformer ->
  deformed_ w !! x = Some d.
Proof.
  intros HE Hd Hne.
  destruct (ext_deformed HE x) as [Heq|[(d0 & _ & _ & Hd1) _]].
  - by rewrite <- Heq.
  - exfalso. rewrite Hd1 in Hd. injection Hd as <-. by apply Hne.
Qed.

Lemma spreads_lift (deformer : option Deformer) (w w1 : World)
      (e c : Entity) (cs : list Entity) :
  Ext deformer w w1 ->
  spreads deformer w e e ->
  GetChildren w e = Some cs -> c ∈ cs ->
  forall x, spreads deformer w1 c x -> spreads deformer w e x.
Proof.
  intros HE Hself Hcs Hc x Hreach.
  induction Hreach as [d Hd Hne|x c' cs' dc _ IH Hcs' Hc' Hdc Hne].
  - eapply spreads_child; [exact Hself|exact Hcs|exact Hc| |exact Hne].
    by eapply Ext_other_deformer.
  - eapply spreads_child; [exact IH| |exact Hc'| |exact Hne].
    + unfold GetChildren in *. by rewrite <- (ext_children HE).
    + by eapply Ext_other_deformer.
Qed.

Lemma for_each_visit_within (deformer : option Deformer) (n : nat)
      (w : World) (e : Entity) (cs : list Entity) :
  (forall e1 w1 w2,
      SetDeformerRecursive_fuel n e1 deformer w1 = Ok tt w2 ->
      within (spreads deformer w1 e1) w1 w2) ->
  spreads deformer w e e ->
  GetChildren w e = Some cs ->
  forall (cs' : list Entity) (w1 w2 : World),
    (forall c, c ∈ cs' -> c ∈ cs) ->
    for_each cs' (visit_child n deformer) w1 = Ok tt w2 ->
    Ext deformer w w1 ->
    within (spreads deformer w e) w w1 ->
    within (spreads deformer w e) w w2.
Proof.
  intros IH Hself Hcs.
  induction cs' as [|c cs' IHcs]; intros w1 w2 Hincl Hrun HE1 H1.
  - simpl in Hrun. by injection Hrun as <-.
  - simpl in Hrun. unfold bind at 1 in Hrun.
    destruct (visit_child n deformer c w1) as [[] w1'|] eqn:Hvisit; [|done].
    assert (Hc : c ∈ cs) by (apply Hincl, list_elem_of_here).
    assert (Hstep : Ext deformer w1 w1'
                    /\ within (spreads deformer w e) w1 w1').
    { unfold visit_child, bind, get_world, Get_deformed in Hvisit.
      destruct (deformed_ w1 !! c).
      - destruct (SetDeformerRecursive_fuel_run _ _ _ _ Hvisit)
          as (_ & HE2 & _).
        split; [exact HE2|].
        apply (@within_weaken (spreads deformer w1 c)); [|by apply IH].
        by apply (@spreads_lift deformer w w1 e c cs).
      - injection Hvisit as <-. split; [apply Ext_refl|apply within_refl]. }
    destruct Hstep as [HE2 H2].
    apply (IHcs w1' w2); [|exact Hrun| |].
    + intros c' Hc'. by apply Hincl, list_elem_of_further.
    + by eapply Ext_trans.
    + by eapply within_trans.
Qed.

(** A run only touches what it spreads to. *)
Lemma SetDeformerRecursive_fuel_within (deformer : option Deformer) :
  forall (n : nat) (e : Entity) (w w' : World),
    SetDeformerRecursive_fuel n e deformer w = Ok tt w' ->
    within (spreads deformer w e) w w'.
Proof.
  induction n as [|n IH]; intros e w w' Hrun; [done|].
  destruct (SetDeformerRecursive_fuel_run _ _ _ _ Hrun) as ([d Hd] & _).
  destruct (decide (deformer_entity_of deformer = Deformed_deformer d))
    as [Heq|Hne].
  { rewrite (@SetDeformerRecursive_fuel_unchanged n w e deformer d Hd Heq)
      in Hrun.
    injection Hrun as <-. apply within_refl. }
  assert (Hne' : Deformed_deformer d <> deformer_entity_of deformer)
    by congruence.
  rewrite (@SetDeformerRecursive_fuel_unfold n deformer e d w Hd Hne')
    in Hrun.
  assert (Hself : spreads deformer w e e) by (by eapply spreads_self).
  pose proof (@assign_one_Ext deformer e d w Hd Hne') as HE0.
  assert (H0 : within (spreads deformer w e) w (assign_one deformer e d w)).
  { split.
    - intros x. destruct (decide (x = e)) as [->|Hx]; [by right|].
      left. simpl. by rewrite lookup_insert_ne.
    - exists [(e, matrix_fn_for deformer e)]. split; [done|].
      by repeat constructor. }
  destruct (GetChildren w e) as [cs|] eqn:Hcs;
    [|by injection Hrun as <-].
  by apply (@for_each_visit_within deformer n w e cs IH Hself Hcs cs
              (assign_one deformer e d w) w').
Qed.

(** X1: assigning a deformer to an entity that has a Deformed record always
    completes, whatever the child lists look like (they may even be cyclic),
    and changes nothing but deformer fields and the transform system's
    matrix functions: the Deformer pool, the render system, the log, the
    hierarchy and the world matrices are as before, no Deformed record
    appears or disappears, and a record differs from what it was at most in
    its deformer field, which then is the assigned deformer. *)
Theorem SetDeformerRecursive_frame
        (deformer : option Deformer) (w : World) (e : Entity) :
  is_Some (deformed_ w !! e) ->
  exists w',
    SetDeformerRecursive e deformer w = Ok tt w'
    /\ deformers_ w' = deformers_ w
    /\ render_system w' = render_system w
    /\ log w' = log w
    /\ ts_parent (transform_system w') = ts_parent (transform_system w)
    /\ ts_children (transform_system w') = ts_children (transform_system w)
    /\ ts_world_from_entity (transform_system w')
       = ts_world_from_entity (transform_system w)
    /\ (forall x, deformed_ w' !! x = None <-> deformed_ w !! x = None)
    /\ (forall x d d',
          deformed_ w !! x = Some d -> deformed_ w' !! x = Some d' ->
          d' = d \/ d' = set_deformer d (deformer_entity_of deformer)).
Proof.
  intros He.
  destruct (@SetDeformerRecursive_fuel_enough deformer w e He) as
      (w' & Hrun & HE & _ & _).
  exists w'. split; [exact Hrun|].
  split; [apply (ext_deformers HE)|]. split; [apply (ext_render HE)|].
  split; [apply (ext_log HE)|]. split; [apply (ext_parent HE)|].
  split; [apply (ext_children HE)|]. split; [apply (ext_world HE)|]. split.
  - intros x. symmetry. by apply Ext_lookup_None with (deformer := deformer).
  - intros x d d' Hd Hd'.
    destruct (ext_deformed HE x) as [Heq|[(d0 & Hd0 & _ & Hd1) _]].
    + left. congruence.
    + right. congruence.
Qed.

(** X2: after an assignment the entity holds the assigned deformer, and so
    does every entity the assignment spreads to (children, transitively,
    whose records held another deformer); each of them has the matrix
    function of the deformer's mode installed: null for a null deformer or
    mode None, otherwise the GlobalCylinder, CylinderBend or Waypoint
    callback of that entity. *)
Theorem SetDeformerRecursive_spreads
        (deformer : option Deformer) (w : World) (e : Entity) :
  is_Some (deformed_ w !! e) ->
  exists w',
    SetDeformerRecursive e deformer w = Ok tt w'
    /\ holds deformer w' e
    /\ forall x, spreads deformer w e x ->
                 holds deformer w' x
                 /\ world_from_entity_fn w' x
                    = Some (matrix_fn_for deformer x).
Proof.
  intros He.
  destruct (@SetDeformerRecursive_fuel_enough deformer w e He) as
      (w' & Hrun & HE & Hcl & Hholds).
  exists w'. split; [exact Hrun|]. split; [exact Hholds|].
  intros x Hx.
  pose proof (spreads_changed HE Hcl Hholds Hx) as (d & Hd & Hne & Hd').
  split; [by eexists|].
  destruct (ext_deformed HE x) as [Heq|[_ Hfn]]; [|exact Hfn].
  exfalso. rewrite Heq, Hd in Hd'. injection Hd' as Hd'.
  apply Hne. by rewrite Hd' at 1.
Qed.

(** X3: an assignment leaves alone every entity it does not spread to: the
    Deformed record of such an entity and the matrix function the transform
    system holds for it are what they were.  In particular it stops at a
    child whose record already holds the assigned deformer and never enters
    a child without a record. *)
Theorem SetDeformerRecursive_only_spreads
        (deformer : option Deformer) (w : World) (e : Entity) :
  is_Some (deformed_ w !! e) ->
  exists w',
    SetDeformerRecursive e deformer w = Ok tt w'
    /\ forall x, ~ spreads deformer w e x ->
                 deformed_ w' !! x = deformed_ w !! x
                 /\ world_from_entity_fn w' x = world_from_entity_fn w x.
Proof.
  intros He.
  destruct (@SetDeformerRecursive_fuel_enough deformer w e He) as
      (w' & Hrun & _).
  exists w'. split; [exact Hrun|]. intros x Hx.
  destruct (SetDeformerRecursive_fuel_within _ _ _ _ Hrun)
    as [Hrec (new & Hcalls & Hnew)].
  split.
  - by destruct (Hrec x).
  - unfold world_from_entity_fn. rewrite Hcalls.
    by apply newest_call_outside with (S := spreads deformer w e).
Qed.

(** X4: assigning the same deformer a second time is a no-op: the world the
    first assignment produced is returned unchanged. *)
Theorem SetDeformerRecursive_twice
        (deformer : option Deformer) (w : World) (e : Entity) :
  is_Some (deformed_ w !! e) ->
  exists w',
    SetDeformerRecursive e deformer w = Ok tt w'
    /\ SetDeformerRecursive e deformer w' = Ok tt w'.
Proof.
  intros He.
  destruct (@SetDeformerRecursive_fuel_enough deformer w e He) as
      (w' & Hrun & _ & _ & (d & Hd & Ht)).
  exists w'. split; [exact Hrun|]. unfold SetDeformerRecursive.
  by apply SetDeformerRecursive_fuel_unchanged with (d := d).
Qed.

(** ** The matrix callbacks *)

Definition callback_result (cylinder_bend : bool) (e : Entity)
           (local_sqt : Sqt) (m : option mat4) : M mat4 :=
  if cylinder_bend then CalculateMatrixCylinderBend e local_sqt m
  else CalculateWaypointTransformMatrix e local_sqt m.

(** X5: for an entity without a Deformed record, or whose record's deformer
    is not in the Deformer pool, both matrix callbacks return the ordinary
    composition parent x local (local alone without a parent matrix), log
    exactly one ERROR and change nothing else. *)
Theorem callbacks_without_deformer
        (w : World) (e : Entity) (local_sqt : Sqt) (m : option mat4) :
  lookup_deformer_of w e = None ->
  exists msg,
    forall cylinder_bend : bool,
      callback_result cylinder_bend e local_sqt m w
      = Ok (CalculateTransformMatrixFromParent local_sqt m)
           (with_log w (log w ++ [(ERROR, msg)])).
Proof.
  intros Hnone. unfold callback_result.
  destruct (deformed_ w !! e) as [d|] eqn:Hd.
  - eexists. intros []; [unfold CalculateMatrixCylinderBend
                        |unfold CalculateWaypointTransformMatrix];
      run_step; rewrite Hnone, (Get_deformed_Some _ _ Hd); reflexivity.
  - eexists. intros []; [unfold CalculateMatrixCylinderBend
                        |unfold CalculateWaypointTransformMatrix];
      run_step; rewrite Hnone, (Get_deformed_None _ _ Hd); reflexivity.
Qed.

Lemma Prep_broken_parent (w : World) (e : Entity) (local_sqt : Sqt)
      (d : Deformed) (dr : Deformer) :
  deformed_ w !! e = Some d ->
  e <> Deformed_deformer d ->
  match deformed_ w !! GetParent w e with
  | Some pd => Deformed_deformer pd = kNullEntity
  | None => True
  end ->
  PrepDeformerFromEntityUndeformedSpace e local_sqt (Some dr) (Some e) w
  = Ok false
       (with_log w
          (log w ++
           [(ERROR,
             "A deformed entity has non deformed parent. It will not deform.")])).
Proof.
  intros Hd Hne Hparent.
  unfold PrepDeformerFromEntityUndeformedSpace. run_step.
  rewrite Hd. apply N.eqb_neq in Hne. rewrite Hne.
  unfold Get_deformed.
  destruct (deformed_ w !! GetParent w e) as [pd|] eqn:Hpd; simpl.
  - rewrite Hpd, Hparent. reflexivity.
  - reflexivity.
Qed.

(** X6: a deformed entity (not its own deformer) whose parent has no
    Deformed record, or a record without deformer, is not deformed: both
    callbacks return the ordinary composition parent x local, one ERROR is
    logged, and the entity's cached chain is left as it was. *)
Theorem callbacks_broken_parent
        (w : World) (e : Entity) (local_sqt : Sqt) (m : option mat4)
        (d : Deformed) (dr : Deformer) :
  deformed_ w !! e = Some d ->
  deformers_ w !! Deformed_deformer d = Some dr ->
  e <> Deformed_deformer d ->
  match deformed_ w !! GetParent w e with
  | Some pd => Deformed_deformer pd = kNullEntity
  | None => True
  end ->
  forall cylinder_bend : bool,
    callback_result cylinder_bend e local_sqt m w
    = Ok (CalculateTransformMatrixFromParent local_sqt m)
         (with_log w
            (log w ++
             [(ERROR,
               "A deformed entity has non deformed parent. It will not deform.")])).
Proof.
  intros Hd Hdr Hne Hparent.
  pose proof (@Prep_broken_parent w e local_sqt d dr Hd Hne Hparent) as Hprep.
  unfold callback_result.
  intros []; [unfold CalculateMatrixCylinderBend
             |unfold CalculateWaypointTransformMatrix];
    run_step;
    rewrite (lookup_deformer_of_Some _ _ Hd), Hdr, (Get_deformed_Some _ _ Hd),
      Hprep; reflexivity.
Qed.

(** The CylinderBend callback of a child of a deformed parent. *)
Lemma CalculateMatrixCylinderBend_child
      (w : World) (e : Entity) (local_sqt : Sqt) (m : option mat4)
      (d pd : Deformed) (dr : Deformer) :
  deformed_ w !! e = Some d ->
  deformers_ w !! Deformed_deformer d = Some dr ->
  e <> Deformed_deformer d ->
  deformed_ w !! GetParent w e = Some pd ->
  Deformed_deformer pd <> kNullEntity ->
  let chain :=
    mat_mul (deformer_from_entity_undeformed_space pd)
            (CalculateTransformMatrix local_sqt) in
  let w' :=
    with_deformed w
      (<[e := set_deformer_from_entity_undeformed_space d chain]>
         (deformed_ w)) in
  CalculateMatrixCylinderBend e local_sqt m w
  = match GetWorldFromEntityMatrix w (Deformed_deformer d) with
    | Some world_from_deformer =>
        Ok (mat_mul world_from_deformer
              (CalculateCylinderDeformedTransformMatrix_mat
                 chain (radius dr) (clamp_angle dr)))
           w'
    | None => Failed NullDereference
    end.
Proof.
  intros Hd Hdr Hne Hpd Hnull chain w'.
  pose proof (@Prep_from_parent w e local_sqt d pd dr Hd Hne Hpd Hnull)
    as Hprep.
  fold chain in Hprep. fold w' in Hprep.
  unfold CalculateMatrixCylinderBend. run_step.
  rewrite (lookup_deformer_of_Some _ _ Hd), Hdr, (Get_deformed_Some _ _ Hd).
  rewrite Hprep. simpl. rewrite lookup_insert_eq. simpl.
  unfold GetWorldFromEntityMatrix. simpl.
  destruct (ts_world_from_entity (transform_system w) !! Deformed_deformer d);
    reflexivity.
Qed.

(** X7: for a deformed child of a deformed parent, when the transform system
    has a world matrix for the deformer, the CylinderBend callback returns
    deformer-world x CylinderDeform(parent.chain x local, radius,
    clamp_angle), stores parent.chain x local as the entity's chain,
    and logs nothing. *)
Theorem CalculateMatrixCylinderBend_deforms
        (w : World) (e : Entity) (local_sqt : Sqt) (m : option mat4)
        (d pd : Deformed) (dr : Deformer) (world_from_deformer : mat4) :
  deformed_ w !! e = Some d ->
  deformers_ w !! Deformed_deformer d = Some dr ->
  e <> Deformed_deformer d ->
  deformed_ w !! GetParent w e = Some pd ->
  Deformed_deformer pd <> kNullEntity ->
  GetWorldFromEntityMatrix w (Deformed_deformer d)
  = Some world_from_deformer ->
  let chain :=
    mat_mul (deformer_from_entity_undeformed_space pd)
            (CalculateTransformMatrix local_sqt) in
  CalculateMatrixCylinderBend e local_sqt m w
  = Ok (mat_mul world_from_deformer
          (CalculateCylinderDeformedTransformMatrix_mat
             chain (radius dr) (clamp_angle dr)))
       (with_deformed w
          (<[e := set_deformer_from_entity_undeformed_space d chain]>
             (deformed_ w))).
Proof.
  intros Hd Hdr Hne Hpd Hnull Hworld chain.
  rewrite (@CalculateMatrixCylinderBend_child w e local_sqt m d pd dr)
    by assumption.
  by rewrite Hworld.
Qed.

(** X8: the CylinderBend callback reads the deformer's world matrix without
    a null check: for a deformed child of a deformed parent whose deformer
    has no world matrix in the transform system it dereferences a null
    pointer. *)
Theorem CalculateMatrixCylinderBend_missing_world_matrix
        (w : World) (e : Entity) (local_sqt : Sqt) (m : option mat4)
        (d pd : Deformed) (dr : Deformer) :
  deformed_ w !! e = Some d ->
  deformers_ w !! Deformed_deformer d = Some dr ->
  e <> Deformed_deformer d ->
  deformed_ w !! GetParent w e = Some pd ->
  Deformed_deformer pd <> kNullEntity ->
  GetWorldFromEntityMatrix w (Deformed_deformer d) = None ->
  CalculateMatrixCylinderBend e local_sqt m w = Failed NullDereference.
Proof.
  intros Hd Hdr Hne Hpd Hnull Hworld.
  rewrite (@CalculateMatrixCylinderBend_child w e local_sqt m d pd dr)
    by assumption.
  by rewrite Hworld.
Qed.

(** X9: when the deformer has no path registered under the entity's path id,
    the Waypoint callback logs one ERROR and returns the ordinary
    composition parent x local; the entity's chain has nevertheless been
    updated to parent.chain x local. *)
Theorem CalculateWaypointTransformMatrix_missing_path
        (w : World) (e : Entity) (local_sqt : Sqt) (m : option mat4)
        (d pd : Deformed) (dr : Deformer) :
  deformed_ w !! e = Some d ->
  deformers_ w !! Deformed_deformer d = Some dr ->
  e <> Deformed_deformer d ->
  deformed_ w !! GetParent w e = Some pd ->
  Deformed_deformer pd <> kNullEntity ->
  paths dr !! path_id d = None ->
  CalculateWaypointTransformMatrix e local_sqt m w
  = Ok (CalculateTransformMatrixFromParent local_sqt m)
       (MkWorld (deformers_ w)
          (<[e := set_deformer_from_entity_undeformed_space d
                    (mat_mul (deformer_from_entity_undeformed_space pd)
                             (CalculateTransformMatrix local_sqt))]>
             (deformed_ w))
          (transform_system w) (render_system w)
          (log w ++ [(ERROR, "Missing deformation path")])).
Proof.
  intros Hd Hdr Hne Hpd Hnull Hpath.
  pose proof (@Prep_from_parent w e local_sqt d pd dr Hd Hne Hpd Hnull)
    as Hprep.
  unfold CalculateWaypointTransformMatrix. run_step.
  rewrite (lookup_deformer_of_Some _ _ Hd), Hdr, (Get_deformed_Some _ _ Hd).
  rewrite Hprep. simpl. rewrite lookup_insert_eq. simpl.
  rewrite Hpath. reflexivity.
Qed.

Lemma CalculateMatrixCylinderBend_own
      (w : World) (e : Entity) (local_sqt : Sqt) (m : option mat4)
      (d : Deformed) (dr : Deformer) :
  deformed_ w !! e = Some d ->
  deformers_ w !! Deformed_deformer d = Some dr ->
  Deformed_deformer d = e ->
  CalculateMatrixCylinderBend e local_sqt m w
  = Ok (CalculateTransformMatrixFromParent local_sqt m)
       (with_deformed w
          (<[e := set_deformer_from_entity_undeformed_space d mat_identity]>
             (deformed_ w))).
Proof.
  intros Hd Hdr Hself.
  unfold CalculateMatrixCylinderBend. run_step.
  rewrite (lookup_deformer_of_Some _ _ Hd), Hdr, (Get_deformed_Some _ _ Hd).
  rewrite (@Prep_own_deformer w e local_sqt d dr Hd Hself). reflexivity.
Qed.

(** X10: chains compose down the hierarchy when the callbacks run parent
    first.  For a deformer R, its deformed child A and A's deformed child B,
    running the CylinderBend callbacks of R, A and B in this order leaves B
    with the chain (identity x local(A)) x local(B), and B's matrix is
    deformer-world x CylinderDeform of that chain. *)
Theorem CylinderBend_chain_composes
        (w : World) (R A B : Entity) (sR sA sB : Sqt)
        (mR mA mB : option mat4) (dR dA dB : Deformed) (dr : Deformer)
        (world_from_deformer : mat4) :
  R <> kNullEntity -> R <> A -> R <> B -> A <> B ->
  deformed_ w !! R = Some dR -> Deformed_deformer dR = R ->
  deformed_ w !! A = Some dA -> Deformed_deformer dA = R ->
  deformed_ w !! B = Some dB -> Deformed_deformer dB = R ->
  deformers_ w !! R = Some dr ->
  GetParent w A = R -> GetParent w B = A ->
  GetWorldFromEntityMatrix w R = Some world_from_deformer ->
  let chainB :=
    mat_mul (mat_mul mat_identity (CalculateTransformMatrix sA))
            (CalculateTransformMatrix sB) in
  exists w',
    bind (CalculateMatrixCylinderBend R sR mR) (fun _ =>
    bind (CalculateMatrixCylinderBend A sA mA) (fun _ =>
          CalculateMatrixCylinderBend B sB mB)) w
    = Ok (mat_mul world_from_deformer
            (CalculateCylinderDeformedTransformMatrix_mat
               chainB (radius dr) (clamp_angle dr)))
         w'
    /\ deformed_ w' !! B
       = Some (set_deformer_from_entity_undeformed_space dB chainB).
Proof.
  intros HR0 HRA HRB HAB HdR HsR HdA HsA HdB HsB Hdr HpA HpB Hworld chainB.
  unfold bind at 1.
  rewrite (@CalculateMatrixCylinderBend_own w R sR mR dR dr HdR)
    by (by rewrite ?HsR).
  set (w1 := with_deformed w _).
  unfold bind at 1.
  rewrite (@CalculateMatrixCylinderBend_child w1 A sA mA dA
             (set_deformer_from_entity_undeformed_space dR mat_identity) dr).
  2:{ subst w1. simpl. by rewrite lookup_insert_ne. }
  2:{ subst w1. simpl. by rewrite HsA. }
  2:{ rewrite HsA. congruence. }
  2:{ subst w1. unfold GetParent in *. simpl. rewrite HpA.
      by rewrite lookup_insert_eq. }
  2:{ simpl. by rewrite HsR. }
  replace (GetWorldFromEntityMatrix w1 (Deformed_deformer dA))
    with (Some world_from_deformer) by (by rewrite HsA).
  set (w2 := with_deformed w1 _).
  rewrite (@CalculateMatrixCylinderBend_child w2 B sB mB dB
             (set_deformer_from_entity_undeformed_space dA
                (mat_mul mat_identity (CalculateTransformMatrix sA))) dr).
  2:{ subst w2 w1. simpl. by rewrite !lookup_insert_ne. }
  2:{ subst w2 w1. simpl. by rewrite HsB. }
  2:{ rewrite HsB. congruence. }
  2:{ subst w2 w1. unfold GetParent in *. simpl. rewrite HpB.
      by rewrite lookup_insert_eq. }
  2:{ simpl. rewrite HsA. done. }
  replace (GetWorldFromEntityMatrix w2 (Deformed_deformer dB))
    with (Some world_from_deformer) by (by rewrite HsB).
  eexists. split; [reflexivity|]. simpl. by rewrite lookup_insert_eq.
Qed.

(** ** Waypoint path construction *)

(** X11: [BuildWaypointPath] never faults and returns no path exactly when
    the waypoint list is missing or empty, logging one DFATAL.  Otherwise it
    returns a path and logs nothing: the path id is the hash of the authored
    id (of the empty string when the id is missing), the axis is the
    normalized difference of the last and first authored positions, and
    there is one waypoint and one parameter value per authored waypoint, in
    authoring order, the value being the dot product of the authored position
    with the axis. *)
Theorem BuildWaypointPath_outcome (def : WaypointPathDef) (w : World) :
  match def_waypoints def with
  | None | Some [] =>
      BuildWaypointPath def w
      = Ok None
           (with_log w
              (log w ++ [(DFATAL, "Path missing required field waypoints")]))
  | Some (wd :: ws) =>
      let axis := axis_of wd (List.last ws wd) in
      BuildWaypointPath def w
      = Ok (Some (MkWaypointPath (path_id_of_def def) axis
                    (map waypoint_of_def (wd :: ws))
                    (map (fun x => DotProduct (original_position x) axis)
                         (wd :: ws))))
           w
  end.
Proof.
  destruct def as [pid [[|wd ws]|]]; simpl def_waypoints.
  - apply BuildWaypointPath_empty. by right.
  - apply BuildWaypointPath_nonempty.
  - apply BuildWaypointPath_empty. by left.
Qed.

(** ** The mesh mutator *)

(** X12: when the entity's Deformed record resolves to a CylinderBend
    deformer, [DeformMesh] always caches the bounding box of the incoming
    buffer as the entity's undeformed box and logs nothing.  The vertices are
    rewritten, each as entity-from-root x DeformPoint(root-from-entity x
    position, radius), only when the transform system has a world matrix both
    for the entity and for the deformer; if either is missing the buffer is
    returned unchanged. *)
Theorem DeformMesh_cylinder_bend
        (w : World) (e : Entity) (d : Deformed) (dr : Deformer)
        (data : list float) (len stride : nat) :
  deformed_ w !! e = Some d ->
  deformers_ w !! Deformed_deformer d = Some dr ->
  mode dr = DeformMode_CylinderBend ->
  let w' :=
    with_deformed w
      (<[e := set_undeformed_aabb d (GetBoundingBox data len stride)]>
         (deformed_ w)) in
  UndeformedBoundingBox w' e = Some (GetBoundingBox data len stride)
  /\ DeformMesh e data len stride w
     = Ok match GetWorldFromEntityMatrix w e,
                GetWorldFromEntityMatrix w (entity dr) with
          | Some world_from_entity, Some world_from_deformer =>
              let root_from_entity :=
                mat_mul
                  (FromTranslationVector
                     (vec_scale (fneg (radius dr)) kAxisZ3f))
                  (deformer_from_entity_undeformed_space d) in
              let entity_from_root :=
                mat_mul
                  (mat_mul (mat_inverse world_from_entity)
                           world_from_deformer)
                  (FromTranslationVector (vec_scale (radius dr) kAxisZ3f)) in
              ApplyDeformation data len stride
                (fun pos =>
                   mat_mul_vec entity_from_root
                     (DeformPoint (mat_mul_vec root_from_entity pos)
                                  (radius dr)))
          | _, _ => data
          end
          w'.
Proof.
  intros Hd Hdr Hmode w'. split.
  { unfold UndeformedBoundingBox. subst w'. simpl.
    by rewrite lookup_insert_eq. }
  unfold DeformMesh. run_step.
  rewrite (Get_deformed_Some _ _ Hd). simpl.
  rewrite Hd, Hdr. simpl. rewrite Hmode. simpl.
  unfold CylinderBendDeformMesh. run_step.
  unfold GetWorldFromEntityMatrix. simpl.
  destruct (ts_world_from_entity (transform_system w) !! e);
    destruct (ts_world_from_entity (transform_system w) !! entity dr);
    reflexivity.
Qed.

(** X13: when the entity has a Deformed record but its deformer is not in
    the Deformer pool, or is in mode None or GlobalCylinder, [DeformMesh]
    logs one ERROR and returns the buffer unchanged; no bounding box is
    cached.  In particular the mesh of an entity whose record resolves to a
    GlobalCylinder deformer is never wrapped. *)
Theorem DeformMesh_invalid_deformer
        (w : World) (e : Entity) (d : Deformed)
        (data : list float) (len stride : nat) :
  deformed_ w !! e = Some d ->
  match deformers_ w !! Deformed_deformer d with
  | Some dr =>
      mode dr = DeformMode_None \/ mode dr = DeformMode_GlobalCylinder
  | None => True
  end ->
  DeformMesh e data len stride w
  = Ok data
       (with_log w
          (log w ++
           [(ERROR, "Invalid deformer, skipping deformation for entity")])).
Proof.
  intros Hd Hmode. unfold DeformMesh. run_step.
  rewrite (Get_deformed_Some _ _ Hd). simpl. rewrite Hd.
  destruct (deformers_ w !! Deformed_deformer d) as [dr|]; simpl.
  - destruct Hmode as [-> | ->]; reflexivity.
  - reflexivity.
Qed.

(** ** Destruction and the queries *)

(** X14: [Destroy] completes for every entity, with or without records.
    Afterwards the entity has neither a Deformed nor a Deformer record, its
    mesh-deformation function is null, and the queries report it as not
    deformed: [IsSetAsDeformed] and [IsDeformed] are false, the mode is None,
    the radius is 0 and there is no undeformed bounding box.  The Deformer
    records of all other entities and the log are untouched. *)
Theorem Destroy_clears_entity (w : World) (e : Entity) :
  exists w',
    Destroy e w = Ok tt w'
    /\ deformed_ w' !! e = None
    /\ deformers_ w' !! e = None
    /\ deformation_fn w' e = Some None
    /\ IsSetAsDeformed w' e = false
    /\ IsDeformed w' e = false
    /\ GetDeformMode w' e = DeformMode_None
    /\ GetDeformRadius w' e = fzero
    /\ UndeformedBoundingBox w' e = None
    /\ (forall x, x <> e -> deformers_ w' !! x = deformers_ w !! x)
    /\ log w' = log w.
Proof.
  assert (Hpost : forall w1 : World,
             deformers_ w1 = deformers_ w -> log w1 = log w ->
             exists w',
               bind (RenderSystem_SetDeformationFunction e None) (fun _ =>
               bind (modify (fun w =>
                       with_deformers w (delete e (deformers_ w)))) (fun _ =>
                     modify (fun w =>
                       with_deformed w (delete e (deformed_ w))))) w1
               = Ok tt w'
               /\ deformed_ w' !! e = None
               /\ deformers_ w' !! e = None
               /\ deformation_fn w' e = Some None
               /\ IsSetAsDeformed w' e = false
               /\ IsDeformed w' e = false
               /\ GetDeformMode w' e = DeformMode_None
               /\ GetDeformRadius w' e = fzero
               /\ UndeformedBoundingBox w' e = None
               /\ (forall x, x <> e ->
                             deformers_ w' !! x = deformers_ w !! x)
               /\ log w' = log w).
  { intros w1 Hdeformers Hlog. eexists. split; [reflexivity|].
    unfold IsSetAsDeformed, IsDeformed, lookup_deformer_of, GetDeformMode,
      GetDeformRadius, UndeformedBoundingBox, deformation_fn. simpl.
    rewrite !lookup_delete_eq, N.eqb_refl. simpl.
    repeat (split; [reflexivity|]). split; [|exact Hlog].
    intros x Hx. rewrite lookup_delete_ne by done. by rewrite Hdeformers. }
  unfold Destroy. unfold bind at 1. unfold get_world at 1.
  destruct (deformed_ w !! e) as [d|] eqn:Hd.
  - destruct (@SetDeformerRecursive_fuel_enough None w e) as
        (w1 & Hrun & HE & _); [by eexists|].
    rewrite (Get_deformed_Some _ _ Hd). unfold bind at 1. rewrite Hrun.
    apply Hpost; [apply (ext_deformers HE)|apply (ext_log HE)].
  - rewrite (Get_deformed_None _ _ Hd). unfold bind at 1. unfold ret at 1.
    by apply Hpost.
Qed.

(** X15: destroying an entity that has no Deformed record does not reach the
    transform system and leaves the Deformed pool as it was: only the
    entity's Deformer record, if any, is removed and its mesh-deformation
    function set to null. *)
Theorem Destroy_without_deformed (w : World) (e : Entity) :
  deformed_ w !! e = None ->
  Destroy e w
  = Ok tt
       (MkWorld (delete e (deformers_ w)) (deformed_ w) (transform_system w)
          (MkRenderSystem
             ((e, None) :: rs_deformation_fn_calls (render_system w)))
          (log w)).
Proof.
  intros Hd. unfold Destroy. run_step.
  rewrite (Get_deformed_None _ _ Hd). simpl.
  by rewrite (delete_id _ _ Hd).
Qed.

(** X16: the queries agree with each other: an entity that [IsDeformed]
    reports as not deformed has mode None and radius 0, and an entity that
    is not set as deformed has no undeformed bounding box. *)
Theorem queries_of_undeformed (w : World) (e : Entity) :
  (IsDeformed w e = false ->
   GetDeformMode w e = DeformMode_None /\ GetDeformRadius w e = fzero)
  /\ (IsSetAsDeformed w e = false -> UndeformedBoundingBox w e = None).
Proof.
  unfold IsDeformed, IsSetAsDeformed, lookup_deformer_of, GetDeformMode,
    GetDeformRadius, UndeformedBoundingBox.
  destruct (deformed_ w !! e) as [d|]; simpl; [|done].
  destruct (deformers_ w !! Deformed_deformer d); simpl; done.
Qed.

(** ** SetAsDeformed and OnParentChanged *)

(** X17: [SetAsDeformed] on an entity that already has a Deformed record
    only replaces the record's path id by the hash of the given id: the
    deformer, the chain and the box of the record, the matrix and mesh
    functions and the log stay as they were. *)
Theorem SetAsDeformed_existing
        (w : World) (e : Entity) (id : string) (d : Deformed) :
  deformed_ w !! e = Some d ->
  SetAsDeformed e id w
  = Ok tt (with_deformed w (<[e := set_path_id d (Hash id)]> (deformed_ w))).
Proof.
  intros Hd. unfold SetAsDeformed. unfold bind at 1.
  unfold Emplace_deformed. rewrite Hd. cbn [is_null].
  unfold bind, get_world, Get_deformed, deref, ret, read_deformed,
    write_deformed, modify.
  rewrite Hd. cbn [deref]. by rewrite Hd.
Qed.

(** X18: [SetAsDeformed] on an entity without a record whose parent (or the
    null entity, when it has no parent) has no Deformed record creates the
    record with the hashed path id, installs the mesh mutator and does
    nothing else: no deformer is assigned and the transform system is not
    called. *)
Theorem SetAsDeformed_plain_parent
        (w : World) (e : Entity) (id : string) :
  deformed_ w !! e = None ->
  GetParent w e <> e ->
  deformed_ w !! GetParent w e = None ->
  SetAsDeformed e id w
  = Ok tt
       (MkWorld (deformers_ w)
          (<[e := set_path_id Deformed_init (Hash id)]> (deformed_ w))
          (transform_system w)
          (MkRenderSystem
             ((e, Some (DeformMeshFn e))
                :: rs_deformation_fn_calls (render_system w)))
          (log w)).
Proof.
  intros Hd Hself Hparent. unfold SetAsDeformed. unfold bind at 1.
  unfold Emplace_deformed. rewrite Hd. run_step.
  rewrite lookup_insert_eq. simpl.
  unfold Get_deformed, GetParent in *. simpl.
  rewrite lookup_insert_ne by done. rewrite lookup_insert_ne by done.
  rewrite Hparent. simpl. unfold SetDeformationFunction.
  unfold RenderSystem_SetDeformationFunction, modify. simpl.
  by rewrite insert_insert_eq.
Qed.

Lemma SetAsDeformed_fresh_run
      (w : World) (e : Entity) (id : string) (pd : Deformed) :
  deformed_ w !! e = None ->
  deformed_ w !! GetParent w e = Some pd ->
  SetAsDeformed e id w
  = bind (SetDeformerRecursive e (deformers_ w !! Deformed_deformer pd))
         (fun _ => SetDeformationFunction e)
         (with_deformed w
            (<[e := set_path_id Deformed_init (Hash id)]> (deformed_ w))).
Proof.
  intros Hd Hparent.
  assert (Hne : GetParent w e <> e) by congruence.
  unfold SetAsDeformed. unfold bind at 1.
  unfold Emplace_deformed. rewrite Hd. cbn [is_null].
  unfold bind at 1. unfold deref, ret at 1.
  unfold bind at 1. unfold read_deformed at 1. cbn [deformed_ with_deformed].
  rewrite lookup_insert_eq.
  unfold bind at 1. unfold write_deformed, modify.
  cbn [deformed_ with_deformed deformers_ transform_system render_system log].
  rewrite insert_insert_eq.
  unfold bind at 1. unfold get_world at 1.
  unfold bind at 1.
  unfold Get_deformed, GetParent in *.
  cbn [deformed_ with_deformed deformers_ transform_system render_system log].
  rewrite lookup_insert_ne by done. rewrite Hparent. cbn [is_null negb].
  unfold bind at 1. unfold deref, ret at 1.
  unfold bind at 1. unfold read_deformed at 1.
  cbn [deformed_ with_deformed].
  rewrite lookup_insert_ne by done. rewrite Hparent.
  reflexivity.
Qed.

(** X19: [SetAsDeformed] on an entity without a record whose parent has a
    Deformed record makes the entity inherit the parent's effective
    deformer: the new record has the hashed path id and holds the deformer
    the parent's record resolves to (null when it resolves to none), the
    mesh mutator is installed, and when that deformer differs from the one a
    fresh record starts with, the matrix function of its mode is
    installed. *)
Theorem SetAsDeformed_inherits
        (w : World) (e : Entity) (id : string) (pd : Deformed) :
  deformed_ w !! e = None ->
  deformed_ w !! GetParent w e = Some pd ->
  let deformer := deformers_ w !! Deformed_deformer pd in
  exists w' d',
    SetAsDeformed e id w = Ok tt w'
    /\ deformed_ w' !! e = Some d'
    /\ path_id d' = Hash id
    /\ Deformed_deformer d' = deformer_entity_of deformer
    /\ deformation_fn w' e = Some (Some (DeformMeshFn e))
    /\ (Deformed_deformer Deformed_init <> deformer_entity_of deformer ->
        world_from_entity_fn w' e = Some (matrix_fn_for deformer e)).
Proof.
  intros Hd Hparent deformer.
  rewrite (@SetAsDeformed_fresh_run w e id pd Hd Hparent). fold deformer.
  set (w1 := with_deformed w _).
  assert (Hd1 : deformed_ w1 !! e
                = Some (set_path_id Deformed_init (Hash id))).
  { subst w1. simpl. by rewrite lookup_insert_eq. }
  destruct (@SetDeformerRecursive_fuel_enough deformer w1 e) as
      (w2 & Hrun & HE & _ & (d' & Hd' & Ht)); [by eexists|].
  unfold bind. rewrite Hrun.
  eexists. exists d'. split; [reflexivity|].
  cbn [deformed_ with_render_system].
  split; [exact Hd'|].
  assert (Hcase : d' = set_path_id Deformed_init (Hash id)
                  \/ d' = set_deformer (set_path_id Deformed_init (Hash id))
                                       (deformer_entity_of deformer)).
  { destruct (ext_deformed HE e) as [Heq|[(d0 & Hd0 & _ & Hd1') _]].
    - left. congruence.
    - right. congruence. }
  split; [by destruct Hcase as [-> | ->]|]. split; [exact Ht|]. split.
  - unfold deformation_fn. simpl. by rewrite N.eqb_refl.
  - intros Hne.
    destruct (ext_deformed HE e) as [Heq|[_ Hfn]]; [|exact Hfn].
    exfalso. apply Hne. rewrite Heq, Hd1 in Hd'. by injection Hd' as <-.
Qed.

(** X20: a parent-changed event for a target without a Deformed record does
    nothing.  For a target with a record it assigns, through the target's
    subtree, the target's own Deformer when it has one and otherwise the
    deformer the new parent's record resolves to (null when the new parent
    has no record or an unresolved deformer): the target then holds that
    deformer, and so does every entity the assignment spreads to, each with
    the matrix function of its mode. *)
Theorem OnParentChanged_assigns
        (w : World) (target new_parent : Entity) :
  let deformer :=
    match deformers_ w !! target with
    | Some own => Some own
    | None => lookup_deformer_of w new_parent
    end in
  (deformed_ w !! target = None ->
   OnParentChanged target new_parent w = Ok tt w)
  /\ (is_Some (deformed_ w !! target) ->
      exists w',
        OnParentChanged target new_parent w = Ok tt w'
        /\ holds deformer w' target
        /\ forall x, spreads deformer w target x ->
                     holds deformer w' x
                     /\ world_from_entity_fn w' x
                        = Some (matrix_fn_for deformer x)).
Proof.
  intros deformer. split.
  - intros Hd. unfold OnParentChanged. run_step.
    by rewrite (Get_deformed_None _ _ Hd).
  - intros [d Hd].
    assert (Hrun : OnParentChanged target new_parent w
                   = SetDeformerRecursive target deformer w).
    { unfold OnParentChanged. unfold bind at 1. unfold get_world at 1.
      rewrite (Get_deformed_Some _ _ Hd). cbn [is_null negb].
      unfold bind, deref, ret. subst deformer. unfold lookup_deformer_of.
      by destruct (deformers_ w !! target). }
    rewrite Hrun.
    destruct (@SetDeformerRecursive_fuel_enough deformer w target) as
        (w' & Hrun' & HE & Hcl & Hholds); [by eexists|].
    exists w'. split; [exact Hrun'|]. split; [exact Hholds|].
    intros x Hx.
    pose proof (spreads_changed HE Hcl Hholds Hx) as (dx & Hdx & Hne & Hdx').
    split; [by eexists|].
    destruct (ext_deformed HE x) as [Heq|[_ Hfn]]; [|exact Hfn].
    exfalso. rewrite Heq, Hdx in Hdx'. injection Hdx' as Hdx'.
    apply Hne. by rewrite Hdx' at 1.
Qed.

(** ** Creation *)

(** The value [BuildWaypointPath] returns, which does not depend on the
    world. *)
Definition built (pdef : WaypointPathDef) : option WaypointPath :=
  match def_waypoints pdef with
  | Some (wd :: ws) =>
      let axis := axis_of wd (List.last ws wd) in
      Some (MkWaypointPath (path_id_of_def pdef) axis
              (map waypoint_of_def (wd :: ws))
              (map (fun x => DotProduct (original_position x) axis)
                   (wd :: ws)))
  | _ => None
  end.

(** Worlds that differ at most by log entries appended to the second. *)
Definition logged (w w' : World) : Prop :=
  deformers_ w' = deformers_ w
  /\ deformed_ w' = deformed_ w
  /\ transform_system w' = transform_system w
  /\ render_system w' = render_system w
  /\ exists l, log w' = log w ++ l.

Lemma logged_refl (w : World) : logged w w.
Proof. repeat split. exists []. by rewrite app_nil_r. Qed.

Lemma BuildWaypointPath_built (pdef : WaypointPathDef) (w : World) :
  exists w', BuildWaypointPath pdef w = Ok (built pdef) w' /\ logged w w'.
Proof.
  unfold built. destruct pdef as [pid [[|wd ws]|]]; simpl def_waypoints.
  - eexists. split; [apply BuildWaypointPath_empty; by right|].
    repeat split. by eexists.
  - eexists. split; [apply BuildWaypointPath_nonempty|apply logged_refl].
  - eexists. split; [apply BuildWaypointPath_empty; by left|].
    repeat split. by eexists.
Qed.

(** The paths of a deformer after one more authored path: a path that was
    built is registered under its id unless the id is taken. *)
Definition register1 (m : gmap N WaypointPath) (pdef : WaypointPathDef)
  : gmap N WaypointPath :=
  match built pdef with
  | Some b =>
      match m !! wp_path_id b with
      | Some _ => m
      | None => <[wp_path_id b := b]> m
      end
  | None => m
  end.

Definition register (ps : list WaypointPathDef) (m : gmap N WaypointPath)
  : gmap N WaypointPath :=
  fold_left register1 ps m.

Lemma set_paths_id (d : Deformer) : set_paths d (paths d) = d.
Proof. by destruct d. Qed.

Lemma Create_path_step (dp : Entity) (pdef : WaypointPathDef) (w : World)
      (d : Deformer) :
  deformers_ w !! dp = Some d ->
  exists w',
    Create_path dp pdef w = Ok tt w'
    /\ deformers_ w'
       = <[dp := set_paths d (register1 (paths d) pdef)]> (deformers_ w)
    /\ deformed_ w' = deformed_ w
    /\ transform_system w' = transform_system w
    /\ render_system w' = render_system w
    /\ exists l, log w' = log w ++ l.
Proof.
  intros Hd.
  destruct (BuildWaypointPath_built pdef w)
    as (w1 & Hbuild & Hdfr & Hdfd & Hts & Hrs & l & Hlog).
  unfold Create_path, bind. rewrite Hbuild. unfold register1.
  destruct (built pdef) as [b|].
  - unfold paths_emplace, bind, read_deformer. rewrite Hdfr, Hd.
    destruct (paths d !! wp_path_id b) eqn:Hk.
    + unfold ret. simpl. eexists. split; [reflexivity|]. simpl.
      rewrite Hdfr, set_paths_id, (insert_id _ _ _ Hd).
      repeat (split; [done|]). rewrite Hlog, <- app_assoc. by eexists.
    + unfold write_deformer, modify, ret. simpl.
      eexists. split; [reflexivity|]. simpl. rewrite Hdfr.
      repeat (split; [done|]). by eexists.
  - unfold ret. exists w1. split; [reflexivity|].
    rewrite Hdfr, set_paths_id, (insert_id _ _ _ Hd).
    repeat (split; [done|]). by eexists.
Qed.

Lemma Create_path_loop (dp : Entity) (ps : list WaypointPathDef) :
  forall (w : World) (d : Deformer),
    deformers_ w !! dp = Some d ->
    exists w',
      for_each ps (Create_path dp) w = Ok tt w'
      /\ deformers_ w'
         = <[dp := set_paths d (register ps (paths d))]> (deformers_ w)
      /\ deformed_ w' = deformed_ w
      /\ transform_system w' = transform_system w
      /\ render_system w' = render_system w
      /\ exists l, log w' = log w ++ l.
Proof.
  induction ps as [|pdef ps IH]; intros w d Hd.
  - exists w. split; [reflexivity|]. unfold register. simpl.
    rewrite set_paths_id, (insert_id _ _ _ Hd).
    repeat (split; [done|]). exists []. by rewrite app_nil_r.
  - destruct (@Create_path_step dp pdef w d Hd)
      as (w1 & Hstep & Hdfr & Hdfd & Hts & Hrs & l1 & Hlog1).
    destruct (IH w1 (set_paths d (register1 (paths d) pdef)))
      as (w2 & Hloop & Hdfr2 & Hdfd2 & Hts2 & Hrs2 & l2 & Hlog2).
    { rewrite Hdfr. apply lookup_insert_eq. }
    exists w2. simpl. unfold bind. rewrite Hstep.
    split; [exact Hloop|]. split.
    + rewrite Hdfr2, Hdfr, insert_insert_eq. reflexivity.
    + split; [congruence|]. split; [congruence|]. split; [congruence|].
      exists (l1 ++ l2). by rewrite Hlog2, Hlog1, app_assoc.
Qed.

(** Entries are never overwritten. *)
Lemma register_keeps (ps : list WaypointPathDef) :
  forall (m : gmap N WaypointPath) (k : N) (b : WaypointPath),
    m !! k = Some b -> register ps m !! k = Some b.
Proof.
  induction ps as [|pdef ps IH]; intros m k b Hk; [done|].
  unfold register. simpl. apply IH. unfold register1.
  destruct (built pdef) as [b'|]; [|done].
  destruct (m !! wp_path_id b') eqn:Hb'; [done|].
  rewrite lookup_insert_ne; [done|]. congruence.
Qed.

(** Every path that was built has its id registered. *)
Lemma register_built (ps : list WaypointPathDef) :
  forall (m : gmap N WaypointPath) (pdef : WaypointPathDef)
         (b : WaypointPath),
    pdef ∈ ps -> built pdef = Some b ->
    is_Some (register ps m !! wp_path_id b).
Proof.
  induction ps as [|p ps IH]; intros m pdef b Hin Hb.
  - by apply elem_of_nil in Hin.
  - apply elem_of_cons in Hin as [->|Hin]; [|by eapply IH].
    unfold register. simpl. unfold register1 at 2. rewrite Hb.
    destruct (m !! wp_path_id b) as [b0|] eqn:Hk.
    + exists b0. by apply register_keeps.
    + exists b. apply register_keeps. apply lookup_insert_eq.
Qed.

(** Every registered path was there before or was built from the list. *)
Lemma register_origin (ps : list WaypointPathDef) :
  forall (m : gmap N WaypointPath) (k : N) (b : WaypointPath),
    register ps m !! k = Some b ->
    m !! k = Some b
    \/ exists pdef, pdef ∈ ps /\ built pdef = Some b /\ wp_path_id b = k.
Proof.
  induction ps as [|p ps IH]; intros m k b Hk; [by left|].
  unfold register in Hk. simpl in Hk.
  destruct (IH _ _ _ Hk) as [Hm|(pdef & Hin & Hb & Hid)].
  - unfold register1 in Hm. destruct (built p) as [b'|] eqn:Hb'; [|by left].
    destruct (m !! wp_path_id b') eqn:Hb''; [by left|].
    destruct (decide (wp_path_id b' = k)) as [<-|Hne].
    + rewrite lookup_insert_eq in Hm. injection Hm as <-.
      right. exists p. split; [apply list_elem_of_here|done].
    + rewrite lookup_insert_ne in Hm by done. by left.
  - right. exists pdef. split; [by apply list_elem_of_further|done].
Qed.

(** A list without a buildable path registers nothing. *)
Lemma register_none (ps : list WaypointPathDef) (m : gmap N WaypointPath) :
  (forall pdef, pdef ∈ ps -> built pdef = None) -> register ps m = m.
Proof.
  revert m. induction ps as [|p ps IH]; intros m Hnone; [done|].
  unfold register. simpl. unfold register1 at 2.
  rewrite (Hnone p) by apply list_elem_of_here.
  apply IH. intros pdef Hin. by apply Hnone, list_elem_of_further.
Qed.

(** The Deformer record [Create] leaves for a definition. *)
Definition created_paths (dd : DeformerDef) : gmap N WaypointPath :=
  match deform_mode dd, waypoint_paths dd with
  | DeformMode_Waypoint, Some ps => register ps (paths Deformer_init)
  | _, _ => paths Deformer_init
  end.

Definition created_deformer (e : Entity) (dd : DeformerDef) : Deformer :=
  MkDeformer e (horizontal_radius dd) (deform_mode dd) (def_clamp_angle dd)
             (created_paths dd).

(** The definition passes the check that opens [Create]. *)
Definition has_paths_if_waypoint (dd : DeformerDef) : Prop :=
  deform_mode dd = DeformMode_Waypoint ->
  exists p ps, waypoint_paths dd = Some (p :: ps).

Lemma Create_passes_check (dd : DeformerDef) :
  has_paths_if_waypoint dd ->
  bool_decide (deform_mode dd = DeformMode_Waypoint)
  && match waypoint_paths dd with
     | None => true
     | Some ps => length ps <? 1
     end = false.
Proof.
  intros Hvalid. destruct (decide (deform_mode dd = DeformMode_Waypoint))
    as [Hm|Hm].
  - destruct (Hvalid Hm) as (p & ps & ->). by rewrite andb_false_r.
  - by rewrite (bool_decide_eq_false_2 _ Hm).
Qed.

Lemma Create_fresh_run (w : World) (e : Entity) (def : Def) :
  let dd := as_DeformerDef def in
  deformed_ w !! e = None ->
  deformers_ w !! e = None ->
  has_paths_if_waypoint dd ->
  exists w1,
    Create e kDeformerHash def w
    = bind (SetDeformerRecursive e (Some (created_deformer e dd)))
           (fun _ => SetDeformationFunction e) w1
    /\ deformers_ w1 = <[e := created_deformer e dd]> (deformers_ w)
    /\ deformed_ w1 = <[e := Deformed_init]> (deformed_ w)
    /\ transform_system w1 = transform_system w
    /\ render_system w1 = render_system w
    /\ exists l, log w1 = log w ++ l
                 /\ (deform_mode dd <> DeformMode_Waypoint -> l = []).
Proof.
  intros dd Hd Hdr Hvalid.
  unfold Create. rewrite N.eqb_refl. fold dd.
  rewrite (Create_passes_check Hvalid).
  unfold bind at 1. unfold Emplace_deformed. rewrite Hd.
  unfold bind at 1. unfold Emplace_deformer.
  cbn [deformers_ with_deformed]. rewrite Hdr.
  unfold bind at 1. unfold deref, ret at 1.
  unfold bind at 1. unfold read_deformer at 1.
  cbn [deformers_ with_deformers]. rewrite lookup_insert_eq.
  unfold bind at 1. unfold write_deformer, modify.
  cbn [deformers_ with_deformers with_deformed deformed_ transform_system
       render_system log entity paths].
  rewrite insert_insert_eq.
  set (w0 := with_deformers _ _).
  destruct (decide (deform_mode dd = DeformMode_Waypoint)) as [Hm|Hm].
  - destruct (Hvalid Hm) as (p & ps & Hps).
    rewrite (bool_decide_eq_true_2 _ Hm).
    unfold bind at 1. unfold bind at 1. rewrite Hps. unfold deref, ret at 1.
    destruct (@Create_path_loop e (p :: ps) w0
                (MkDeformer e (horizontal_radius dd) (deform_mode dd)
                   (def_clamp_angle dd) (paths Deformer_init)))
      as (w1 & Hloop & Hdfr & Hdfd & Hts & Hrs & l & Hlog).
    { subst w0. simpl. apply lookup_insert_eq. }
    rewrite Hloop. exists w1.
    assert (Hcreated :
              deformers_ w1 = <[e := created_deformer e dd]> (deformers_ w)).
    { rewrite Hdfr. subst w0. simpl. rewrite insert_insert_eq.
      unfold created_deformer, created_paths, set_paths. simpl.
      by rewrite Hm, Hps. }
    split.
    + unfold bind at 1. unfold ret at 1. unfold bind at 1.
      unfold get_world at 1. rewrite Hcreated, lookup_insert_eq.
      reflexivity.
    + split; [exact Hcreated|]. split; [by rewrite Hdfd|].
      split; [by rewrite Hts|]. split; [by rewrite Hrs|].
      exists l. split; [by rewrite Hlog|done].
  - rewrite (bool_decide_eq_false_2 _ Hm).
    exists w0.
    assert (Hcreated :
              deformers_ w0 = <[e := created_deformer e dd]> (deformers_ w)).
    { subst w0. simpl. unfold created_deformer, created_paths.
      by destruct (deform_mode dd). }
    split.
    + unfold bind at 1. unfold ret at 1.
      unfold bind at 1. unfold ret at 1. unfold bind at 1.
      unfold get_world at 1. rewrite Hcreated, lookup_insert_eq.
      reflexivity.
    + split; [exact Hcreated|]. repeat (split; [reflexivity|]).
      exists []. split; [by rewrite app_nil_r|done].
Qed.

Lemma Create_fresh_post (w1 : World) (e : Entity) (dr : Deformer) :
  deformers_ w1 !! e = Some dr ->
  deformed_ w1 !! e = Some Deformed_init ->
  entity dr = e ->
  exists w',
    bind (SetDeformerRecursive e (Some dr))
         (fun _ => SetDeformationFunction e) w1 = Ok tt w'
    /\ deformers_ w' = deformers_ w1
    /\ (exists d', deformed_ w' !! e = Some d' /\ Deformed_deformer d' = e)
    /\ IsDeformed w' e = true
    /\ GetDeformMode w' e = mode dr
    /\ GetDeformRadius w' e = radius dr
    /\ deformation_fn w' e = Some (Some (DeformMeshFn e))
    /\ (Deformed_deformer Deformed_init <> e ->
        world_from_entity_fn w' e = Some (matrix_fn_for (Some dr) e))
    /\ log w' = log w1.
Proof.
  intros Hdr Hd Hentity.
  destruct (@SetDeformerRecursive_fuel_enough (Some dr) w1 e) as
      (w2 & Hrun & HE & _ & (d' & Hd' & Ht)); [by eexists|].
  simpl in Ht. rewrite Hentity in Ht.
  unfold bind. rewrite Hrun. eexists. split; [reflexivity|].
  unfold IsDeformed, lookup_deformer_of, GetDeformMode, GetDeformRadius,
    deformation_fn. simpl.
  rewrite Hd', Ht, (ext_deformers HE), Hdr, N.eqb_refl. simpl.
  split; [done|]. split; [by exists d'|]. repeat (split; [done|]).
  split; [|apply (ext_log HE)].
  intros Hne.
  destruct (ext_deformed HE e) as [Heq|[_ Hfn]]; [|exact Hfn].
  exfalso. apply Hne. rewrite Heq, Hd in Hd'. by injection Hd' as <-.
Qed.

(** X21: a Deformer definition in Waypoint mode whose path list is missing
    or empty is refused: [Create] logs one DFATAL and creates neither record
    nor installs any function. *)
Theorem Create_waypoint_without_paths
        (w : World) (e : Entity) (def : Def) :
  deform_mode (as_DeformerDef def) = DeformMode_Waypoint ->
  waypoint_paths (as_DeformerDef def) = None
  \/ waypoint_paths (as_DeformerDef def) = Some [] ->
  Create e kDeformerHash def w
  = Ok tt
       (with_log w
          (log w ++
           [(DFATAL, "Waypoint deformations must have at least one path")])).
Proof.
  intros Hm Hps. unfold Create. rewrite N.eqb_refl, Hm.
  by destruct Hps as [-> | ->].
Qed.

(** X22: creating a Deformer in a mode other than Waypoint on an entity
    that has neither record gives the entity a Deformer record with the
    definition's mode, radius and clamp angle and a Deformed record whose
    deformer is the entity itself, so the queries report it as deformed with
    that mode and radius; the mesh mutator is installed, nothing is logged,
    the Deformer records of other entities are untouched, and, when a fresh
    Deformed record does not already name the entity as its deformer, the
    matrix function of the mode is installed. *)
Theorem Create_deformer_fresh (w : World) (e : Entity) (def : Def) :
  let dd := as_DeformerDef def in
  let dr :=
    MkDeformer e (horizontal_radius dd) (deform_mode dd) (def_clamp_angle dd)
               (paths Deformer_init) in
  deformed_ w !! e = None ->
  deformers_ w !! e = None ->
  deform_mode dd <> DeformMode_Waypoint ->
  exists w',
    Create e kDeformerHash def w = Ok tt w'
    /\ deformers_ w' !! e = Some dr
    /\ (forall x, x <> e -> deformers_ w' !! x = deformers_ w !! x)
    /\ (exists d', deformed_ w' !! e = Some d' /\ Deformed_deformer d' = e)
    /\ IsDeformed w' e = true
    /\ GetDeformMode w' e = deform_mode dd
    /\ GetDeformRadius w' e = horizontal_radius dd
    /\ deformation_fn w' e = Some (Some (DeformMeshFn e))
    /\ (Deformed_deformer Deformed_init <> e ->
        world_from_entity_fn w' e = Some (matrix_fn_for (Some dr) e))
    /\ log w' = log w.
Proof.
  intros dd dr Hd Hdr Hm.
  destruct (@Create_fresh_run w e def Hd Hdr) as
      (w1 & Hrun & Hdfr & Hdfd & _ & _ & l & Hlog & Hl); [by intros ?|].
  fold dd in Hrun, Hdfr, Hl.
  assert (Hcreated : created_deformer e dd = dr).
  { unfold created_deformer, created_paths. subst dr.
    by destruct (deform_mode dd). }
  rewrite Hcreated in Hrun, Hdfr.
  destruct (@Create_fresh_post w1 e dr) as
      (w' & Hpost & Hdfr' & Hrec & Hdef & Hmode & Hrad & Hmesh & Hfn & Hlog');
    [by rewrite Hdfr, lookup_insert_eq|by rewrite Hdfd, lookup_insert_eq
    |done|].
  exists w'. split; [by rewrite Hrun|].
  split; [by rewrite Hdfr', Hdfr, lookup_insert_eq|]. split.
  { intros x Hx. by rewrite Hdfr', Hdfr, lookup_insert_ne. }
  repeat (split; [done|]).
  by rewrite Hlog', Hlog, (Hl Hm), app_nil_r.
Qed.

(** X23: creating a Deformer in Waypoint mode with at least one authored
    path, on an entity that has neither record, yields a Waypoint deformer
    the entity is deformed by.  Every authored path that
    [BuildWaypointPath] accepts can be looked up in the deformer under its
    path id, and every path registered with the deformer was either there
    in a fresh Deformer or built from one of the authored paths. *)
Theorem Create_waypoint_fresh
        (w : World) (e : Entity) (def : Def)
        (p : WaypointPathDef) (ps : list WaypointPathDef) :
  let dd := as_DeformerDef def in
  deformed_ w !! e = None ->
  deformers_ w !! e = None ->
  deform_mode dd = DeformMode_Waypoint ->
  waypoint_paths dd = Some (p :: ps) ->
  exists w' dr,
    Create e kDeformerHash def w = Ok tt w'
    /\ deformers_ w' !! e = Some dr
    /\ entity dr = e /\ mode dr = DeformMode_Waypoint
    /\ radius dr = horizontal_radius dd
    /\ clamp_angle dr = def_clamp_angle dd
    /\ IsDeformed w' e = true
    /\ (forall pdef b w0 w0',
          pdef ∈ p :: ps ->
          BuildWaypointPath pdef w0 = Ok (Some b) w0' ->
          is_Some (paths dr !! wp_path_id b))
    /\ (forall k b,
          paths dr !! k = Some b ->
          paths Deformer_init !! k = Some b
          \/ exists pdef w0 w0',
               pdef ∈ p :: ps
               /\ BuildWaypointPath pdef w0 = Ok (Some b) w0'
               /\ wp_path_id b = k).
Proof.
  intros dd Hd Hdr Hm Hps.
  destruct (@Create_fresh_run w e def Hd Hdr) as
      (w1 & Hrun & Hdfr & Hdfd & _ & _ & _); [intros _; by eexists _, _|].
  fold dd in Hrun, Hdfr.
  destruct (@Create_fresh_post w1 e (created_deformer e dd)) as
      (w' & Hpost & Hdfr' & _ & Hdef & _);
    [by rewrite Hdfr, lookup_insert_eq|by rewrite Hdfd, lookup_insert_eq
    |done|].
  exists w', (created_deformer e dd). split; [by rewrite Hrun|].
  split; [by rewrite Hdfr', Hdfr, lookup_insert_eq|].
  split; [done|]. split; [done|]. split; [done|]. split; [done|].
  split; [done|].
  unfold created_deformer, created_paths. cbn [paths]. rewrite Hm, Hps.
  split.
  - intros pdef b w0 w0' Hin Hbuild.
    destruct (BuildWaypointPath_built pdef w0) as (w2 & Hb & _).
    rewrite Hb in Hbuild. injection Hbuild as Hbuilt _.
    by eapply register_built.
  - intros k b Hk.
    destruct (register_origin _ _ _ Hk) as [|(pdef & Hin & Hb & Hid)];
      [by left|right].
    destruct (BuildWaypointPath_built pdef w) as (w2 & Hbuild & _).
    exists pdef, w, w2. by rewrite Hbuild, Hb.
Qed.

(** X24: the check that opens [Create] only counts the authored paths.  When
    none of them can be built (each has a missing or empty waypoint list) a
    Deformer in Waypoint mode is created all the same, with exactly the
    paths of a fresh Deformer, and the entity is reported as deformed in
    Waypoint mode. *)
Theorem Create_waypoint_no_valid_path
        (w : World) (e : Entity) (def : Def)
        (p : WaypointPathDef) (ps : list WaypointPathDef) :
  let dd := as_DeformerDef def in
  deformed_ w !! e = None ->
  deformers_ w !! e = None ->
  deform_mode dd = DeformMode_Waypoint ->
  waypoint_paths dd = Some (p :: ps) ->
  (forall pdef, pdef ∈ p :: ps ->
                def_waypoints pdef = None \/ def_waypoints pdef = Some []) ->
  exists w',
    Create e kDeformerHash def w = Ok tt w'
    /\ deformers_ w' !! e
       = Some (MkDeformer e (horizontal_radius dd) DeformMode_Waypoint
                          (def_clamp_angle dd) (paths Deformer_init))
    /\ IsDeformed w' e = true
    /\ GetDeformMode w' e = DeformMode_Waypoint.
Proof.
  intros dd Hd Hdr Hm Hps Hnone.
  destruct (@Create_fresh_run w e def Hd Hdr) as
      (w1 & Hrun & Hdfr & Hdfd & _ & _ & _); [intros _; by eexists _, _|].
  fold dd in Hrun, Hdfr.
  assert (Hcreated :
            created_deformer e dd
            = MkDeformer e (horizontal_radius dd) DeformMode_Waypoint
                         (def_clamp_angle dd) (paths Deformer_init)).
  { unfold created_deformer, created_paths. rewrite Hm, Hps.
    rewrite register_none; [done|].
    intros pdef Hin. unfold built.
    by destruct (Hnone pdef Hin) as [-> | ->]. }
  rewrite Hcreated in Hrun, Hdfr.
  destruct (@Create_fresh_post w1 e
              (MkDeformer e (horizontal_radius dd) DeformMode_Waypoint
                          (def_clamp_angle dd) (paths Deformer_init))) as
      (w' & Hpost & Hdfr' & _ & Hdef & Hmode & _);
    [by rewrite Hdfr, lookup_insert_eq|by rewrite Hdfd, lookup_insert_eq
    |done|].
  exists w'. split; [by rewrite Hrun|].
  split; [by rewrite Hdfr', Hdfr, lookup_insert_eq|]. done.
Qed.

(** X25: [Create] with a Deformer definition (one that passes the opening
    check) on an entity that already has a Deformed or a Deformer record
    reads through the null pointer [Emplace] returns for the existing
    component: through [deformer] when the Deformer exists, otherwise
    through [deformed] inside [SetDeformerRecursive]. *)
Theorem Create_deformer_on_existing
        (w : World) (e : Entity) (def : Def) :
  has_paths_if_waypoint (as_DeformerDef def) ->
  is_Some (deformed_ w !! e) \/ is_Some (deformers_ w !! e) ->
  Create e kDeformerHash def w = Failed NullDereference.
Proof.
  intros Hvalid Hexists.
  unfold Create. rewrite N.eqb_refl, (Create_passes_check Hvalid).
  destruct (deformers_ w !! e) as [dr|] eqn:Hdr.
  - unfold bind at 1. unfold Emplace_deformed.
    destruct (deformed_ w !! e); unfold bind at 1; unfold Emplace_deformer;
      cbn [deformers_ with_deformed]; by rewrite Hdr.
  - destruct Hexists as [[d Hd]|[? ?]]; [|done].
    unfold bind at 1. unfold Emplace_deformed. rewrite Hd.
    unfold bind at 1. unfold Emplace_deformer. rewrite Hdr.
    unfold bind at 1. unfold deref, ret at 1.
    unfold bind at 1. unfold read_deformer at 1.
    cbn [deformers_ with_deformers]. rewrite lookup_insert_eq.
    unfold bind at 1. unfold write_deformer, modify.
    set (w0 := with_deformers _ _).
    unfold bind at 1.
    destruct (decide (deform_mode (as_DeformerDef def) = DeformMode_Waypoint))
      as [Hm|Hm].
    + destruct (Hvalid Hm) as (p & ps & Hps).
      rewrite (bool_decide_eq_true_2 _ Hm), Hps.
      unfold bind at 1. unfold deref, ret at 1.
      destruct (@Create_path_loop e (p :: ps) w0
                  (MkDeformer e (horizontal_radius (as_DeformerDef def))
                     (deform_mode (as_DeformerDef def))
                     (def_clamp_angle (as_DeformerDef def))
                     (paths Deformer_init)))
        as (w1 & Hloop & _).
      { subst w0. simpl. apply lookup_insert_eq. }
      by rewrite Hloop.
    + by rewrite (bool_decide_eq_false_2 _ Hm).
Qed.

(** X26: a GlobalCylinder deformer made by [Create] never wraps its own
    mesh.  [Create] always gives the entity a Deformed record, which sends
    [DeformMesh] to the branch that only accepts CylinderBend and Waypoint:
    the buffer comes back unchanged and one ERROR is logged. *)
Theorem Create_global_cylinder_then_DeformMesh
        (w : World) (e : Entity) (def : Def)
        (data : list float) (len stride : nat) :
  deformed_ w !! e = None ->
  deformers_ w !! e = None ->
  deform_mode (as_DeformerDef def) = DeformMode_GlobalCylinder ->
  exists w',
    Create e kDeformerHash def w = Ok tt w'
    /\ DeformMesh e data len stride w'
       = Ok data
            (with_log w'
               (log w ++
                [(ERROR,
                  "Invalid deformer, skipping deformation for entity")])).
Proof.
  intros Hd Hdr Hm.
  destruct (@Create_fresh_run w e def Hd Hdr) as
      (w1 & Hrun & Hdfr & Hdfd & _ & _ & l & Hlog & Hl);
    [intros H; congruence|].
  destruct (@Create_fresh_post w1 e (created_deformer e (as_DeformerDef def)))
    as (w' & Hpost & Hdfr' & (d' & Hd' & Hself) & _ & _ & _ & _ & _ & Hlog');
    [by rewrite Hdfr, lookup_insert_eq|by rewrite Hdfd, lookup_insert_eq
    |done|].
  exists w'. split; [by rewrite Hrun|].
  unfold DeformMesh. run_step.
  rewrite (Get_deformed_Some _ _ Hd'). simpl.
  rewrite Hd', Hself, Hdfr', Hdfr, lookup_insert_eq. simpl.
  rewrite Hm. simpl.
  rewrite Hlog', Hlog, Hl, app_nil_r by congruence. reflexivity.
Qed.

(** X27: the chain preparation, called as the callbacks call it, never
    faults and never touches anything but the log and the cached chain of
    the entity it is called for: the Deformer pool, the transform and render
    systems and the records of all other entities (the parent's included)
    are as before, the entity's own record keeps its deformer, path id and
    bounding box, and a successful preparation logs nothing. *)
Theorem Prep_frame (w : World) (e : Entity) (local_sqt : Sqt) :
  exists (ok : bool) (w' : World),
    PrepDeformerFromEntityUndeformedSpace e local_sqt
      (lookup_deformer_of w e) (Get_deformed w e) w = Ok ok w'
    /\ deformers_ w' = deformers_ w
    /\ transform_system w' = transform_system w
    /\ render_system w' = render_system w
    /\ (forall x, x <> e -> deformed_ w' !! x = deformed_ w !! x)
    /\ match deformed_ w !! e, deformed_ w' !! e with
       | Some d, Some d' =>
           Deformed_deformer d' = Deformed_deformer d
           /\ path_id d' = path_id d
           /\ undeformed_aabb d' = undeformed_aabb d
       | None, None => True
       | _, _ => False
       end
    /\ (ok = true -> log w' = log w).
Proof.
  destruct (deformed_ w !! e) as [d|] eqn:Hd.
  2:{ rewrite (Get_deformed_None _ _ Hd).
      eexists _, _. split; [reflexivity|]. simpl. rewrite Hd.
      repeat (split; [done|]). done. }
  rewrite (lookup_deformer_of_Some _ _ Hd), (Get_deformed_Some _ _ Hd).
  destruct (deformers_ w !! Deformed_deformer d) as [dr|] eqn:Hdr.
  2:{ eexists _, _. split; [reflexivity|]. simpl. rewrite Hd.
      repeat (split; [done|]). done. }
  destruct (decide (Deformed_deformer d = e)) as [Hself|Hne].
  { rewrite (@Prep_own_deformer w e local_sqt d dr Hd Hself).
    eexists _, _. split; [reflexivity|]. simpl. rewrite lookup_insert_eq.
    repeat (split; [done|]). split; [|done].
    intros x Hx. by rewrite lookup_insert_ne. }
  assert (Hne' : e <> Deformed_deformer d) by congruence.
  destruct (deformed_ w !! GetParent w e) as [pd|] eqn:Hpd.
  - destruct (decide (Deformed_deformer pd = kNullEntity)) as [Hnull|Hnull].
    + rewrite (@Prep_broken_parent w e local_sqt d dr Hd Hne')
        by (by rewrite Hpd).
      eexists _, _. split; [reflexivity|]. simpl. rewrite Hd.
      repeat (split; [done|]). done.
    + rewrite (@Prep_from_parent w e local_sqt d pd dr Hd Hne' Hpd Hnull).
      eexists _, _. split; [reflexivity|]. simpl. rewrite lookup_insert_eq.
      repeat (split; [done|]). split; [|done].
      intros x Hx. by rewrite lookup_insert_ne.
  - rewrite (@Prep_broken_parent w e local_sqt d dr Hd Hne')
      by (by rewrite Hpd).
    eexists _, _. split; [reflexivity|]. simpl. rewrite Hd.
    repeat (split; [done|]). done.
Qed.


(** ** No legacy deformers *)

(** Every Deformer record comes with a Deformed record of the same entity,
    and the mesh mutator held for an entity is the one that deforms that
    entity, which has a Deformed record. *)
Definition paired (w : World) : Prop :=
  (forall e, is_Some (deformers_ w !! e) -> is_Some (deformed_ w !! e))
  /\ (forall e fn,
         deformation_fn w e = Some (Some fn) ->
         fn = DeformMeshFn e /\ is_Some (deformed_ w !! e)).

(** A step that adds no Deformer record, removes no Deformed record and
    makes no call to the render system. *)
Definition keeps_records (w w' : World) : Prop :=
  (forall e, is_Some (deformers_ w' !! e) -> is_Some (deformers_ w !! e))
  /\ (forall e, is_Some (deformed_ w !! e) -> is_Some (deformed_ w' !! e))
  /\ render_system w' = render_system w.

Lemma keeps_records_refl (w : World) : keeps_records w w.
Proof. by repeat split. Qed.

Lemma keeps_records_trans (w1 w2 w3 : World) :
  keeps_records w1 w2 -> keeps_records w2 w3 -> keeps_records w1 w3.
Proof.
  intros (Ha & Hb & Hc) (Ha' & Hb' & Hc').
  split; [|split]; [by auto|by auto|congruence].
Qed.

Lemma keeps_records_log (w : World) (l : list LogEntry) :
  keeps_records w (with_log w l).
Proof. by repeat split. Qed.

Lemma keeps_records_write (w : World) (e : Entity) (d : Deformed) :
  keeps_records w (with_deformed w (<[e := d]> (deformed_ w))).
Proof.
  split; [done|]. split; [|done].
  intros x Hx. simpl. rewrite lookup_insert_is_Some. 
  destruct (decide (e = x)); [by left|by right].
Qed.

Lemma paired_keeps_records (w w' : World) :
  paired w -> keeps_records w w' -> paired w'.
Proof.
  intros [Hdeformer Hmesh] (Ha & Hb & Hc). split.
  - intros e He. by apply Hb, Hdeformer, Ha.
  - intros e fn Hfn. unfold deformation_fn in *. rewrite Hc in Hfn.
    destruct (Hmesh e fn Hfn) as [-> He]. split; [done|]. by apply Hb.
Qed.

Lemma Ext_keeps_records (deformer : option Deformer) (w w' : World) :
  Ext deformer w w' -> keeps_records w w'.
Proof.
  intros HE. split; [by rewrite (ext_deformers HE)|].
  split; [|apply (ext_render HE)].
  intros x Hx.
  destruct (ext_deformed HE x) as [->|[(d & _ & _ & ->) _]]; [done|].
  by eexists.
Qed.

Lemma SetDeformerRecursive_keeps_records
      (p : Entity) (deformer : option Deformer) (w w' : World) (u : unit) :
  SetDeformerRecursive p deformer w = Ok u w' -> keeps_records w w'.
Proof.
  destruct u. unfold SetDeformerRecursive. intros Hrun.
  apply SetDeformerRecursive_fuel_run in Hrun as (_ & HE & _).
  by apply Ext_keeps_records with (deformer := deformer).
Qed.

(** Installing the mesh mutator of an entity that has a Deformed record. *)
Lemma paired_install (w : World) (e : Entity) :
  paired w ->
  is_Some (deformed_ w !! e) ->
  paired (with_render_system w
            (MkRenderSystem
               ((e, Some (DeformMeshFn e))
                  :: rs_deformation_fn_calls (render_system w)))).
Proof.
  intros [Hdeformer Hmesh] He. split; [exact Hdeformer|].
  intros x fn. unfold deformation_fn. simpl.
  destruct (N.eqb_spec e x) as [->|Hne].
  - intros [= <-]. done.
  - apply Hmesh.
Qed.

Lemma OnParentChanged_keeps_records
      (target new_parent : Entity) (w w' : World) (u : unit) :
  OnParentChanged target new_parent w = Ok u w' -> keeps_records w w'.
Proof.
  unfold OnParentChanged. unfold bind at 1. unfold get_world at 1.
  destruct (Get_deformed w target) as [p|]; cbn [is_null negb].
  - unfold bind at 1. unfold deref, ret at 1.
    apply SetDeformerRecursive_keeps_records.
  - intros [= _ <-]. apply keeps_records_refl.
Qed.

Lemma Destroy_paired (e : Entity) (w w' : World) (u : unit) :
  paired w -> Destroy e w = Ok u w' -> paired w'.
Proof.
  intros Hw. unfold Destroy. unfold bind at 1. unfold get_world at 1.
  unfold bind at 1.
  assert (Hstep : exists w1,
             keeps_records w w1
             /\ match Get_deformed w e with
                | Some deformed => SetDeformerRecursive deformed None
                | None => ret tt
                end w = Ok tt w1
             \/ exists f,
                match Get_deformed w e with
                | Some deformed => SetDeformerRecursive deformed None
                | None => ret tt
                end w = Failed f).
  { destruct (Get_deformed w e) as [p|].
    - destruct (SetDeformerRecursive p None w) as [[] w1|f] eqn:Hrun.
      + exists w1. left. split; [|done].
        by apply SetDeformerRecursive_keeps_records in Hrun.
      + exists w. right. by exists f.
    - exists w. left. split; [apply keeps_records_refl|done]. }
  destruct Hstep as (w1 & [[Hkeeps ->]|[f ->]]); [|done].
  unfold RenderSystem_SetDeformationFunction, bind, modify. simpl.
  intros [= _ <-].
  destruct (paired_keeps_records Hw Hkeeps) as [Hdeformer Hmesh].
  split.
  - simpl. intros x Hx. apply lookup_delete_is_Some in Hx as [Hne Hx].
    apply lookup_delete_is_Some. split; [done|]. by apply Hdeformer.
  - intros x fn. unfold deformation_fn. simpl.
    destruct (N.eqb_spec e x) as [->|Hne]; [done|].
    intros Hfn. destruct (Hmesh x fn Hfn) as [-> Hx]. split; [done|].
    apply lookup_delete_is_Some. done.
Qed.

Lemma SetAsDeformed_paired
      (e : Entity) (id : string) (w w' : World) (u : unit) :
  paired w -> SetAsDeformed e id w = Ok u w' -> paired w'.
Proof.
  intros Hw. unfold SetAsDeformed. unfold bind at 1. unfold Emplace_deformed.
  destruct (deformed_ w !! e) as [d|] eqn:Hd; cbn [is_null].
  - unfold bind at 1. unfold get_world at 1.
    rewrite (Get_deformed_Some _ _ Hd). run_step. rewrite Hd.
    intros [= _ <-].
    apply (paired_keeps_records Hw), keeps_records_write.
  - unfold bind at 1. unfold deref, ret at 1.
    unfold bind at 1. unfold read_deformed at 1.
    cbn [deformed_ with_deformed]. rewrite lookup_insert_eq.
    unfold bind at 1. unfold write_deformed, modify.
    cbn [deformed_ with_deformed deformers_ transform_system render_system
         log].
    rewrite insert_insert_eq.
    set (w1 := with_deformed _ _).
    assert (Hk1 : keeps_records w w1)
      by exact (keeps_records_write w e
                  (set_path_id Deformed_init (Hash id))).
    assert (He : is_Some (deformed_ w1 !! e)).
    { subst w1. simpl. rewrite lookup_insert_eq. by eexists. }
    unfold bind at 1. unfold get_world at 1. unfold bind at 1.
    destruct (Get_deformed w1 (GetParent w1 e)) as [pp|];
      cbn [is_null negb].
    + unfold bind at 1. unfold deref, ret at 1.
      unfold bind at 1. unfold read_deformed at 1.
      destruct (deformed_ w1 !! pp) as [pd|]; [|done].
      destruct (SetDeformerRecursive e _ w1) as [[] w2|f] eqn:Hrun;
        [|done].
      apply SetDeformerRecursive_keeps_records in Hrun.
      unfold SetDeformationFunction, RenderSystem_SetDeformationFunction,
        modify.
      intros [= _ <-]. apply paired_install.
      * apply (paired_keeps_records Hw).
        by apply keeps_records_trans with (w2 := w1).
      * by apply Hrun.
    + unfold ret at 1.
      unfold SetDeformationFunction, RenderSystem_SetDeformationFunction,
        modify.
      intros [= _ <-]. apply (@paired_install w1 e); [|done].
      by apply (paired_keeps_records Hw).
Qed.

(** The loop of [Create] over the authored paths writes only into the
    Deformer record it is run for. *)
Lemma Create_paths_run (dd : DeformerDef) (dp : Entity) (w : World)
      (d : Deformer) :
  deformers_ w !! dp = Some d ->
  (exists f,
      (if bool_decide (deform_mode dd = DeformMode_Waypoint)
       then bind (deref (waypoint_paths dd))
                 (fun ps => for_each ps (Create_path dp))
       else ret tt) w = Failed f)
  \/ exists w1 d1,
       (if bool_decide (deform_mode dd = DeformMode_Waypoint)
        then bind (deref (waypoint_paths dd))
                  (fun ps => for_each ps (Create_path dp))
        else ret tt) w = Ok tt w1
       /\ deformers_ w1 = <[dp := d1]> (deformers_ w)
       /\ deformed_ w1 = deformed_ w
       /\ render_system w1 = render_system w.
Proof.
  intros Hd. destruct (bool_decide _).
  - destruct (waypoint_paths dd) as [ps|].
    + destruct (@Create_path_loop dp ps w d Hd)
        as (w1 & Hloop & Hdfr & Hdfd & _ & Hrs & _).
      right. exists w1. eexists. unfold bind, deref, ret.
      split; [exact Hloop|]. split; [exact Hdfr|]. done.
    + left. by eexists.
  - right. exists w, d. split; [done|].
    by rewrite (insert_id _ _ _ Hd).
Qed.

Lemma Create_paired
      (e : Entity) (type : HashValue) (def : Def) (w w' : World) (u : unit) :
  paired w -> Create e type def w = Ok u w' -> paired w'.
Proof.
  intros Hw. unfold Create.
  destruct (type =? kDeformerHash)%N.
  2:{ destruct (type =? kDeformedHash)%N.
      - by apply SetAsDeformed_paired.
      - unfold LOG, modify. intros [= _ <-].
        apply (paired_keeps_records Hw), keeps_records_log. }
  destruct (bool_decide _ && _).
  { unfold LOG, modify. intros [= _ <-].
    apply (paired_keeps_records Hw), keeps_records_log. }
  unfold bind at 1. unfold Emplace_deformed.
  destruct (deformed_ w !! e) as [d|] eqn:Hd.
  - (* the entity has a Deformed record: the run does not complete *)
    unfold bind at 1. unfold Emplace_deformer.
    destruct (deformers_ w !! e) as [dr|] eqn:Hdr; [done|].
    unfold bind at 1. unfold deref at 1. unfold ret at 1.
    unfold bind at 1. unfold read_deformer at 1.
    cbn [deformers_ with_deformers]. rewrite lookup_insert_eq.
    unfold bind at 1. unfold write_deformer, modify.
    set (w0 := with_deformers _ _).
    unfold bind at 1.
    destruct (@Create_paths_run (as_DeformerDef def) e w0
                (MkDeformer e (horizontal_radius (as_DeformerDef def))
                   (deform_mode (as_DeformerDef def))
                   (def_clamp_angle (as_DeformerDef def))
                   (paths Deformer_init)))
      as [[f ->]|(w1 & d1 & -> & _)]; [|done|done].
    subst w0. simpl. apply lookup_insert_eq.
  - unfold bind at 1. unfold Emplace_deformer.
    cbn [deformers_ with_deformed].
    destruct (deformers_ w !! e) as [dr|] eqn:Hdr; [done|].
    unfold bind at 1. unfold deref at 1. unfold ret at 1.
    unfold bind at 1. unfold read_deformer at 1.
    cbn [deformers_ with_deformers]. rewrite lookup_insert_eq.
    unfold bind at 1. unfold write_deformer, modify.
    set (w0 := with_deformers _ _).
    set (d0 := MkDeformer e (horizontal_radius (as_DeformerDef def))
                 (deform_mode (as_DeformerDef def))
                 (def_clamp_angle (as_DeformerDef def))
                 (paths Deformer_init)).
    assert (Hdfr0 : deformers_ w0 = <[e := d0]> (deformers_ w)).
    { subst w0 d0. simpl. by rewrite insert_insert_eq. }
    assert (Hdfd0 : deformed_ w0 = <[e := Deformed_init]> (deformed_ w))
      by done.
    assert (Hrs0 : render_system w0 = render_system w) by done.
    clearbody w0.
    unfold bind at 1.
    destruct (@Create_paths_run (as_DeformerDef def) e w0 d0)
      as [[f ->]|(w1 & d1 & -> & Hdfr & Hdfd & Hrs)]; [|done|].
    { rewrite Hdfr0. apply lookup_insert_eq. }
    rewrite Hdfr0, insert_insert_eq in Hdfr. rewrite Hdfd0 in Hdfd.
    rewrite Hrs0 in Hrs.
    unfold bind at 1. unfold deref, ret at 1.
    unfold bind at 1. unfold get_world at 1. unfold bind at 1.
    destruct (SetDeformerRecursive e _ w1) as [[] w2|f] eqn:Hrun; [|done].
    apply SetDeformerRecursive_keeps_records in Hrun.
    unfold SetDeformationFunction, RenderSystem_SetDeformationFunction,
      modify.
    intros [= _ <-].
    assert (Hw1 : paired w1).
    { destruct Hw as [Hdeformer Hmesh]. split.
      - intros x. rewrite Hdfr, Hdfd, !lookup_insert_is_Some.
        intros [->|[Hne Hx]]; [by left|]. right. split; [done|].
        by apply Hdeformer.
      - intros x fn. unfold deformation_fn. rewrite Hrs, Hdfd.
        intros Hfn. destruct (Hmesh x fn Hfn) as [-> Hx].
        split; [done|]. rewrite lookup_insert_is_Some.
        destruct (decide (e = x)); [by left|by right]. }
    apply paired_install.
    + by apply (paired_keeps_records Hw1).
    + apply Hrun. rewrite Hdfd, lookup_insert_eq. by eexists.
Qed.

(** Case analysis of a completed run. *)
Ltac run_cases :=
  repeat first [ case_match
               | progress (unfold ret, fail in *)
               | progress simplify_eq ].

(** The matrix callbacks and the mesh mutator write only into records that
    exist. *)
Lemma Prep_keeps_records
      (e : Entity) (local_sqt : Sqt) (deformer : option Deformer)
      (deformed : option Entity) (w w' : World) (ok : bool) :
  PrepDeformerFromEntityUndeformedSpace e local_sqt deformer deformed w
  = Ok ok w' ->
  keeps_records w w'.
Proof.
  unfold PrepDeformerFromEntityUndeformedSpace. run_step. intros Hrun.
  run_cases;
    first [ apply keeps_records_refl
          | apply keeps_records_log
          | apply keeps_records_write ].
Qed.

Lemma SampleWaypointPath_world
      (path : WaypointPath) (chain : mat4) (w w' : World)
      (s : WaypointSample) :
  SampleWaypointPath path chain w = Ok s w' -> w' = w.
Proof.
  unfold SampleWaypointPath.
  destruct (FindPositionBetweenPoints _ _) as [[i j] fraction].
  run_step. intros Hrun. by run_cases.
Qed.

Lemma CalculateMatrixCylinderBend_keeps_records
      (e : Entity) (local_sqt : Sqt) (m : option mat4) (w w' : World)
      (r : mat4) :
  CalculateMatrixCylinderBend e local_sqt m w = Ok r w' ->
  keeps_records w w'.
Proof.
  unfold CalculateMatrixCylinderBend.
  unfold bind at 1. unfold get_world at 1. unfold bind at 1.
  destruct (PrepDeformerFromEntityUndeformedSpace _ _ _ _ w)
    as [ok w1|f] eqn:Hprep; [|done].
  apply Prep_keeps_records in Hprep.
  destruct ok; cbn [negb]; run_step; intros Hrun;
    by run_cases.
Qed.

Lemma CalculateWaypointTransformMatrix_keeps_records
      (e : Entity) (local_sqt : Sqt) (m : option mat4) (w w' : World)
      (r : mat4) :
  CalculateWaypointTransformMatrix e local_sqt m w = Ok r w' ->
  keeps_records w w'.
Proof.
  unfold CalculateWaypointTransformMatrix.
  unfold bind at 1. unfold get_world at 1. unfold bind at 1.
  destruct (PrepDeformerFromEntityUndeformedSpace _ _ _ _ w)
    as [ok w1|f] eqn:Hprep; [|done].
  apply Prep_keeps_records in Hprep.
  destruct ok; cbn [negb]; [|by intros [= _ <-]].
  unfold bind at 1. destruct (deref _ w1) as [p w2|] eqn:Hp; [|done].
  unfold deref, ret, fail in Hp.
  destruct (Get_deformed w e); [|done]. injection Hp as -> <-.
  unfold bind at 1. unfold read_deformed at 1.
  destruct (deformed_ w1 !! p) as [d|]; [|done].
  unfold bind at 1. unfold deref at 1.
  destruct (lookup_deformer_of w e) as [dr|]; [|done]. unfold ret at 1.
  destruct (paths dr !! path_id d) as [path|].
  - unfold bind at 1.
    destruct (SampleWaypointPath path _ w1) as [s w2|f] eqn:Hs; [|done].
    apply SampleWaypointPath_world in Hs as ->.
    run_step. intros Hrun. by run_cases.
  - run_step. intros [= _ <-].
    apply (keeps_records_trans Hprep). exact (keeps_records_log w1 _).
Qed.

Lemma DeformMesh_keeps_records
      (e : Entity) (data data' : list float) (len stride : nat)
      (w w' : World) :
  DeformMesh e data len stride w = Ok data' w' -> keeps_records w w'.
Proof.
  unfold DeformMesh, CylinderBendDeformMesh. run_step. intros Hrun.
  run_cases;
    first [ apply keeps_records_refl
          | apply keeps_records_log
          | apply keeps_records_write ].
Qed.

(** With a Deformed record, the mesh mutator takes the nominal branch and
    completes. *)
Lemma DeformMesh_nominal
      (e : Entity) (d : Deformed) (data : list float) (len stride : nat)
      (w : World) :
  deformed_ w !! e = Some d ->
  exists data' w', DeformMesh e data len stride w = Ok data' w'.
Proof.
  intros Hd. unfold DeformMesh, CylinderBendDeformMesh. run_step.
  rewrite (Get_deformed_Some _ _ Hd). simpl. rewrite Hd.
  run_cases; eauto.
Qed.

(** The other branch of [DeformMesh], for an entity without a Deformed
    record.  Its guard is
    [deformer != nullptr || deformer->mode != DeformMode_GlobalCylinder]:
    with a Deformer record of any mode the buffer is returned as it was and
    one ERROR is logged, and without one [deformer->mode] is read through
    the null pointer.  In a [paired] world no installed mutator comes
    here. *)
Lemma DeformMesh_without_record
      (w : World) (e : Entity) (data : list float) (len stride : nat) :
  deformed_ w !! e = None ->
  DeformMesh e data len stride w
  = match deformers_ w !! e with
    | Some _ =>
        Ok data
           (with_log w
              (log w ++
               [(ERROR, "Invalid deformer, skipping deformation for entity")]))
    | None => Failed NullDereference
    end.
Proof.
  intros Hd. unfold DeformMesh. run_step.
  rewrite (Get_deformed_None _ _ Hd). simpl.
  by destruct (deformers_ w !! e).
Qed.

(** The system starts paired: no records, no mutators. *)
Lemma paired_initial (t : TransformSystem) (l : list LogEntry) :
  paired (MkWorld ∅ ∅ t (MkRenderSystem []) l).
Proof.
  split.
  - intros e. simpl. rewrite lookup_empty. by intros [? ?].
  - intros e fn. by unfold deformation_fn.
Qed.

(** X28: the legacy branch of the mesh mutator is never reached.  Call a
    world paired when every entity with a Deformer record has a Deformed
    record and every entity that holds a mesh mutator holds its own and has
    a Deformed record.  Every operation of the system that completes on a
    paired world leaves it paired: [Create], [SetAsDeformed], [Destroy],
    [OnParentChanged], the three matrix functions and the mesh mutator
    itself.  In a paired world the mutator held for an entity finds a
    Deformed record, so it takes the first branch of [DeformMesh], and it
    completes. *)
Theorem legacy_branch_unreachable (w : World) :
  paired w ->
  (forall e type def w', Create e type def w = Ok tt w' -> paired w')
  /\ (forall e id w', SetAsDeformed e id w = Ok tt w' -> paired w')
  /\ (forall e w', Destroy e w = Ok tt w' -> paired w')
  /\ (forall target new_parent w',
         OnParentChanged target new_parent w = Ok tt w' -> paired w')
  /\ (forall fn local_sqt m r w',
         call_world_from_entity_fn fn local_sqt m w = Ok r w' -> paired w')
  /\ (forall e data len stride data' w',
         DeformMesh e data len stride w = Ok data' w' -> paired w')
  /\ (forall e fn data len stride,
         deformation_fn w e = Some (Some fn) ->
         fn = DeformMeshFn e
         /\ is_Some (deformed_ w !! e)
         /\ exists data' w', DeformMesh e data len stride w = Ok data' w').
Proof.
  intros Hw.
  split; [intros e type def w'; by apply Create_paired|].
  split; [intros e id w'; by apply SetAsDeformed_paired|].
  split; [intros e w'; by apply Destroy_paired|].
  split.
  { intros target new_parent w' Hrun.
    apply OnParentChanged_keeps_records in Hrun.
    by apply (paired_keeps_records Hw). }
  split.
  { intros fn local_sqt m r w' Hrun. apply (paired_keeps_records Hw).
    destruct fn as [x radius|x|x]; cbn [call_world_from_entity_fn] in Hrun.
    - injection Hrun as _ <-. apply keeps_records_refl.
    - by apply CalculateMatrixCylinderBend_keeps_records in Hrun.
    - by apply CalculateWaypointTransformMatrix_keeps_records in Hrun. }
  split.
  { intros e data len stride data' w' Hrun.
    apply DeformMesh_keeps_records in Hrun.
    by apply (paired_keeps_records Hw). }
  intros e fn data len stride Hfn.
  destruct Hw as [_ Hmesh]. destruct (Hmesh e fn Hfn) as [-> [d Hd]].
  split; [done|]. split; [by exists d|].
  by apply DeformMesh_nominal with (d := d).
Qed.

End Properties.

(** * Concrete runs *)

Section Examples.
Import F32.

Definition f (z : Z) : spec_float := F32.of_Z z.

Definition flat_sqt (x : Z) : Sqt :=
  MkSqt (f x, f 0, f 0) QIdentity (f 1, f 1, f 1).

Definition empty_world : World :=
  MkWorld ∅ ∅ (MkTransformSystem ∅ ∅ ∅ []) (MkRenderSystem []) [].

(** Entity 1 is a CylinderBend deformer of radius 2 and its own deformer,
    entity 2 is its child and is deformed by it. *)
Definition bend_deformer : Deformer :=
  MkDeformer 1%N (f 2) DeformMode_CylinderBend (f 1) ∅.

Definition bend_root : Deformed := MkDeformed 1%N 0%N MIdentity None.
Definition bend_child : Deformed := MkDeformed 1%N 0%N MIdentity None.

Definition bend_world : World :=
  MkWorld {[ 1%N := bend_deformer ]}
          {[ 1%N := bend_root; 2%N := bend_child ]}
          (MkTransformSystem
             {[ 2%N := 1%N ]}
             {[ 1%N := [2%N] ]}
             {[ 1%N := MTranslation (f 0, f 0, f (-2));
                2%N := MTranslation (f 0, f 0, f (-2)) ]}
             [(2%N, Some (CylinderBendFn 2)); (1%N, Some (CylinderBendFn 1))])
          (MkRenderSystem
             [(2%N, Some (DeformMeshFn 2)); (1%N, Some (DeformMeshFn 1))])
          [].

(** Entity 1 carries a Deformed record that holds no deformer, as a root
    made deformed by [SetAsDeformed] does; its child 2 is a CylinderBend
    deformer, hence its own deformer, with its matrix function installed. *)
Definition plain_root : Deformed := MkDeformed kNullEntity 0%N MIdentity None.
Definition own_child : Deformed := MkDeformed 2%N 0%N MIdentity None.

Definition nested_world : World :=
  MkWorld {[ 2%N := MkDeformer 2%N (f 2) DeformMode_CylinderBend (f 1) ∅ ]}
          {[ 1%N := plain_root; 2%N := own_child ]}
          (MkTransformSystem
             {[ 2%N := 1%N ]}
             {[ 1%N := [2%N] ]}
             {[ 1%N := MIdentity; 2%N := MIdentity ]}
             [(2%N, Some (CylinderBendFn 2))])
          (MkRenderSystem
             [(2%N, Some (DeformMeshFn 2)); (1%N, Some (DeformMeshFn 1))])
          [].

(** A waypoint path with parameter values 0, 10, 20 along the x axis. *)
Definition three_waypoints : list Waypoint :=
  [MkWaypoint (f 0, f 0, f 0) (f 0, f 0, f 0);
   MkWaypoint (f 1, f 0, f 0) (f 0, f 0, f 0);
   MkWaypoint (f 3, f 0, f 0) (f 0, f 0, f 0)].

Definition three_point_path : WaypointPath :=
  MkWaypointPath (hash "path") (f 1, f 0, f 0) three_waypoints
                 [f 0; f 10; f 20].

Definition path_deformer : Deformer :=
  MkDeformer 1%N (f 2) DeformMode_Waypoint (f 1)
             {[ hash "path" := three_point_path ]}.

Definition path_child : Deformed :=
  MkDeformed 1%N (hash "path") MIdentity None.

Definition path_world : World :=
  MkWorld {[ 1%N := path_deformer ]}
          {[ 1%N := MkDeformed 1%N 0%N MIdentity None; 2%N := path_child ]}
          (MkTransformSystem
             {[ 2%N := 1%N ]}
             {[ 1%N := [2%N] ]}
             {[ 1%N := MIdentity; 2%N := MIdentity ]}
             [(2%N, Some (WaypointFn 2)); (1%N, Some (WaypointFn 1))])
          (MkRenderSystem
             [(2%N, Some (DeformMeshFn 2)); (1%N, Some (DeformMeshFn 1))])
          [].

(** Entity 5 has a GlobalCylinder deformer and no Deformed record. *)
Definition legacy_deformer : Deformer :=
  MkDeformer 5%N (f 2) DeformMode_GlobalCylinder (f 0) ∅.

Definition legacy_world : World :=
  MkWorld {[ 5%N := legacy_deformer ]} ∅
          (MkTransformSystem ∅ ∅ {[ 5%N := MTranslation (f 0, f 0, f (-2)) ]} [])
          (MkRenderSystem []) [].

Definition triangle : list spec_float :=
  [f 0; f 0; f 0; f 1; f 0; f 0; f 0; f 1; f 0].

(** Authored positions 0, 2, 1 along x: out of order. *)
Definition zigzag_def : WaypointPathDef :=
  MkWaypointPathDef (Some "zigzag")
    (Some [MkWaypointDef (f 0, f 0, f 0) (f 0, f 0, f 0) (f 0, f 0, f 0);
           MkWaypointDef (f 2, f 0, f 0) (f 1, f 0, f 0) (f 0, f 0, f 0);
           MkWaypointDef (f 1, f 0, f 0) (f 3, f 0, f 0) (f 0, f 0, f 0)]).

(** Evaluation of closed runs.  Only the two sides of an equation are
    evaluated, never its type, which mentions the whole instance. *)
Ltac compute_lhs :=
  match goal with
  | |- ?l = _ => let l' := eval vm_compute in l in change l with l'
  end.

Ltac compute_in H :=
  match type of H with
  | ?l = ?r =>
      let l' := eval vm_compute in l in
      let r' := eval vm_compute in r in
      change (l' = r') in H
  end.

Ltac compute_eq :=
  match goal with
  | |- ?l = ?r =>
      let l' := eval vm_compute in l in
      let r' := eval vm_compute in r in
      change (l' = r'); reflexivity
  end.

Ltac concrete :=
  first [ compute_lhs; reflexivity
        | let H := fresh in intros H; compute_in H; discriminate H ].

Lemma C1_chain_from_parent_chain_witness :
  PrepDeformerFromEntityUndeformedSpace 2%N (flat_sqt 3)
    (lookup_deformer_of bend_world 2%N) (Get_deformed bend_world 2%N)
    bend_world
  = Ok true
       (with_deformed bend_world
          (<[2%N := set_deformer_from_entity_undeformed_space bend_child
                      (MMul MIdentity
                            (MOfSqt (f 3, f 0, f 0) QIdentity
                                    (f 1, f 1, f 1)))]>
             (deformed_ bend_world)))
  /\ (forall m1 m2 : option mat_term,
        CalculateMatrixCylinderBend 2%N (flat_sqt 3) m1 bend_world
        = CalculateMatrixCylinderBend 2%N (flat_sqt 3) m2 bend_world)
  /\ (forall m1 m2 : option mat_term,
        final_world
          (CalculateWaypointTransformMatrix 2%N (flat_sqt 3) m1 bend_world)
        = final_world
            (CalculateWaypointTransformMatrix 2%N (flat_sqt 3) m2 bend_world)).
Proof.
  apply (@C1_chain_from_parent_chain F32.math F32.sqt bend_world 2%N
           (flat_sqt 3) bend_child bend_root bend_deformer); concrete.
Defined.

Lemma C3_own_deformer_falls_back_witness :
  CalculateMatrixCylinderBend 1%N (flat_sqt 3) None bend_world
  = Ok (MOfSqt (f 3, f 0, f 0) QIdentity (f 1, f 1, f 1))
       (with_deformed bend_world
          (<[1%N := set_deformer_from_entity_undeformed_space bend_root
                      MIdentity]> (deformed_ bend_world))).
Proof.
  apply (@C3_own_deformer_falls_back F32.math F32.sqt bend_world 1%N
           (flat_sqt 3) bend_root bend_deformer); concrete.
Defined.

(** C3, as stated, fails: entity 1 of [bend_world] is deformed and is its own
    deformer, yet the chain preparation returns false, and the CylinderBend
    callback returns parent x local, not deformer-world x cylinder-bend. *)
Lemma C3_counterexample :
  deformed_ bend_world !! 1%N = Some bend_root
  /\ deformers_ bend_world !! Deformed_deformer bend_root = Some bend_deformer
  /\ Deformed_deformer bend_root = 1%N
  /\ (forall w',
        PrepDeformerFromEntityUndeformedSpace 1%N (flat_sqt 3)
          (lookup_deformer_of bend_world 1%N) (Get_deformed bend_world 1%N)
          bend_world
        <> Ok true w')
  /\ (exists w',
        CalculateMatrixCylinderBend 1%N (flat_sqt 3)
          (Some (MTranslation (f 0, f 0, f (-4)))) bend_world
        = Ok (MMul (MTranslation (f 0, f 0, f (-4)))
                   (MOfSqt (f 3, f 0, f 0) QIdentity (f 1, f 1, f 1)))
             w').
Proof.
  split; [concrete|]. split; [concrete|]. split; [concrete|]. split.
  - intros w'. concrete.
  - eexists. concrete.
Qed.

Lemma C4_assignment_idempotent_witness :
  SetDeformerRecursive 2%N (Some bend_deformer) bend_world = Ok tt bend_world.
Proof.
  apply (@C4_assignment_idempotent F32.math bend_world 2%N
           (Some bend_deformer) bend_child); concrete.
Defined.

Lemma C9_waypoint_mesh_untouched_witness :
  DeformMesh 2%N triangle 9 3 path_world = Ok triangle path_world.
Proof.
  apply (@C9_waypoint_mesh_untouched F32.math path_world 2%N
           path_child path_deformer); concrete.
Defined.

Lemma C7_destroy_propagates_null_witness :
  exists w',
    Destroy 1%N bend_world = Ok tt w'
    /\ deformation_fn w' 1%N = Some None
    /\ deformed_ w' !! 1%N = None
    /\ world_from_entity_fn w' 1%N = Some None
    /\ world_from_entity_fn w' 2%N = Some None
    /\ holds None w' 2%N.
Proof.
  destruct (@C7_destroy_propagates_null F32.math bend_world 1%N
              bend_root) as (w' & Hrun & Hmesh & _ & Hgone & Hreach & _);
    [concrete|].
  assert (H1 : reaches bend_world 1%N 1%N).
  { apply reaches_self with (d := bend_root); concrete. }
  assert (H2 : reaches bend_world 1%N 2%N).
  { apply reaches_child with (x := 1%N) (cs := [2%N]) (dc := bend_child);
      [exact H1|concrete|apply list_elem_of_here|concrete|concrete]. }
  exists w'. split; [exact Hrun|]. split; [exact Hmesh|].
  split; [exact Hgone|]. split; [apply (Hreach _ H1)|].
  split; [apply (Hreach _ H2)|]. apply (Hreach _ H2). concrete.
Defined.

(** C7, as stated, fails: entity 1 of [nested_world] carries a Deformed
    record and its child 2 carries one too, yet destroying 1 installs no
    null matrix function on either: no call reaches the transform system for
    1, and 2 keeps its CylinderBend function and its deformer. *)
Lemma C7_counterexample :
  deformed_ nested_world !! 1%N = Some plain_root
  /\ GetChildren nested_world 1%N = Some [2%N]
  /\ deformed_ nested_world !! 2%N = Some own_child
  /\ exists w',
       Destroy 1%N nested_world = Ok tt w'
       /\ world_from_entity_fn w' 1%N = None
       /\ world_from_entity_fn w' 2%N = Some (Some (CylinderBendFn 2))
       /\ deformed_ w' !! 2%N = Some own_child.
Proof.
  split; [concrete|]. split; [concrete|]. split; [concrete|].
  eexists. split; [concrete|].
  split; [concrete|]. split; concrete.
Qed.






(** [path_world] is the world the system builds: entity 1 is created from
    a Waypoint deformer definition whose one path has authored positions
    0, 10, 20 along x, and its child 2 from a Deformed definition that
    names the path. *)
Definition three_point_def : WaypointPathDef :=
  MkWaypointPathDef (Some "path")
    (Some [MkWaypointDef (f 0, f 0, f 0) (f 0, f 0, f 0) (f 0, f 0, f 0);
           MkWaypointDef (f 10, f 0, f 0) (f 1, f 0, f 0) (f 0, f 0, f 0);
           MkWaypointDef (f 20, f 0, f 0) (f 3, f 0, f 0) (f 0, f 0, f 0)]).

Definition path_deformer_def : Def :=
  MkDef (MkDeformerDef DeformMode_Waypoint (f 2) (f 1)
                       (Some [three_point_def]))
        (MkDeformedDef None).

Definition path_child_def : Def :=
  MkDef (MkDeformerDef DeformMode_None (f 0) (f 0) None)
        (MkDeformedDef (Some "path")).

Definition path_scene : World :=
  MkWorld ∅ ∅
          (MkTransformSystem
             {[ 2%N := 1%N ]}
             {[ 1%N := [2%N] ]}
             {[ 1%N := MIdentity; 2%N := MIdentity ]} [])
          (MkRenderSystem []) [].

Lemma path_world_created :
  bind (Create 1%N kDeformerHash path_deformer_def)
       (fun _ => Create 2%N kDeformedHash path_child_def) path_scene
  = Ok tt path_world.
Proof. compute_eq. Qed.



(** C6 (what the code does): the waypoints of [zigzag_def] have authored
    positions 0, 2, 1 along the axis.  Every waypoint is kept, in order, with
    its dot product, but the values 0, 2, 1 are not non-decreasing and the
    log is left as it was: no warning is emitted, because the comparison
    reads the value that was just pushed. *)
Theorem C6_unsorted_path_no_warning (w : World) :
  BuildWaypointPath zigzag_def w
  = Ok (Some (MkWaypointPath (hash "zigzag") (f 1, f 0, f 0)
                [MkWaypoint (f 0, f 0, f 0) (f 0, f 0, f 0);
                 MkWaypoint (f 1, f 0, f 0) (f 0, f 0, f 0);
                 MkWaypoint (f 3, f 0, f 0) (f 0, f 0, f 0)]
                [f 0; f 2; f 1]))
       w
  /\ flt (f 1) (f 2) = true.
Proof.
  split; [|reflexivity].
  unfold zigzag_def. rewrite BuildWaypointPath_nonempty.
  concrete.
Qed.

(** ** Runs for the further properties *)

(** [bend_world] without the record of the deformer 1: entity 2 is deformed
    by 1 but its parent has no Deformed record. *)
Definition orphan_world : World :=
  MkWorld {[ 1%N := bend_deformer ]}
          {[ 2%N := bend_child ]}
          (MkTransformSystem {[ 2%N := 1%N ]} {[ 1%N := [2%N] ]} ∅ [])
          (MkRenderSystem []) [].

(** [bend_world] without world matrices. *)
Definition unplaced_world : World :=
  MkWorld {[ 1%N := bend_deformer ]}
          {[ 1%N := bend_root; 2%N := bend_child ]}
          (MkTransformSystem {[ 2%N := 1%N ]} {[ 1%N := [2%N] ]} ∅ [])
          (MkRenderSystem []) [].

(** A deformer 1 with child 2 and grandchild 3, all deformed by 1. *)
Definition three_level_world : World :=
  MkWorld {[ 1%N := bend_deformer ]}
          {[ 1%N := bend_root; 2%N := bend_child; 3%N := bend_child ]}
          (MkTransformSystem
             {[ 2%N := 1%N; 3%N := 2%N ]}
             {[ 1%N := [2%N]; 2%N := [3%N] ]}
             {[ 1%N := MTranslation (f 0, f 0, f (-2)) ]} [])
          (MkRenderSystem []) [].

(** [bend_world] with a third entity 3, child of 2, that has no record. *)
Definition family_world : World :=
  MkWorld {[ 1%N := bend_deformer ]}
          {[ 1%N := bend_root; 2%N := bend_child ]}
          (MkTransformSystem
             {[ 2%N := 1%N; 3%N := 2%N ]}
             {[ 1%N := [2%N]; 2%N := [3%N] ]}
             {[ 1%N := MTranslation (f 0, f 0, f (-2)) ]}
             [(2%N, Some (CylinderBendFn 2)); (1%N, Some (CylinderBendFn 1))])
          (MkRenderSystem []) [].

(** [path_world] where the child asks for a path the deformer lacks. *)
Definition lost_path_child : Deformed :=
  MkDeformed 1%N (hash "other") MIdentity None.

Definition lost_path_world : World :=
  MkWorld {[ 1%N := path_deformer ]}
          {[ 1%N := MkDeformed 1%N 0%N MIdentity None;
             2%N := lost_path_child ]}
          (MkTransformSystem {[ 2%N := 1%N ]} {[ 1%N := [2%N] ]}
             {[ 1%N := MIdentity; 2%N := MIdentity ]} [])
          (MkRenderSystem []) [].

(** Entity 1 is a GlobalCylinder deformer with a Deformed record. *)
Definition global_deformer : Deformer :=
  MkDeformer 1%N (f 2) DeformMode_GlobalCylinder (f 0) ∅.

Definition global_world : World :=
  MkWorld {[ 1%N := global_deformer ]}
          {[ 1%N := bend_root ]}
          (MkTransformSystem ∅ ∅ {[ 1%N := MIdentity ]}
             [(1%N, Some (GlobalCylinderFn 1 (f 2)))])
          (MkRenderSystem [(1%N, Some (DeformMeshFn 1))]) [].

Definition no_deformed_def : DeformedDef := MkDeformedDef None.

Definition bend_def : Def :=
  MkDef (MkDeformerDef DeformMode_CylinderBend (f 2) (f 1) None)
        no_deformed_def.

Definition global_def : Def :=
  MkDef (MkDeformerDef DeformMode_GlobalCylinder (f 2) (f 0) None)
        no_deformed_def.

Definition empty_waypoint_def : Def :=
  MkDef (MkDeformerDef DeformMode_Waypoint (f 2) (f 0) (Some []))
        no_deformed_def.

Definition zigzag_waypoint_def : Def :=
  MkDef (MkDeformerDef DeformMode_Waypoint (f 2) (f 0) (Some [zigzag_def]))
        no_deformed_def.

Definition hollow_path_def : WaypointPathDef :=
  MkWaypointPathDef (Some "hollow") (Some []).

Definition hollow_waypoint_def : Def :=
  MkDef (MkDeformerDef DeformMode_Waypoint (f 2) (f 0)
                       (Some [hollow_path_def]))
        no_deformed_def.

Ltac has_record := eexists; concrete.

Lemma SetDeformerRecursive_frame_witness :
  exists w',
    SetDeformerRecursive 1%N None bend_world = Ok tt w'
    /\ deformers_ w' = deformers_ bend_world
    /\ log w' = log bend_world.
Proof.
  destruct (@SetDeformerRecursive_frame F32.math None bend_world 1%N)
    as (w' & Hrun & Hdfr & _ & Hlog & _); [has_record|].
  by exists w'.
Defined.

Lemma SetDeformerRecursive_spreads_witness :
  exists w',
    SetDeformerRecursive 1%N None bend_world = Ok tt w'
    /\ holds None w' 2%N
    /\ world_from_entity_fn w' 2%N = Some None.
Proof.
  destruct (@SetDeformerRecursive_spreads F32.math None bend_world 1%N)
    as (w' & Hrun & _ & Hspread); [has_record|].
  assert (H1 : spreads None bend_world 1%N 1%N).
  { apply spreads_self with (d := bend_root); concrete. }
  assert (H2 : spreads None bend_world 1%N 2%N).
  { apply spreads_child with (x := 1%N) (cs := [2%N]) (dc := bend_child);
      [exact H1|concrete|apply list_elem_of_here|concrete|concrete]. }
  exists w'. split; [exact Hrun|]. apply (Hspread _ H2).
Defined.

Lemma SetDeformerRecursive_only_spreads_witness :
  exists w',
    SetDeformerRecursive 2%N None nested_world = Ok tt w'
    /\ deformed_ w' !! 1%N = deformed_ nested_world !! 1%N
    /\ world_from_entity_fn w' 1%N = world_from_entity_fn nested_world 1%N.
Proof.
  destruct (@SetDeformerRecursive_only_spreads F32.math None nested_world 2%N)
    as (w' & Hrun & Honly); [has_record|].
  exists w'. split; [exact Hrun|]. apply Honly.
  intros Hspread.
  assert (Hrec : forall x, spreads None nested_world 2%N x -> x = 2%N).
  { clear. intros x Hx.
    induction Hx as [d Hd Hne|x c cs dc _ IH Hcs Hc Hdc Hne]; [done|].
    subst x. compute_in Hcs. discriminate Hcs. }
  by apply Hrec in Hspread.
Defined.

Lemma SetDeformerRecursive_twice_witness :
  exists w',
    SetDeformerRecursive 1%N None bend_world = Ok tt w'
    /\ SetDeformerRecursive 1%N None w' = Ok tt w'.
Proof.
  apply (@SetDeformerRecursive_twice F32.math None bend_world 1%N).
  has_record.
Defined.

Lemma callbacks_without_deformer_witness :
  exists msg,
    forall cylinder_bend : bool,
      callback_result cylinder_bend 5%N (flat_sqt 3) None empty_world
      = Ok (CalculateTransformMatrixFromParent (flat_sqt 3) None)
           (with_log empty_world (log empty_world ++ [(ERROR, msg)])).
Proof.
  apply (@callbacks_without_deformer F32.math F32.sqt empty_world 5%N
           (flat_sqt 3) None).
  concrete.
Defined.

Lemma callbacks_broken_parent_witness :
  CalculateMatrixCylinderBend 2%N (flat_sqt 3) None orphan_world
  = Ok (CalculateTransformMatrixFromParent (flat_sqt 3) None)
       (with_log orphan_world
          (log orphan_world ++
           [(ERROR,
             "A deformed entity has non deformed parent. It will not deform.")])).
Proof.
  apply (@callbacks_broken_parent F32.math F32.sqt orphan_world 2%N
           (flat_sqt 3) None bend_child bend_deformer) with
      (cylinder_bend := true); try concrete.
  assert (H : deformed_ orphan_world !! GetParent orphan_world 2%N = None)
    by concrete.
  by rewrite H.
Defined.

Lemma CalculateMatrixCylinderBend_deforms_witness :
  exists w',
    CalculateMatrixCylinderBend 2%N (flat_sqt 3) None bend_world
    = Ok (MMul (MTranslation (f 0, f 0, f (-2)))
               (MCylinderOfMat
                  (MMul MIdentity
                        (MOfSqt (f 3, f 0, f 0) QIdentity (f 1, f 1, f 1)))
                  (f 2) (f 1)))
         w'.
Proof.
  eexists.
  apply (@CalculateMatrixCylinderBend_deforms F32.math F32.sqt bend_world
           2%N (flat_sqt 3) None bend_child bend_root bend_deformer
           (MTranslation (f 0, f 0, f (-2)))); concrete.
Defined.

Lemma CalculateMatrixCylinderBend_missing_world_matrix_witness :
  CalculateMatrixCylinderBend 2%N (flat_sqt 3) None unplaced_world
  = Failed NullDereference.
Proof.
  apply (@CalculateMatrixCylinderBend_missing_world_matrix F32.math F32.sqt
           unplaced_world 2%N (flat_sqt 3) None bend_child bend_root
           bend_deformer); concrete.
Defined.

Definition lost_path_root : Deformed := MkDeformed 1%N 0%N MIdentity None.

Lemma CalculateWaypointTransformMatrix_missing_path_witness :
  exists w',
    CalculateWaypointTransformMatrix 2%N (flat_sqt 3) None lost_path_world
    = Ok (CalculateTransformMatrixFromParent (flat_sqt 3) None) w'.
Proof.
  eexists.
  apply (@CalculateWaypointTransformMatrix_missing_path F32.math F32.sqt
           lost_path_world 2%N (flat_sqt 3) None lost_path_child
           lost_path_root path_deformer); concrete.
Defined.

Lemma CylinderBend_chain_composes_witness :
  exists w',
    bind (CalculateMatrixCylinderBend 1%N (flat_sqt 1) None) (fun _ =>
    bind (CalculateMatrixCylinderBend 2%N (flat_sqt 2) None) (fun _ =>
          CalculateMatrixCylinderBend 3%N (flat_sqt 3) None))
         three_level_world
    = Ok (MMul (MTranslation (f 0, f 0, f (-2)))
               (MCylinderOfMat
                  (MMul (MMul MIdentity
                              (MOfSqt (f 2, f 0, f 0) QIdentity
                                      (f 1, f 1, f 1)))
                        (MOfSqt (f 3, f 0, f 0) QIdentity (f 1, f 1, f 1)))
                  (f 2) (f 1)))
         w'.
Proof.
  destruct (@CylinderBend_chain_composes F32.math F32.sqt three_level_world
              1%N 2%N 3%N (flat_sqt 1) (flat_sqt 2) (flat_sqt 3)
              None None None bend_root bend_child bend_child bend_deformer
              (MTranslation (f 0, f 0, f (-2))))
    as (w' & Hrun & _); try concrete.
  by exists w'.
Defined.

Lemma DeformMesh_cylinder_bend_witness :
  exists out w',
    DeformMesh 2%N triangle 9 3 bend_world = Ok out w'
    /\ UndeformedBoundingBox w' 2%N = Some (GetBoundingBox triangle 9 3).
Proof.
  destruct (@DeformMesh_cylinder_bend F32.math bend_world 2%N bend_child
              bend_deformer triangle 9 3) as [Hbox Hrun]; try concrete.
  eexists _, _. split; [exact Hrun|exact Hbox].
Defined.

Lemma DeformMesh_invalid_deformer_witness :
  DeformMesh 1%N triangle 9 3 global_world
  = Ok triangle
       (with_log global_world
          (log global_world ++
           [(ERROR, "Invalid deformer, skipping deformation for entity")])).
Proof.
  apply (@DeformMesh_invalid_deformer F32.math global_world 1%N bend_root);
    [concrete|].
  assert (H : deformers_ global_world !! Deformed_deformer bend_root
              = Some global_deformer) by concrete.
  rewrite H. by right.
Defined.

Lemma Destroy_without_deformed_witness :
  exists w',
    Destroy 5%N legacy_world = Ok tt w'
    /\ deformers_ w' !! 5%N = None
    /\ transform_system w' = transform_system legacy_world.
Proof.
  eexists. split.
  - apply (@Destroy_without_deformed F32.math legacy_world 5%N). concrete.
  - split; [concrete|reflexivity].
Defined.

Lemma SetAsDeformed_existing_witness :
  exists w',
    SetAsDeformed 2%N "path" bend_world = Ok tt w'
    /\ deformed_ w' !! 2%N = Some (MkDeformed 1%N (hash "path") MIdentity None).
Proof.
  eexists. split.
  - apply (@SetAsDeformed_existing F32.math F32.init bend_world 2%N "path"
             bend_child). concrete.
  - concrete.
Defined.

Lemma SetAsDeformed_plain_parent_witness :
  exists w',
    SetAsDeformed 2%N "path" empty_world = Ok tt w'
    /\ deformed_ w' !! 2%N
       = Some (MkDeformed kNullEntity (hash "path") MIdentity None)
    /\ world_from_entity_fn w' 2%N = None.
Proof.
  eexists. split.
  - apply (@SetAsDeformed_plain_parent F32.math F32.init empty_world 2%N
             "path"); concrete.
  - split; concrete.
Defined.

Lemma SetAsDeformed_inherits_witness :
  exists w' d',
    SetAsDeformed 3%N "path" family_world = Ok tt w'
    /\ deformed_ w' !! 3%N = Some d'
    /\ Deformed_deformer d' = 1%N
    /\ world_from_entity_fn w' 3%N = Some (Some (CylinderBendFn 3)).
Proof.
  destruct (@SetAsDeformed_inherits F32.math F32.init family_world 3%N
              "path" bend_child)
    as (w' & d' & Hrun & Hd' & _ & Hdeformer & _ & Hfn); try concrete.
  exists w', d'. split; [exact Hrun|]. split; [exact Hd'|].
  split; [exact Hdeformer|]. apply Hfn. concrete.
Defined.

Lemma Create_waypoint_without_paths_witness :
  Create 1%N kDeformerHash empty_waypoint_def empty_world
  = Ok tt
       (with_log empty_world
          (log empty_world ++
           [(DFATAL, "Waypoint deformations must have at least one path")])).
Proof.
  apply (@Create_waypoint_without_paths F32.math F32.init empty_world 1%N
           empty_waypoint_def); [concrete|right; concrete].
Defined.

Lemma Create_deformer_fresh_witness :
  exists w',
    Create 1%N kDeformerHash bend_def empty_world = Ok tt w'
    /\ deformers_ w' !! 1%N = Some bend_deformer
    /\ IsDeformed w' 1%N = true
    /\ world_from_entity_fn w' 1%N = Some (Some (CylinderBendFn 1)).
Proof.
  destruct (@Create_deformer_fresh F32.math F32.init empty_world 1%N bend_def)
    as (w' & Hrun & Hdfr & _ & _ & Hdef & _ & _ & _ & Hfn & _);
    try concrete.
  exists w'. split; [exact Hrun|]. split; [exact Hdfr|].
  split; [exact Hdef|]. apply Hfn. concrete.
Defined.

Lemma Create_waypoint_fresh_witness :
  exists w' dr,
    Create 1%N kDeformerHash zigzag_waypoint_def empty_world = Ok tt w'
    /\ deformers_ w' !! 1%N = Some dr
    /\ mode dr = DeformMode_Waypoint
    /\ is_Some (paths dr !! hash "zigzag").
Proof.
  destruct (@Create_waypoint_fresh F32.math F32.init empty_world 1%N
              zigzag_waypoint_def zigzag_def [])
    as (w' & dr & Hrun & Hdfr & _ & Hmode & _ & _ & _ & Hreg & _);
    try concrete.
  exists w', dr. split; [exact Hrun|]. split; [exact Hdfr|].
  split; [exact Hmode|].
  assert (Hb : exists b,
             BuildWaypointPath zigzag_def empty_world
             = Ok (Some b) empty_world
             /\ wp_path_id b = hash "zigzag").
  { eexists. split; [apply BuildWaypointPath_nonempty|reflexivity]. }
  destruct Hb as (b & Hb & <-).
  apply (Hreg zigzag_def b empty_world empty_world
              (list_elem_of_here _ _) Hb).
Defined.

Lemma Create_waypoint_no_valid_path_witness :
  exists w',
    Create 1%N kDeformerHash hollow_waypoint_def empty_world = Ok tt w'
    /\ deformers_ w' !! 1%N
       = Some (MkDeformer 1%N (f 2) DeformMode_Waypoint (f 0) ∅)
    /\ GetDeformMode w' 1%N = DeformMode_Waypoint.
Proof.
  destruct (@Create_waypoint_no_valid_path F32.math F32.init empty_world 1%N
              hollow_waypoint_def hollow_path_def [])
    as (w' & Hrun & Hdfr & _ & Hmode); try concrete.
  { intros pdef Hin. apply list_elem_of_singleton in Hin as ->. by right. }
  by exists w'.
Defined.

Lemma Create_deformer_on_existing_witness :
  Create 2%N kDeformerHash bend_def bend_world = Failed NullDereference.
Proof.
  apply (@Create_deformer_on_existing F32.math F32.init bend_world 2%N
           bend_def).
  - intros H. compute_in H. discriminate H.
  - left. has_record.
Defined.

Lemma Create_global_cylinder_then_DeformMesh_witness :
  exists w' w'',
    Create 1%N kDeformerHash global_def empty_world = Ok tt w'
    /\ DeformMesh 1%N triangle 9 3 w' = Ok triangle w''.
Proof.
  destruct (@Create_global_cylinder_then_DeformMesh F32.math F32.init
              empty_world 1%N global_def triangle 9 3)
    as (w' & Hrun & Hmesh); try concrete.
  by eexists _, _.
Defined.

Lemma queries_of_undeformed_witness :
  GetDeformMode orphan_world 1%N = DeformMode_None
  /\ GetDeformRadius orphan_world 1%N = fzero.
Proof.
  apply (proj1 (@queries_of_undeformed F32.math orphan_world 1%N)).
  concrete.
Defined.

(** Entity 2 of [bend_world] is moved under entity 7, which has no record:
    its deformer is cleared. *)
Lemma OnParentChanged_assigns_witness :
  exists w',
    OnParentChanged 2%N 7%N bend_world = Ok tt w'
    /\ holds None w' 2%N
    /\ world_from_entity_fn w' 2%N = Some None.
Proof.
  destruct (proj2 (@OnParentChanged_assigns F32.math bend_world 2%N 7%N))
    as (w' & Hrun & Hholds & Hspread); [has_record|].
  exists w'. split; [exact Hrun|]. split; [exact Hholds|].
  apply (Hspread 2%N).
  apply spreads_self with (d := bend_child); concrete.
Defined.

(** [path_world], built by two calls of [Create] from a scene without
    records, is paired, and the mutator it holds for entity 2 completes. *)
Lemma legacy_branch_unreachable_witness :
  paired path_world
  /\ deformation_fn path_world 2%N = Some (Some (DeformMeshFn 2))
  /\ exists data' w', DeformMesh 2%N triangle 9 3 path_world = Ok data' w'.
Proof.
  assert (Hscene : paired path_scene) by apply paired_initial.
  pose proof path_world_created as Hrun. unfold bind in Hrun.
  destruct (Create 1%N kDeformerHash path_deformer_def path_scene)
    as [[] w1|] eqn:Hfirst; [|discriminate Hrun].
  assert (Hw1 : paired w1).
  { exact (proj1 (@legacy_branch_unreachable F32.math F32.sqt F32.init
                    path_scene Hscene) _ _ _ _ Hfirst). }
  assert (Hworld : paired path_world).
  { exact (proj1 (@legacy_branch_unreachable F32.math F32.sqt F32.init
                    w1 Hw1) _ _ _ _ Hrun). }
  split; [exact Hworld|]. split; [concrete|].
  apply (proj2 (proj2 (proj2 (proj2 (proj2 (proj2
           (@legacy_branch_unreachable F32.math F32.sqt F32.init
              path_world Hworld))))))
           2%N (DeformMeshFn 2) triangle 9 3).
  concrete.
Defined.

End Examples.
